(** * Email-Sender-BE: response normalisation, body rendering, orchestration

    A shallow embedding of the AI service (the completion post-processing
    inside [generateEmail], src/unnamed/part_000) and of the email service
    ([validateEmail], [validateEmailList], [sendEmail], [formatEmailBody],
    [stripHtml], src/services/emailService.js), with the JavaScript built-ins
    they call: string methods, the backtracking regular-expression matcher,
    [JSON.parse].  Line numbers are those of the two source files. *)

From Stdlib Require Import List NArith Arith Bool Lia String Ascii Permutation.
From Stdlib Require DecimalNat DecimalFacts.
Import ListNotations.

Set Implicit Arguments.

(** ** JavaScript strings

    A JavaScript string is a sequence of UTF-16 code units; a code unit is
    modelled by its number. *)

Definition jsstring := list N.

(** The code units of an ASCII literal. *)
Definition u (s : string) : jsstring :=
  List.map N_of_ascii (list_ascii_of_string s).

Definition LF : N := 10.
Definition SP : N := 32.
Definition DQ : N := 34.        (* the double quote *)
Definition SQ : N := 39.        (* the apostrophe *)
Definition BSL : N := 92.       (* the backslash *)
Definition LBRACE : N := 123.
Definition RBRACE : N := 125.

Definition ch (c : N) : N -> bool := N.eqb c.
Definition nch (c : N) : N -> bool := fun d => negb (N.eqb c d).

(** WhiteSpace and LineTerminator of ECMAScript: what [trim] removes and what
    the class [\s] matches. *)
Definition is_ws (c : N) : bool :=
  ((c =? 9) || (c =? 10) || (c =? 11) || (c =? 12) || (c =? 13) || (c =? 32)
   || (c =? 160) || (c =? 5760) || ((8192 <=? c) && (c <=? 8202))
   || (c =? 8232) || (c =? 8233) || (c =? 8239) || (c =? 8287)
   || (c =? 12288) || (c =? 65279))%N.

Fixpoint str_eqb (a b : jsstring) : bool :=
  match a, b with
  | [], [] => true
  | x :: a', y :: b' => N.eqb x y && str_eqb a' b'
  | _, _ => false
  end.

(** [s.startsWith(p)] *)
Fixpoint startsWith (s p : jsstring) {struct p} : bool :=
  match p with
  | [] => true
  | x :: p' =>
      match s with
      | y :: s' => N.eqb x y && startsWith s' p'
      | [] => false
      end
  end.

(** [s.endsWith(p)] *)
Definition endsWith (s p : jsstring) : bool :=
  startsWith (rev s) (rev p).

(** [s.includes(p)] *)
Fixpoint includes (s p : jsstring) : bool :=
  startsWith s p ||
  match s with
  | [] => false
  | _ :: s' => includes s' p
  end.

Fixpoint trimStart (s : jsstring) : jsstring :=
  match s with
  | c :: s' => if is_ws c then trimStart s' else s
  | [] => []
  end.

Definition trimEnd (s : jsstring) : jsstring := rev (trimStart (rev s)).

(** [s.trim()] *)
Definition trim (s : jsstring) : jsstring := trimEnd (trimStart s).

(** [s.indexOf(c)] for a one-unit needle; [None] is -1. *)
Fixpoint indexOf (s : jsstring) (c : N) : option nat :=
  match s with
  | [] => None
  | d :: s' => if N.eqb d c then Some 0
               else match indexOf s' c with
                    | Some i => Some (S i)
                    | None => None
                    end
  end.

(** [s.lastIndexOf(c)] for a one-unit needle. *)
Fixpoint lastIndexOf (s : jsstring) (c : N) : option nat :=
  match s with
  | [] => None
  | d :: s' => match lastIndexOf s' c with
               | Some i => Some (S i)
               | None => if N.eqb d c then Some 0 else None
               end
  end.

(** [s.substring(a, b)]; the arguments are swapped when [a > b]. *)
Definition substring (s : jsstring) (a b : nat) : jsstring :=
  let lo := Nat.min a b in
  let hi := Nat.max a b in
  firstn (hi - lo) (skipn lo s).

(** [s.split('\n')]: the pieces between line feeds, never an empty array. *)
Fixpoint split_lf (s : jsstring) : list jsstring :=
  match s with
  | [] => [[]]
  | c :: s' =>
      if N.eqb c LF then [] :: split_lf s'
      else match split_lf s' with
           | l :: ls => (c :: l) :: ls
           | [] => [[c]]
           end
  end.

(** [a.join(sep)] *)
Fixpoint join (sep : jsstring) (a : list jsstring) : jsstring :=
  match a with
  | [] => []
  | [x] => x
  | x :: a' => x ++ sep ++ join sep a'
  end.

(** [a.findIndex(p)]; [None] is -1. *)
Fixpoint findIndex (A : Type) (p : A -> bool) (a : list A) : option nat :=
  match a with
  | [] => None
  | x :: a' => if p x then Some 0
               else match findIndex p a' with
                    | Some i => Some (S i)
                    | None => None
                    end
  end.

(** [a.splice(i, 1)]: the array after the removal. *)
Fixpoint splice1 (A : Type) (i : nat) (a : list A) : list A :=
  match a, i with
  | [], _ => []
  | _ :: a', 0 => a'
  | x :: a', S j => x :: splice1 j a'
  end.

(** [s.toLowerCase()] on the code units A to Z.  The source only asks whether
    the lower-cased line includes [subject:]; no code unit outside A to Z
    lower-cases to one of the units of that token, so the test is decided by
    this part of the mapping. *)
Definition lower (c : N) : N :=
  if ((65 <=? c) && (c <=? 90))%N then (c + 32)%N else c.

Definition toLowerCase (s : jsstring) : jsstring := List.map lower s.

(** ** Regular expressions

    The pattern syntax the two services use, with the backtracking semantics
    of ECMAScript (no [u], [m] or [s] flag): a matcher takes a state and a
    continuation, alternatives are tried left to right, [*] is greedy and
    rejects an iteration that consumes nothing. *)

Inductive regex : Type :=
| Eps : regex                       (* the empty pattern *)
| Chr : (N -> bool) -> regex        (* one code unit of a class *)
| Cat : regex -> regex -> regex
| Alt : regex -> regex -> regex
| Star : regex -> regex             (* greedy r* *)
| Grp : regex -> regex              (* the capture group (...) *)
| Bol : regex                       (* ^ *)
| Eol : regex.                      (* $ *)

Record mstate : Type := MState {
  pos : nat;                 (* endIndex *)
  rest : jsstring;           (* the input from endIndex on *)
  cap : option jsstring      (* capture 1; None is undefined *)
}.

Definition cont := mstate -> option mstate.

(** RepeatMatcher with min 0 and no max. *)
Fixpoint star_loop (m : mstate -> cont -> option mstate) (k : cont)
    (fuel : nat) (x : mstate) : option mstate :=
  match fuel with
  | 0 => k x
  | S f =>
      match m x (fun y => if pos y =? pos x then None
                          else star_loop m k f y)%nat with
      | Some z => Some z
      | None => k x
      end
  end.

Fixpoint rmatch (r : regex) (x : mstate) (k : cont) : option mstate :=
  match r with
  | Eps => k x
  | Chr p =>
      match rest x with
      | c :: t => if p c then k (MState (S (pos x)) t (cap x)) else None
      | [] => None
      end
  | Cat r1 r2 => rmatch r1 x (fun y => rmatch r2 y k)
  | Alt r1 r2 =>
      match rmatch r1 x k with
      | Some z => Some z
      | None => rmatch r2 x k
      end
  | Star r1 => star_loop (rmatch r1) k (S (List.length (rest x))) x
  | Grp r1 =>
      rmatch r1 x (fun y =>
        k (MState (pos y) (rest y) (Some (firstn (pos y - pos x) (rest x)))))
  | Bol => if (pos x =? 0)%nat then k x else None
  | Eol => match rest x with [] => k x | _ :: _ => None end
  end.

(** The pattern for a literal text. *)
Fixpoint lit (p : jsstring) : regex :=
  match p with
  | [] => Eps
  | c :: p' => Cat (Chr (ch c)) (lit p')
  end.

Definition Opt (r : regex) : regex := Alt r Eps.          (* r? *)
Definition ws_star : regex := Star (Chr is_ws).            (* \s* *)

(** One match attempt at index [i], where [s] is the input from [i] on:
    the number of code units matched and capture 1. *)
Definition match_at (r : regex) (i : nat) (s : jsstring)
  : option (nat * option jsstring) :=
  match rmatch r (MState i s None) Some with
  | Some y => Some (pos y - i, cap y)
  | None => None
  end.

(** [r.exec(s)] scanning from index [i]: the index of the leftmost match, its
    length and capture 1. *)
Fixpoint exec_from (r : regex) (i : nat) (s : jsstring)
  : option (nat * nat * option jsstring) :=
  match match_at r i s with
  | Some (n, c) => Some (i, n, c)
  | None => match s with
            | [] => None
            | _ :: s' => exec_from r (S i) s'
            end
  end.

Definition exec (r : regex) (s : jsstring) := exec_from r 0 s.

(** [r.test(s)] *)
Definition test (r : regex) (s : jsstring) : bool :=
  match exec r s with Some _ => true | None => false end.

(** [s.match(r)[1]] for a pattern without the [g] flag: [None] when there is
    no match (the result is null) or the group did not take part. *)
Definition match1 (r : regex) (s : jsstring) : option jsstring :=
  match exec r s with
  | Some (_, _, c) => c
  | None => None
  end.

(** [s.replace(r, repl)] with the [g] flag, for a replacement text without
    [$] patterns.  [skip] counts the code units of the current match still
    to be dropped; after an empty match the scan moves on by one unit. *)
Fixpoint replace_go (r : regex) (repl : jsstring) (i skip : nat)
    (s : jsstring) : jsstring :=
  match skip with
  | S n =>
      match s with
      | [] => []
      | _ :: s' => replace_go r repl (S i) n s'
      end
  | 0 =>
      match match_at r i s with
      | Some (S n, _) =>
          repl ++ match s with
                  | [] => []
                  | _ :: s' => replace_go r repl (S i) n s'
                  end
      | Some (0, _) =>
          repl ++ match s with
                  | [] => []
                  | c :: s' => c :: replace_go r repl (S i) 0 s'
                  end
      | None =>
          match s with
          | [] => []
          | c :: s' => c :: replace_go r repl (S i) 0 s'
          end
      end
  end.

Definition replace_all (r : regex) (repl s : jsstring) : jsstring :=
  replace_go r repl 0 0 s.

(** [s.replace(r, repl)] without the [g] flag: the leftmost match only. *)
Definition replace_first (r : regex) (repl s : jsstring) : jsstring :=
  match exec r s with
  | Some (i, n, _) => firstn i s ++ repl ++ skipn (i + n) s
  | None => s
  end.

(** ** JSON.parse

    The JSON grammar of ECMA-404 as [JSON.parse] reads it.  A number keeps its
    lexeme: the services never compute with it. *)

#[warnings="-register-all"]
Inductive json : Type :=
| JNull : json
| JBool : bool -> json
| JNum : jsstring -> json
| JStr : jsstring -> json
| JArr : list json -> json
| JObj : list (jsstring * json) -> json.

(** The result of a parsing function: a value and the remaining input, a
    syntax error, or recursion budget exhausted. *)
Inductive presult (A : Type) : Type :=
| POk : A -> jsstring -> presult A
| PFail : presult A
| PFuel : presult A.
Arguments PFail {A}.
Arguments PFuel {A}.

Definition json_ws (c : N) : bool :=
  ((c =? 9) || (c =? 10) || (c =? 13) || (c =? 32))%N.

Fixpoint skip_ws (s : jsstring) : jsstring :=
  match s with
  | c :: s' => if json_ws c then skip_ws s' else s
  | [] => []
  end.

Definition is_digit (c : N) : bool := ((48 <=? c) && (c <=? 57))%N.

Definition hex_val (c : N) : option N :=
  if is_digit c then Some (c - 48)%N
  else if ((97 <=? c) && (c <=? 102))%N then Some (c - 87)%N
  else if ((65 <=? c) && (c <=? 70))%N then Some (c - 55)%N
  else None.

Definition hex4 (a b c d : N) : option N :=
  match hex_val a, hex_val b, hex_val c, hex_val d with
  | Some x, Some y, Some z, Some w => Some (x * 4096 + y * 256 + z * 16 + w)%N
  | _, _, _, _ => None
  end.

Definition cons_char (c : N) (r : option (jsstring * jsstring))
  : option (jsstring * jsstring) :=
  match r with
  | Some (v, t) => Some (c :: v, t)
  | None => None
  end.

(** The characters of a string literal after its opening quote, up to and
    including the closing quote. *)
Fixpoint parse_chars (s : jsstring) : option (jsstring * jsstring) :=
  match s with
  | [] => None
  | c :: t =>
      if N.eqb c DQ then Some ([], t)
      else if N.eqb c BSL then
        match t with
        | [] => None
        | e :: t' =>
            if N.eqb e DQ then cons_char DQ (parse_chars t')
            else if N.eqb e BSL then cons_char BSL (parse_chars t')
            else if N.eqb e 47 then cons_char 47%N (parse_chars t')
            else if N.eqb e 98 then cons_char 8%N (parse_chars t')
            else if N.eqb e 102 then cons_char 12%N (parse_chars t')
            else if N.eqb e 110 then cons_char 10%N (parse_chars t')
            else if N.eqb e 114 then cons_char 13%N (parse_chars t')
            else if N.eqb e 116 then cons_char 9%N (parse_chars t')
            else if N.eqb e 117 then
              match t' with
              | h1 :: h2 :: h3 :: h4 :: t'' =>
                  match hex4 h1 h2 h3 h4 with
                  | Some v => cons_char v (parse_chars t'')
                  | None => None
                  end
              | _ => None
              end
            else None
        end
      else if (c <? 32)%N then None
      else cons_char c (parse_chars t)
  end.

Fixpoint span_digits (s : jsstring) : jsstring * jsstring :=
  match s with
  | c :: t => if is_digit c then let (d, r) := span_digits t in (c :: d, r)
              else ([], s)
  | [] => ([], [])
  end.

(** A number lexeme: an optional minus sign; a zero, or a non-zero digit and
    digits; optionally a point and one digit or more; optionally e or E, a
    sign and one digit or more. *)
Definition lex_number (s : jsstring) : option (jsstring * jsstring) :=
  let (sign, s1) := match s with
                    | c :: t => if N.eqb c 45 then ([c], t) else ([], s)
                    | [] => ([], s)
                    end in
  match s1 with
  | [] => None
  | c :: t =>
      if negb (is_digit c) then None else
      let (int, s2) := if N.eqb c 48 then ([c], t)
                       else let (d, r) := span_digits t in (c :: d, r) in
      let (frac, s3) :=
        match s2 with
        | p :: t2 =>
            if N.eqb p 46 then
              match span_digits t2 with
              | (d :: ds, r) => (Some (p :: d :: ds), r)
              | ([], _) => (None, s2)
              end
            else (Some [], s2)
        | [] => (Some [], s2)
        end in
      match frac with
      | None => None
      | Some fr =>
          match s3 with
          | e :: t3 =>
              if N.eqb e 101 || N.eqb e 69 then
                let (esign, t4) :=
                  match t3 with
                  | g :: t3' => if N.eqb g 43 || N.eqb g 45 then ([g], t3')
                                else ([], t3)
                  | [] => ([], t3)
                  end in
                match span_digits t4 with
                | (d :: ds, r) =>
                    Some (sign ++ int ++ fr ++ e :: esign ++ d :: ds, r)
                | ([], _) => None
                end
              else Some (sign ++ int ++ fr, s3)
          | [] => Some (sign ++ int ++ fr, s3)
          end
      end
  end.

Definition parse_literal (w : jsstring) (v : json) (s : jsstring)
  : presult json :=
  if startsWith s w then POk v (skipn (List.length w) s) else PFail.

Fixpoint parse_value (fuel : nat) (s : jsstring) : presult json :=
  match fuel with
  | 0 => PFuel
  | S f =>
      match s with
      | [] => PFail
      | c :: t =>
          if N.eqb c LBRACE then
            match skip_ws t with
            | d :: t' =>
                if N.eqb d RBRACE then POk (JObj []) t'
                else match parse_members f (d :: t') with
                     | POk m r => POk (JObj m) r
                     | PFail => PFail
                     | PFuel => PFuel
                     end
            | [] => PFail
            end
          else if N.eqb c 91 then
            match skip_ws t with
            | d :: t' =>
                if N.eqb d 93 then POk (JArr []) t'
                else match parse_elements f (d :: t') with
                     | POk l r => POk (JArr l) r
                     | PFail => PFail
                     | PFuel => PFuel
                     end
            | [] => PFail
            end
          else if N.eqb c DQ then
            match parse_chars t with
            | Some (v, r) => POk (JStr v) r
            | None => PFail
            end
          else if N.eqb c 116 then parse_literal (u "true") (JBool true) s
          else if N.eqb c 102 then parse_literal (u "false") (JBool false) s
          else if N.eqb c 110 then parse_literal (u "null") JNull s
          else match lex_number s with
               | Some (n, r) => POk (JNum n) r
               | None => PFail
               end
      end
  end

(** member (, member)* } with the input at the first member *)
with parse_members (fuel : nat) (s : jsstring)
  : presult (list (jsstring * json)) :=
  match fuel with
  | 0 => PFuel
  | S f =>
      match s with
      | c :: t =>
          if negb (N.eqb c DQ) then PFail else
          match parse_chars t with
          | None => PFail
          | Some (key, t1) =>
              match skip_ws t1 with
              | colon :: t2 =>
                  if negb (N.eqb colon 58) then PFail else
                  match parse_value f (skip_ws t2) with
                  | POk v t3 =>
                      match skip_ws t3 with
                      | d :: t4 =>
                          if N.eqb d RBRACE then POk [(key, v)] t4
                          else if N.eqb d 44 then
                            match parse_members f (skip_ws t4) with
                            | POk m r => POk ((key, v) :: m) r
                            | PFail => PFail
                            | PFuel => PFuel
                            end
                          else PFail
                      | [] => PFail
                      end
                  | PFail => PFail
                  | PFuel => PFuel
                  end
              | [] => PFail
              end
          end
      | [] => PFail
      end
  end

(** value (, value)* ] with the input at the first value *)
with parse_elements (fuel : nat) (s : jsstring) : presult (list json) :=
  match fuel with
  | 0 => PFuel
  | S f =>
      match parse_value f s with
      | POk v t1 =>
          match skip_ws t1 with
          | d :: t2 =>
              if N.eqb d 93 then POk [v] t2
              else if N.eqb d 44 then
                match parse_elements f (skip_ws t2) with
                | POk l r => POk (v :: l) r
                | PFail => PFail
                | PFuel => PFuel
                end
              else PFail
          | [] => PFail
          end
      | PFail => PFail
      | PFuel => PFuel
      end
  end.

(** [JSON.parse(s)]; [None] is a thrown SyntaxError. *)
Definition JSON_parse (s : jsstring) : option json :=
  let s0 := skip_ws s in
  match parse_value (2 * List.length s0 + 1) s0 with
  | POk v r => match skip_ws r with [] => Some v | _ :: _ => None end
  | PFail => None
  | PFuel => None
  end.

(** Property lookup in an object literal: the last member of that name. *)
Fixpoint lookup (key : jsstring) (m : list (jsstring * json)) : option json :=
  match m with
  | [] => None
  | (k, v) :: m' =>
      match lookup key m' with
      | Some w => Some w
      | None => if str_eqb k key then Some v else None
      end
  end.

(** ** Exceptions *)

Inductive exn : Type :=
| SyntaxError : exn
| TypeError : exn
| Error : jsstring -> exn.           (* new Error(message) *)

Inductive outcome (A : Type) : Type :=
| Return : A -> outcome A
| Throw : exn -> outcome A.
Arguments Throw {A}.

Definition bind (A B : Type) (m : outcome A) (f : A -> outcome B)
  : outcome B :=
  match m with
  | Return a => f a
  | Throw e => Throw e
  end.

Notation "x <- m ;; k" := (bind m (fun x => k))
  (at level 61, m at next level, right associativity).

(** try { m } catch (e) { h e } *)
Definition try_catch (A : Type) (m : outcome A) (h : exn -> outcome A)
  : outcome A :=
  match m with
  | Return a => Return a
  | Throw e => h e
  end.

(** [v.key] for a key that no prototype defines ([subject] and [body] are
    such keys): [None] is undefined; reading a property of null throws. *)
Definition get_prop (v : json) (key : jsstring) : outcome (option json) :=
  match v with
  | JNull => Throw TypeError
  | JObj m => Return (lookup key m)
  | _ => Return None
  end.

Definition parse_json (s : jsstring) : outcome json :=
  match JSON_parse s with
  | Some v => Return v
  | None => Throw SyntaxError
  end.

(** ** Patterns both services use *)

Definition is_quote (c : N) : bool := N.eqb c DQ || N.eqb c SQ.

(** Any code unit but a line terminator: the pattern [.] *)
Definition dot (c : N) : bool :=
  negb (N.eqb c 10 || N.eqb c 13 || N.eqb c 8232 || N.eqb c 8233).

(** /^[Q']|[Q']$/g, where Q stands for the double quote *)
Definition re_quotes : regex :=
  Alt (Cat Bol (Chr is_quote)) (Cat (Chr is_quote) Eol).
(** /\\n/g: a backslash and the letter n *)
Definition re_esc_n : regex := lit [BSL; 110%N].
(** /\\Q/g: a backslash and a double quote *)
Definition re_esc_quote : regex := lit [BSL; DQ].
(** / Q key Q \s* : \s* Q ( [^Q]* (?: \\ . [^Q]* )* ) Q / written with spaces
    between its parts, for the keys subject and body (Q is the double quote):
    the quoted key, a colon between optional white space, and a quoted value
    whose text is group 1.  [escapes] is the part (?: \\ . [^Q]* )* of it. *)
Definition escapes : regex :=
  Star (Cat (Chr (ch BSL)) (Cat (Chr dot) (Star (Chr (nch DQ))))).

Definition re_key (key : jsstring) : regex :=
  Cat (lit ([DQ] ++ key ++ [DQ]))
 (Cat ws_star
 (Cat (Chr (ch 58))
 (Cat ws_star
 (Cat (Chr (ch DQ))
 (Cat (Grp (Cat (Star (Chr (nch DQ))) escapes))
      (Chr (ch DQ))))))).

Definition quoted (key : string) : jsstring := [DQ] ++ u key ++ [DQ].

(** [m && m[1]]: a match whose group 1 is a non-empty string. *)
Definition truthy_group (m : option jsstring) : option jsstring :=
  match m with
  | Some (c :: s) => Some (c :: s)
  | _ => None
  end.

(** ** services/aiService.js: the completion post-processing of generateEmail *)

Module AIService.

Record GeneratedEmail : Type := mkEmail {
  subject : jsstring;
  body : jsstring
}.

Definition fence : jsstring := u "```".
Definition fence_json : jsstring := u "```json".

(** The placeholder subject. *)
Definition placeholder : jsstring := u "Generated Email".

(** /```json\s*/g *)
Definition re_fence_json : regex := Cat (lit fence_json) ws_star.
(** /```\s*$/g *)
Definition re_fence_end : regex := Cat (lit fence) (Cat ws_star Eol).
(** /```\s*/g *)
Definition re_fence : regex := Cat (lit fence) ws_star.
(** /[{}]/g *)
Definition re_braces : regex :=
  Chr (fun c => N.eqb c LBRACE || N.eqb c RBRACE).

(** One code unit matched without regard to case (flag [i]) against an
    ASCII letter given in lower case. *)
Definition chi (c : N) : N -> bool := fun d => N.eqb c (lower d) && (d <? 128)%N.

Fixpoint lit_i (p : jsstring) : regex :=
  match p with
  | [] => Eps
  | c :: p' => Cat (Chr (chi c)) (lit_i p')
  end.

(** /subject:?\s*/i *)
Definition re_subject_prefix : regex :=
  Cat (lit_i (u "subject")) (Cat (Opt (Chr (ch 58))) ws_star).

(** Lines 164 to 169: the markdown code fences. *)
Definition strip_fences (response : jsstring) : jsstring :=
  let response :=
    if includes response fence_json
    then replace_all re_fence_end [] (replace_all re_fence_json [] response)
    else response in
  if includes response fence
  then replace_all re_fence_end [] (replace_all re_fence [] response)
  else response.

(** Lines 172 to 176: the text from the first opening brace to the last
    closing brace. *)
Definition brace_bound (response : jsstring) : jsstring :=
  match indexOf response LBRACE, lastIndexOf response RBRACE with
  | Some firstBrace, Some lastBrace =>
      substring response firstBrace (lastBrace + 1)
  | _, _ => response
  end.

Definition string_or (v : option json) (default : jsstring) : jsstring :=
  match v with
  | Some (JStr s) => s
  | _ => default
  end.

(** Lines 187 and 188: the clean-up of the parsed fields. *)
Definition clean_subject (subject : jsstring) : jsstring :=
  trim (replace_all re_quotes [] subject).

Definition clean_body (body : jsstring) : jsstring :=
  trim (replace_all re_esc_n [LF] (replace_all re_quotes [] body)).

(** Line 191: the body still shows a JSON key. *)
Definition has_json_key (body : jsstring) : bool :=
  includes body (quoted "subject") || includes body (quoted "body").

(** Lines 180 to 208: the body of the try statement. *)
Definition parse_branch (response : jsstring) : outcome GeneratedEmail :=
  parsed <- parse_json response ;;
  parsed_subject <- get_prop parsed (u "subject") ;;
  parsed_body <- get_prop parsed (u "body") ;;
  let subject := string_or parsed_subject placeholder in
  let body := string_or parsed_body response in
  let subject := clean_subject subject in
  let body := clean_body body in
  if has_json_key body
  then Throw (Error (u "Body contains JSON structure"))
  else Return (mkEmail subject body).

Definition nonblank (line : jsstring) : bool :=
  match trim line with [] => false | _ :: _ => true end.

Definition is_subject_line (line : jsstring) : bool :=
  includes (toLowerCase line) (u "subject:").

(** Lines 215 to 254: the handler of the catch clause. *)
Definition manual_extraction (response : jsstring) : GeneratedEmail :=
  let subject := placeholder in
  let body := trim response in
  let subjectMatch := match1 (re_key (u "subject")) response in
  let subject :=
    match truthy_group subjectMatch with
    | Some m1 => trim (replace_all re_esc_quote [DQ] m1)
    | None => subject
    end in
  let bodyMatch := match1 (re_key (u "body")) response in
  match truthy_group bodyMatch with
  | Some m1 =>
      let body :=
        trim (replace_all re_esc_quote [DQ] (replace_all re_esc_n [LF] m1)) in
      mkEmail subject body
  | None =>
      let lines := filter nonblank (split_lf response) in
      let subjectLineIndex := findIndex is_subject_line lines in
      let (subject, body) :=
        match subjectLineIndex with
        | Some i =>
            let subjectLine := nth i lines [] in
            (trim (replace_first re_subject_prefix [] subjectLine),
             trim (join [LF] (splice1 i lines)))
        | None => (subject, body)
        end in
      let body := replace_all re_braces [] (replace_all re_quotes [] body) in
      mkEmail subject body
  end.

(** Lines 161 to 255, from the completion text to the returned pair. *)
Definition normalize (content : jsstring) : outcome GeneratedEmail :=
  let response := trim content in
  let response := strip_fences response in
  let response := brace_bound response in
  try_catch (parse_branch response)
            (fun parseError => Return (manual_extraction response)).

End AIService.

(** ** services/emailService.js *)

Module EmailService.

(** *** The transport: await points as nodes of an interaction tree *)

Record TransportError : Type := mkTransportError {
  code : option jsstring;
  message : jsstring
}.

Record MailOptions : Type := mkMail {
  from : jsstring;
  to : jsstring;
  subject : jsstring;
  html : jsstring;
  text : jsstring
}.

Record SentInfo : Type := mkInfo { messageId : jsstring }.

(** A computation that awaits [transporter.verify()] and
    [transporter.sendMail(mailOptions)]; a rejected promise hands the error
    to the continuation. *)
Inductive io (A : Type) : Type :=
| Ret : A -> io A
| Verify : (option TransportError -> io A) -> io A
| SendMail : MailOptions -> (TransportError + SentInfo -> io A) -> io A.
Arguments Ret {A}.
Arguments Verify {A}.
Arguments SendMail {A}.

Inductive call : Type :=
| CVerify : call
| CSendMail : MailOptions -> call.

(** A transport with a state of type [T]. *)
Record Transport (T : Type) : Type := mkTransport {
  verify : T -> option TransportError * T;
  sendMail : MailOptions -> T -> (TransportError + SentInfo) * T
}.

(** Running a computation against a transport: the result, the calls made in
    order and the final state of the transport. *)
Fixpoint run (T A : Type) (tr : Transport T) (m : io A) (st : T)
  : A * list call * T :=
  match m with
  | Ret a => (a, [], st)
  | Verify k =>
      let (r, st1) := verify tr st in
      let '(a, calls, st2) := run tr (k r) st1 in
      (a, CVerify :: calls, st2)
  | SendMail mail k =>
      let (r, st1) := sendMail tr mail st in
      let '(a, calls, st2) := run tr (k r) st1 in
      (a, CSendMail mail :: calls, st2)
  end.

(** *** Configuration *)

(** [process.env]; [None] is an unset variable. *)
Record Env : Type := mkEnv {
  EMAIL_HOST : option jsstring;
  EMAIL_USER : option jsstring;
  EMAIL_PASS : option jsstring
}.

Definition unset (v : option jsstring) : bool :=
  match v with
  | Some (_ :: _) => false
  | _ => true
  end.

(** The options [nodemailer.createTransport] receives; the port and the TLS
    settings take no part in what follows. *)
Record Transporter : Type := mkTransporter {
  host : jsstring;
  user : jsstring;
  pass : jsstring
}.

(** [createTransporter()]; [None] is null. *)
Definition createTransporter (env : Env) : option Transporter :=
  if unset (EMAIL_HOST env) || unset (EMAIL_USER env) || unset (EMAIL_PASS env)
  then None
  else match EMAIL_HOST env, EMAIL_USER env, EMAIL_PASS env with
       | Some h, Some usr, Some p => Some (mkTransporter h usr p)
       | _, _, _ => None
       end.

(** A value of [process.env] inside a template literal. *)
Definition env_text (v : option jsstring) : jsstring :=
  match v with
  | Some s => s
  | None => u "undefined"
  end.

(** *** Validation *)

Definition addr_char (c : N) : bool := negb (is_ws c) && negb (N.eqb c 64).

Definition Plus (r : regex) : regex := Cat r (Star r).

(** /^[^\s@]+@[^\s@]+\.[^\s@]+$/ *)
Definition emailRegex : regex :=
  Cat Bol
 (Cat (Plus (Chr addr_char))
 (Cat (Chr (ch 64))
 (Cat (Plus (Chr addr_char))
 (Cat (Chr (ch 46))
 (Cat (Plus (Chr addr_char)) Eol))))).

Definition validateEmail (email : jsstring) : bool := test emailRegex email.

Fixpoint uint_units (d : Decimal.uint) : jsstring :=
  match d with
  | Decimal.Nil => []
  | Decimal.D0 d' => 48%N :: uint_units d'
  | Decimal.D1 d' => 49%N :: uint_units d'
  | Decimal.D2 d' => 50%N :: uint_units d'
  | Decimal.D3 d' => 51%N :: uint_units d'
  | Decimal.D4 d' => 52%N :: uint_units d'
  | Decimal.D5 d' => 53%N :: uint_units d'
  | Decimal.D6 d' => 54%N :: uint_units d'
  | Decimal.D7 d' => 55%N :: uint_units d'
  | Decimal.D8 d' => 56%N :: uint_units d'
  | Decimal.D9 d' => 57%N :: uint_units d'
  end.

(** An array index inside a template literal: its decimal digits. *)
Definition index_text (n : nat) : jsstring := uint_units (Nat.to_uint n).

Record Validation : Type := mkValidation {
  validEmails : list jsstring;
  errors : list jsstring
}.

(** What one entry of the list contributes. *)
Inductive verdict : Type :=
| Valid : jsstring -> verdict         (* pushed on validEmails *)
| Invalid : jsstring -> verdict.      (* pushed on errors *)

Definition check (index : nat) (email : jsstring) : verdict :=
  let trimmedEmail := trim email in
  match trimmedEmail with
  | [] => Invalid (u "Email at position " ++ index_text (index + 1)
                   ++ u " is empty")
  | _ :: _ =>
      if negb (validateEmail trimmedEmail)
      then Invalid (u "Invalid email format: " ++ trimmedEmail)
      else Valid trimmedEmail
  end.

(** The forEach loop of validateEmailList from index [index] on. *)
Fixpoint validate_from (index : nat) (emails : list jsstring)
    (acc : Validation) : Validation :=
  match emails with
  | [] => acc
  | email :: emails' =>
      validate_from (S index) emails'
        match check index email with
        | Valid e => mkValidation (validEmails acc ++ [e]) (errors acc)
        | Invalid msg => mkValidation (validEmails acc) (errors acc ++ [msg])
        end
  end.

Definition validateEmailList (emails : list jsstring) : Validation :=
  validate_from 0 emails (mkValidation [] []).

(** *** Rendering *)

(** /<[^>]*>/g *)
Definition re_tag : regex :=
  Cat (Chr (ch 60)) (Cat (Star (Chr (nch 62))) (Chr (ch 62))).

Definition nbsp : jsstring := u "&nbsp;".

Definition stripHtml (html : jsstring) : jsstring :=
  replace_all (lit nbsp) [SP] (replace_all re_tag [] html).

Definition p_open : jsstring := u "<p>".
Definition p_close : jsstring := u "</p>".
Definition br : jsstring := u "<br>".

(** Lines 182 to 187: plain text to HTML. *)
Definition to_html (emailBody : jsstring) : jsstring :=
  replace_all (lit (p_open ++ p_close)) []
    (replace_first Eol p_close
      (replace_first Bol p_open
        (replace_all (lit [LF]) br
          (replace_all (lit [LF; LF]) (p_close ++ p_open) emailBody)))).

Section FormatEmailBody.

(** Whether a number lexeme denotes zero as a Number: floating-point
    rounding decides it for lexemes that underflow. *)
Variable number_is_zero : jsstring -> bool.

(** ToBoolean of a property value; [None] is undefined. *)
Definition truthy (v : option json) : bool :=
  match v with
  | None => false
  | Some JNull => false
  | Some (JBool b) => b
  | Some (JNum n) => negb (number_is_zero n)
  | Some (JStr s) => match s with [] => false | _ :: _ => true end
  | Some (JArr _) => true
  | Some (JObj _) => true
  end.

(** Lines 159 to 166, the body of the inner try statement.  The logging call
    evaluates [emailBody?.substring(0, 100)], which throws a TypeError when
    [parsed.body] is truthy and not a string. *)
Definition parsed_body (body emailBody : jsstring) : outcome jsstring :=
  parsed <- parse_json body ;;
  pbody <- get_prop parsed (u "body") ;;
  if truthy pbody then
    match pbody with
    | Some (JStr s) => Return s
    | _ => Throw TypeError
    end
  else
    psubject <- get_prop parsed (u "subject") ;;
    if truthy psubject && match pbody with None => true | Some _ => false end
    then Return (u "Error: Parsed email missing body content")
    else Return emailBody.

(** Lines 131 to 142: the body still holds the whole envelope. *)
Definition emergency (body : jsstring) : jsstring :=
  if includes body (quoted "subject") && includes body (quoted "body") then
    match truthy_group (match1 (re_key (u "body")) body) with
    | Some m1 => replace_all re_esc_quote [DQ] (replace_all re_esc_n [LF] m1)
    | None => body
    end
  else body.

Definition looks_like_json (body : jsstring) : bool :=
  startsWith (trim body) [LBRACE] && endsWith (trim body) [RBRACE].

(** [formatEmailBody(body)] for a string [body]. *)
Definition formatEmailBody (body : jsstring) : jsstring :=
  let emailBody := emergency body in
  let emailBody :=
    if looks_like_json body then
      match parsed_body body emailBody with
      | Return b => b
      | Throw e =>
          replace_all re_esc_n [LF] (replace_all re_quotes [] body)
      end
    else emailBody in
  to_html emailBody.

(** *** sendEmail *)

Record Sent : Type := mkSent {
  sent_email : jsstring;
  status : jsstring;
  sent_messageId : jsstring
}.

Record Failure : Type := mkFailure {
  failed_email : jsstring;
  error : jsstring
}.

Record Report : Type := mkReport {
  success : bool;
  totalRecipients : nat;
  successful : nat;
  failed : nat;
  results : list Sent;
  failures : list Failure
}.

Record Request : Type := mkRequest {
  recipients : list jsstring;
  req_subject : jsstring;
  req_body : jsstring;
  senderName : option jsstring
}.

Definition default_senderName : jsstring := u "Email Sender App".

(** Lines 77 to 83. *)
Definition mailOptions (env : Env) (req : Request) (email : jsstring)
  : MailOptions :=
  let senderName := match senderName req with
                    | Some n => n
                    | None => default_senderName
                    end in
  mkMail ([DQ] ++ senderName ++ [DQ] ++ u " <" ++ env_text (EMAIL_USER env)
          ++ u ">")
         email
         (req_subject req)
         (formatEmailBody (req_body req))
         (stripHtml (req_body req)).

(** Lines 75 to 107: the loop over the valid addresses and the report. *)
Fixpoint send_loop (env : Env) (req : Request) (total : nat)
    (todo : list jsstring) (results : list Sent) (failedEmails : list Failure)
  : io (outcome Report) :=
  match todo with
  | [] =>
      Ret (Return (mkReport true total (List.length results)
                            (List.length failedEmails) results failedEmails))
  | email :: todo' =>
      SendMail (mailOptions env req email) (fun r =>
        match r with
        | inr info =>
            send_loop env req total todo'
              (results ++ [mkSent email (u "sent") (messageId info)])
              failedEmails
        | inl emailError =>
            send_loop env req total todo' results
              (failedEmails ++ [mkFailure email (message emailError)])
        end)
  end.

(** Lines 109 to 121: the handler of the outer catch clause. *)
Definition service_error (e : TransportError) : exn :=
  match code e with
  | Some c =>
      if str_eqb c (u "EAUTH") then
        Error (u "Email authentication failed. Please check your email credentials.")
      else if str_eqb c (u "ECONNECTION") then
        Error (u "Failed to connect to email server. Please check your network connection.")
      else Error (u "Email sending failed: " ++ message e)
  | None => Error (u "Email sending failed: " ++ message e)
  end.

Definition sendEmail (env : Env) (req : Request) : io (outcome Report) :=
  match createTransporter env with
  | None =>
      Ret (Throw (Error (u "Email service is not configured. Please check your environment variables.")))
  | Some transporter =>
      let v := validateEmailList (recipients req) in
      if (0 <? List.length (errors v))%nat then
        Ret (Throw (Error (u "Email validation failed: "
                           ++ join (u ", ") (errors v))))
      else if (List.length (validEmails v) =? 0)%nat then
        Ret (Throw (Error (u "No valid recipients found")))
      else
        Verify (fun r =>
          match r with
          | Some e => Ret (Throw (service_error e))
          | None =>
              send_loop env req (List.length (validEmails v)) (validEmails v)
                        [] []
          end)
  end.

(** The two renderings of a body that a message carries. *)
Definition render (body : jsstring) : jsstring * jsstring :=
  (formatEmailBody body, stripHtml body).

End FormatEmailBody.

(** *** A transport that replays a script, for the examples *)

Record Script : Type := mkScript {
  verify_reply : option TransportError;
  replies : list (TransportError + SentInfo)
}.

Definition scripted : Transport Script :=
  mkTransport
    (fun st => (verify_reply st, st))
    (fun mail st =>
       match replies st with
       | r :: rs => (r, mkScript (verify_reply st) rs)
       | [] => (inl (mkTransportError None (u "no reply left")), st)
       end).

(** The entry does not pass validateEmailList. *)
Definition rejected (email : jsstring) : bool :=
  match trim email with
  | [] => true
  | c :: t => negb (validateEmail (c :: t))
  end.

(** *** Data for the examples *)

(** An instance of [number_is_zero]: the lexemes whose mantissa has no digit
    but zero (a lexeme that rounds to zero by underflow is not recognised). *)
Fixpoint zero_mantissa (n : jsstring) : bool :=
  match n with
  | [] => true
  | c :: n' =>
      if N.eqb c 101 || N.eqb c 69 then true
      else if is_digit c && negb (N.eqb c 48) then false
      else zero_mantissa n'
  end.

Definition example_env : Env :=
  mkEnv (Some (u "smtp.example.com")) (Some (u "me@example.com"))
        (Some (u "secret")).

Definition example_request (recipients : list jsstring) : Request :=
  mkRequest recipients (u "Greetings") (u "Hello there, friend.") None.

(** The first delivery is rejected, the second accepted. *)
Definition example_script : Script :=
  mkScript None
    [inl (mkTransportError (Some (u "EENVELOPE")) (u "Mailbox unavailable"));
     inr (mkInfo (u "<1@example.com>"))].

Definition example_report : Report :=
  mkReport true 2 1 1
    [mkSent (u "b@y.org") (u "sent") (u "<1@example.com>")]
    [mkFailure (u "a@x.com") (u "Mailbox unavailable")].

End EmailService.

(** ** services/emailService.js: testConnection *)

Module EmailServiceMore.
Import EmailService.

Record ConnectionStatus : Type := mkStatus {
  status_success : bool;
  status_message : jsstring
}.

(** Lines 195 to 206. *)
Definition testConnection (env : Env) : io (outcome ConnectionStatus) :=
  match createTransporter env with
  | None => Ret (Throw (Error (u "Email service is not configured")))
  | Some transporter =>
      Verify (fun r =>
        match r with
        | None =>
            Ret (Return (mkStatus true
                           (u "Email service connection successful")))
        | Some e =>
            Ret (Throw (Error (u "Email service connection failed: "
                               ++ message e)))
        end)
  end.

End EmailServiceMore.

(** ** The AI service: constructor, the whole of generateEmail, improveEmail *)

Module AIServiceMore.
Import AIService.

(** What a rejected completion request carries. *)
Record ProviderError : Type := mkProviderError {
  code : option jsstring;
  message : jsstring
}.

(** What a fulfilled completion request holds where line 161 reads
    [completion.choices[0].message.content]. *)
Inductive Completion : Type :=
| NoChoice : Completion              (* [choices] is empty *)
| NoMessage : Completion             (* the first choice has no message *)
| NoContent : Completion             (* the content is no string: null *)
| Content : jsstring -> Completion.

Record Client : Type := mkClient {
  baseURL : option jsstring;          (* [None] is undefined *)
  isGroq : bool;
  modelName : jsstring
}.

(** Lines 106 to 121: the constructor, from the value of OPENAI_API_KEY. *)
Definition construct (OPENAI_API_KEY : option jsstring) : outcome Client :=
  match OPENAI_API_KEY with
  | Some (c :: key) =>
      let isGroqKey := startsWith (c :: key) (u "gsk_") in
      Return (mkClient
                (if isGroqKey then Some (u "https://api.groq.com/openai/v1")
                 else None)
                isGroqKey
                (if isGroqKey then u "llama3-8b-8192" else u "gpt-3.5-turbo"))
  | _ => Throw (Error (u "AI API key is required (OPENAI_API_KEY)"))
  end.

Definition provider (client : Client) : jsstring :=
  if isGroq client then u "Groq" else u "OpenAI".

Definition code_is (c : option jsstring) (name : jsstring) : bool :=
  match c with
  | Some s => str_eqb s name
  | None => false
  end.

Section Engine.

(** The message of an error object the engine creates (SyntaxError,
    TypeError): its text is the engine's own. *)
Variable engine_message : exn -> jsstring.

Definition error_message (e : exn) : jsstring :=
  match e with
  | Error m => m
  | _ => engine_message e
  end.

(** Lines 256 to 268: the handler of the outer catch clause of
    generateEmail, for an error of the completion request. *)
Definition generate_error (client : Client) (e : ProviderError) : exn :=
  if code_is (code e) (u "insufficient_quota") then
    Error (provider client ++ u " API quota exceeded. Please check your billing.")
  else if code_is (code e) (u "invalid_api_key") then
    Error (u "Invalid " ++ provider client
           ++ u " API key. Please check your configuration.")
  else Error (u "Failed to generate email: " ++ message e).

(** The message of the TypeError that line 161 throws when the fulfilled
    request holds no text: the engine's own. *)
Variable read_error : Completion -> jsstring.

(** Lines 151 to 268: generateEmail from the settled completion request on,
    [inl] a rejection, [inr] what the fulfilled request holds.  Line 161
    reads the text inside the try statement of line 124, so whatever is
    thrown from there on reaches the catch clause of line 256, as an error
    without a code. *)
Definition generateEmail (client : Client)
    (completion : ProviderError + Completion) : outcome GeneratedEmail :=
  match completion with
  | inl e => Throw (generate_error client e)
  | inr (Content content) =>
      try_catch (normalize content)
        (fun error =>
           Throw (generate_error client
                    (mkProviderError None (error_message error))))
  | inr missing =>
      Throw (generate_error client
               (mkProviderError None (read_error missing)))
  end.

(** *** improveEmail *)

Variable number_is_zero : jsstring -> bool.

(** The improved email: its fields are whatever values the completion
    held. *)
Record Improved : Type := mkImproved {
  improved_subject : json;
  improved_body : json
}.

(** [v || d] *)
Definition or_else (v : option json) (d : json) : json :=
  match v with
  | Some w => if EmailService.truthy number_is_zero v then w else d
  | None => d
  end.

(** Lines 303 to 314: [response] parsed, or taken as it is. *)
Definition improved_of (originalSubject response : jsstring) : Improved :=
  match
    (parsed <- parse_json response ;;
     parsed_subject <- get_prop parsed (u "subject") ;;
     parsed_body <- get_prop parsed (u "body") ;;
     Return (mkImproved (or_else parsed_subject (JStr originalSubject))
                        (or_else parsed_body (JStr response))))
  with
  | Return r => r
  | Throw parseError => mkImproved (JStr originalSubject) (JStr response)
  end.

(** Lines 291 to 318: improveEmail from the settled completion request
    on. *)
Definition improveEmail (originalSubject : jsstring)
    (completion : ProviderError + jsstring) : outcome Improved :=
  match completion with
  | inl e => Throw (Error (u "Failed to improve email: " ++ message e))
  | inr response => Return (improved_of originalSubject response)
  end.

End Engine.

End AIServiceMore.

(** ** routes/email.js: the status route *)

Module Routes.

(** /(.{3}).*@/ *)
Definition re_mask : regex :=
  Cat (Grp (Cat (Chr dot) (Cat (Chr dot) (Chr dot))))
      (Cat (Star (Chr dot)) (Chr (ch 64))).

(** [s.replace(r, '$1' + post)] for a pattern with one group and without the
    [g] flag: the leftmost match gives way to group 1 and [post]. *)
Definition replace_first_group (r : regex) (post s : jsstring) : jsstring :=
  match exec r s with
  | Some (i, n, c) =>
      firstn i s ++ match c with Some g => g | None => [] end ++ post
      ++ skipn (i + n) s
  | None => s
  end.

(** Line 434 of the file of the email service and its routes: the user name
    as the status route shows it. *)
Definition shown_user (EMAIL_USER : option jsstring) : jsstring :=
  match EMAIL_USER with
  | Some (c :: s) => replace_first_group re_mask (u "***@") (c :: s)
  | _ => u "Not configured"
  end.

(** The value is truthy: set and not empty. *)
Definition set_env (v : option jsstring) : bool := negb (EmailService.unset v).

(** Lines 425 and 426 of the file of the email service and its routes. *)
Definition isConfigured (env : EmailService.Env) : bool :=
  set_env (EmailService.EMAIL_HOST env)
  && set_env (EmailService.EMAIL_USER env)
  && set_env (EmailService.EMAIL_PASS env).

Definition isAIConfigured (OPENAI_API_KEY : option jsstring) : bool :=
  set_env OPENAI_API_KEY.

(** Line 438: the provider the status route names. *)
Definition status_provider (OPENAI_API_KEY : option jsstring) : jsstring :=
  match OPENAI_API_KEY with
  | Some (c :: key) =>
      if startsWith (c :: key) (u "gsk_") then u "Groq" else u "OpenAI"
  | _ => u "OpenAI"
  end.

End Routes.

(** ** Specification-level notions

    What the specification says in words, stated without the matcher, to be
    compared with what the services compute. *)

(** [replaced p r s out]: [out] is [s] with each occurrence of the text [p],
    found from left to right, replaced by [r]. *)
Inductive replaced (p r : jsstring) : jsstring -> jsstring -> Prop :=
| replaced_nil : replaced p r [] []
| replaced_hit : forall s out,
    replaced p r s out -> replaced p r (p ++ s) (r ++ out)
| replaced_miss : forall c s out,
    startsWith (c :: s) p = false ->
    replaced p r s out -> replaced p r (c :: s) (c :: out).

Definition LT : N := 60.
Definition GT : N := 62.

Definition has_gt (s : jsstring) : bool := existsb (N.eqb GT) s.

(** [stripped s out]: [out] is [s] without its markup tags, a tag being a
    [<], the code units up to the next [>], and that [>]. *)
Inductive stripped : jsstring -> jsstring -> Prop :=
| stripped_nil : stripped [] []
| stripped_tag : forall inner s out,
    has_gt inner = false ->
    stripped s out -> stripped (LT :: inner ++ GT :: s) out
| stripped_open : forall s out,
    has_gt s = false ->
    stripped s out -> stripped (LT :: s) (LT :: out)
| stripped_other : forall c s out,
    N.eqb c LT = false ->
    stripped s out -> stripped (c :: s) (c :: out).

(** No [<] with a [>] somewhere after it: no tag is left. *)
Fixpoint tagfree (s : jsstring) : bool :=
  match s with
  | [] => true
  | c :: t => (negb (N.eqb c LT) || negb (has_gt t)) && tagfree t
  end.

(** Equality up to white space. *)
Definition strip_ws (s : jsstring) : jsstring :=
  filter (fun c => negb (is_ws c)) s.

Definition eq_mod_ws (a b : jsstring) : Prop := strip_ws a = strip_ws b.

(** A body on which the renderer finds nothing to re-normalise: it does not
    show both JSON keys and is not wrapped in braces. *)
Definition normalized (body : jsstring) : bool :=
  negb (includes body (quoted "subject") && includes body (quoted "body"))
  && negb (EmailService.looks_like_json body).

(** The example body of the specification. *)
Definition two_paragraphs : jsstring :=
  u "Para one." ++ [LF; LF] ++ u "Para two.".

(** The text the completion post-processing works on: the completion
    trimmed, without fences, bounded by its braces. *)
Definition bounded (content : jsstring) : jsstring :=
  AIService.brace_bound (AIService.strip_fences (trim content)).


(** The text of an envelope whose two string literals have the contents [s]
    and [b], escapes included. *)
Definition envelope (s b : jsstring) : jsstring :=
  u "{" ++ quoted "subject" ++ u ":" ++ [DQ] ++ s ++ [DQ] ++ u ","
  ++ quoted "body" ++ u ":" ++ [DQ] ++ b ++ [DQ] ++ u "}".

(** The text of the example: a subject line, then the lines [ls]. *)
Definition subject_hello_then (ls : list jsstring) : jsstring :=
  join [LF] (u "Subject: Hello" :: ls).

(** A completion whose first line holds subject: and whose later line holds
    braces. *)
Definition subject_then_braces : jsstring :=
  u "Subject: Hello" ++ [LF] ++ u "Dear {name}," ++ [LF] ++ u "Bye".



(** A subject line, then a line that starts with an apostrophe. *)
Definition subject_then_apostrophe : jsstring :=
  u "Subject: Hello" ++ [LF] ++ [SQ] ++ u "Tis the season".

(** The envelope with subject Hi and body Line1, backslash, n, Line2. *)
Definition envelope_hi : jsstring := envelope (u "Hi") (u "Line1\nLine2").

Definition envelope_fenced : jsstring :=
  u "```json" ++ [LF] ++ envelope (u "S") (u "B") ++ [LF] ++ u "```".

(** An envelope whose subject ends with an apostrophe. *)
Definition envelope_plan : jsstring := envelope (u "Re: 'Plan'") (u "B").


(** The state after the code units [a] have been consumed from [x]. *)
Definition advance (x : mstate) (a : jsstring) : mstate :=
  MState (pos x + List.length a) (skipn (List.length a) (rest x)) (cap x).

(** A text without one leading quote character, and without one trailing
    quote character. *)
Definition strip_start (s : jsstring) : jsstring :=
  match s with
  | c :: t => if is_quote c then t else s
  | [] => []
  end.

Fixpoint strip_end (s : jsstring) : jsstring :=
  match s with
  | [] => []
  | [c] => if is_quote c then [] else [c]
  | c :: t => c :: strip_end t
  end.

(** No code unit of the text is white space. *)
Definition no_ws (s : jsstring) : bool := forallb (fun c => negb (is_ws c)) s.

(** The text holds the code unit. *)
Definition has (c : N) (s : jsstring) : bool := existsb (N.eqb c) s.

(** A brace. *)
Definition is_brace (c : N) : bool := N.eqb c LBRACE || N.eqb c RBRACE.

(** The number a text of decimal digits denotes, from the accumulator
    [acc]; [None] when a code unit is no digit. *)
Fixpoint digits_value (s : jsstring) (acc : nat) : option nat :=
  match s with
  | [] => Some acc
  | c :: t =>
      if is_digit c then digits_value t (10 * acc + N.to_nat (c - 48))
      else None
  end.

(** [d] is the decimal numeral of [n]: digits that denote [n], the first
    of them a zero only when it is the only one. *)
Definition decimal (d : jsstring) (n : nat) : Prop :=
  digits_value d 0 = Some n /\
  match d with
  | [] => False
  | c :: t => c <> 48%N \/ t = []
  end.

(** The error an entry of the recipient list gives rise to: for a blank
    entry it tells the position, counted from one; for another entry it
    quotes the trimmed text. *)
Definition entry_error (m : jsstring) (index : nat) (email : jsstring)
  : Prop :=
  match trim email with
  | [] => exists d, decimal d (index + 1) /\
                    m = u "Email at position " ++ d ++ u " is empty"
  | c :: t => m = u "Invalid email format: " ++ c :: t
  end.

(** The message names the entry at [index]: it holds the error of that
    entry. *)
Definition names_entry (msg : jsstring) (index : nat) (email : jsstring)
  : Prop :=
  exists m, entry_error m index email /\ includes msg m = true.

(** An environment without a password. *)
Definition env_no_pass : EmailService.Env :=
  EmailService.mkEnv (Some (u "smtp.example.com")) (Some (u "me@example.com"))
                     None.

(** The entry passes validateEmailList. *)
Definition accepted (email : jsstring) : bool :=
  negb (EmailService.rejected email).

(** A code unit of prose: no brace, backtick, double quote or backslash. *)
Definition prose_unit (c : N) : bool :=
  negb (N.eqb c LBRACE || N.eqb c RBRACE || N.eqb c 96 || N.eqb c DQ
        || N.eqb c BSL).

(** * Properties *)

Unset Implicit Arguments.

(** ** Strings *)

Lemma startsWith_app (p b : jsstring) : startsWith (p ++ b) p = true.
Proof.
  induction p as [|c p IH]; simpl; [reflexivity|].
  now rewrite N.eqb_refl, IH.
Qed.

Lemma startsWith_split (s p : jsstring) :
  startsWith s p = true -> exists b, s = p ++ b.
Proof.
  revert s; induction p as [|c p IH]; intros s H.
  - now exists s.
  - destruct s as [|d s]; simpl in H; [discriminate|].
    apply andb_true_iff in H as [Hc Hp].
    apply N.eqb_eq in Hc; subst d.
    destruct (IH _ Hp) as [b ->]. now exists b.
Qed.

Lemma includes_startsWith (s p : jsstring) :
  startsWith s p = true -> includes s p = true.
Proof. intros H. destruct s; simpl; now rewrite H. Qed.

Lemma includes_app (a p b : jsstring) : includes (a ++ p ++ b) p = true.
Proof.
  induction a as [|c a IH]; simpl.
  - apply includes_startsWith, startsWith_app.
  - rewrite IH. apply orb_true_r.
Qed.

Lemma includes_split (s p : jsstring) :
  includes s p = true -> exists a b, s = a ++ p ++ b.
Proof.
  induction s as [|c s IH]; simpl; intros H.
  - rewrite orb_false_r in H.
    destruct (startsWith_split _ _ H) as [b E]. now exists [], b.
  - apply orb_true_iff in H as [H|H].
    + destruct (startsWith_split _ _ H) as [b E]. now exists [], b.
    + destruct (IH H) as (a & b & ->). now exists (c :: a), b.
Qed.

Lemma includes_trans (s m p : jsstring) :
  includes s m = true -> includes m p = true -> includes s p = true.
Proof.
  intros H1 H2.
  destruct (includes_split _ _ H1) as (a & b & ->).
  destruct (includes_split _ _ H2) as (a' & b' & ->).
  replace (a ++ (a' ++ p ++ b') ++ b) with ((a ++ a') ++ p ++ (b' ++ b))
    by now rewrite <- !app_assoc.
  apply includes_app.
Qed.

Lemma includes_join (sep m : jsstring) (l : list jsstring) :
  In m l -> includes (join sep l) m = true.
Proof.
  induction l as [|x l IH]; intros H; [destruct H|].
  destruct H as [->|H].
  - destruct l as [|y l]; simpl.
    + rewrite <- (app_nil_r m) at 1. apply (includes_app [] m []).
    + apply (includes_app [] m (sep ++ join sep (y :: l))).
  - specialize (IH H).
    destruct l as [|y l]; [destruct H|].
    destruct (includes_split _ _ IH) as (a & b & E).
    change (join sep (x :: y :: l)) with (x ++ sep ++ join sep (y :: l)).
    rewrite E.
    replace (x ++ sep ++ a ++ m ++ b) with ((x ++ sep ++ a) ++ m ++ b)
      by now rewrite <- !app_assoc.
    apply includes_app.
Qed.

Lemma includes_cons c s p :
  includes (c :: s) p = startsWith (c :: s) p || includes s p.
Proof. reflexivity. Qed.

Lemma includes_suffix a b p :
  includes (a ++ b) p = false -> startsWith b p = false.
Proof.
  induction a as [|c a IH]; cbn [app].
  - destruct b; cbn [includes]; intros H;
      now apply orb_false_iff in H as [H _].
  - rewrite includes_cons. intros H. apply orb_false_iff in H as [_ H].
    now apply IH.
Qed.

(** ** JSON.parse *)

Lemma skip_ws_length s : List.length (skip_ws s) <= List.length s.
Proof.
  induction s as [|c s IH]; cbn [skip_ws]; [lia|].
  destruct (json_ws c); cbn [List.length]; lia.
Qed.

Lemma parse_chars_length : forall s v r,
  parse_chars s = Some (v, r) -> List.length r < List.length s.
Proof.
  assert (Hc : forall c o v r n,
             (forall v r, o = Some (v, r) -> List.length r < n) ->
             cons_char c o = Some (v, r) -> List.length r < n).
  { intros c [[v' r']|] v r n H E; [|discriminate].
    injection E as _ <-. now apply (H v'). }
  intros s. remember (List.length s) as n eqn:En.
  revert s En. induction n as [n IH] using lt_wf_ind. intros s En v r.
  destruct s as [|c t]; [discriminate|].
  cbn [parse_chars]. cbn [List.length] in En.
  destruct (N.eqb c DQ).
  { intros E. injection E as _ <-. lia. }
  destruct (N.eqb c BSL).
  - destruct t as [|e t']; [discriminate|]. cbn [List.length] in En.
    assert (Ht' : forall v r, parse_chars t' = Some (v, r) ->
                              List.length r < n).
    { intros v' r' E. apply (IH (List.length t')) in E; trivial; lia. }
    repeat match goal with
           | |- context [if ?b then _ else _] => destruct b
           end; try (apply Hc; exact Ht'); try discriminate.
    destruct t' as [|h1 [|h2 [|h3 [|h4 t'']]]]; try discriminate.
    destruct (hex4 h1 h2 h3 h4); [|discriminate].
    apply Hc. intros v' r' E. cbn [List.length] in En.
    apply (IH (List.length t'')) in E; trivial; lia.
  - destruct (c <? 32)%N; [discriminate|].
    apply Hc. intros v' r' E.
    apply (IH (List.length t)) in E; trivial; lia.
Qed.

Lemma span_digits_length s d r :
  span_digits s = (d, r) -> List.length r <= List.length s.
Proof.
  revert d r. induction s as [|c s IH]; intros d r; cbn [span_digits].
  - intros E. injection E as _ <-. cbn; lia.
  - destruct (is_digit c).
    + destruct (span_digits s) as [d' r'] eqn:E'. intros E.
      injection E as _ <-. specialize (IH _ _ eq_refl). cbn; lia.
    + intros E. injection E as _ <-. lia.
Qed.

Lemma lex_number_length s n r :
  lex_number s = Some (n, r) -> List.length r < List.length s.
Proof.
  unfold lex_number.
  set (p := match s with
            | [] => ([], s)
            | c :: t => if N.eqb c 45 then ([c], t) else ([], s)
            end).
  assert (Hp : List.length (snd p) <= List.length s).
  { subst p. destruct s as [|c t]; cbn; [lia|].
    destruct (N.eqb c 45); cbn; lia. }
  destruct p as [sign s1]. cbn [snd] in Hp.
  destruct s1 as [|c t]; [discriminate|]. cbn [List.length] in Hp.
  destruct (negb (is_digit c)); [discriminate|].
  set (q := if N.eqb c 48 then ([c], t)
            else let (d, r0) := span_digits t in (c :: d, r0)).
  assert (Hq : List.length (snd q) <= List.length t).
  { subst q. destruct (N.eqb c 48); cbn [snd]; [lia|].
    destruct (span_digits t) as [d r0] eqn:E. cbn [snd].
    now apply span_digits_length in E. }
  destruct q as [int s2]. cbn [snd] in Hq.
  set (fr := match s2 with
             | [] => (Some [], s2)
             | p0 :: t2 =>
                 if N.eqb p0 46
                 then match span_digits t2 with
                      | ([], _) => (None, s2)
                      | (d :: ds, r0) => (Some (p0 :: d :: ds), r0)
                      end
                 else (Some [], s2)
             end).
  assert (Hfr : List.length (snd fr) <= List.length s2).
  { subst fr. destruct s2 as [|p0 t2]; cbn [snd]; [lia|].
    destruct (N.eqb p0 46); cbn [snd]; [|lia].
    destruct (span_digits t2) as [[|d ds] r0] eqn:E; cbn [snd]; [lia|].
    apply span_digits_length in E. cbn; lia. }
  destruct fr as [[frac|] s3]; [|discriminate]. cbn [snd] in Hfr.
  destruct s3 as [|e t3].
  { intros E. injection E as _ <-. cbn in *; lia. }
  destruct (N.eqb e 101 || N.eqb e 69).
  - set (es := match t3 with
               | [] => ([], t3)
               | g :: t3' => if N.eqb g 43 || N.eqb g 45 then ([g], t3')
                             else ([], t3)
               end).
    assert (Hes : List.length (snd es) <= List.length t3).
    { subst es. destruct t3 as [|g t3']; cbn [snd]; [lia|].
      destruct (N.eqb g 43 || N.eqb g 45); cbn; lia. }
    destruct es as [esign t4]. cbn [snd] in Hes.
    destruct (span_digits t4) as [[|d ds] r0] eqn:E; [discriminate|].
    apply span_digits_length in E.
    intros E'. injection E' as _ <-. cbn [List.length] in *. lia.
  - intros E. injection E as _ <-. cbn [List.length] in *. lia.
Qed.

Lemma parse_literal_length w v s x r :
  w <> [] -> parse_literal w v s = POk x r -> List.length r < List.length s.
Proof.
  unfold parse_literal. intros Hw. destruct (startsWith s w) eqn:E; [|discriminate].
  intros H. injection H as _ <-.
  destruct (startsWith_split _ _ E) as [b ->].
  rewrite skipn_app, skipn_all, Nat.sub_diag. cbn [skipn app].
  rewrite length_app.
  destruct w as [|x0 w]; [now destruct Hw|]. cbn [List.length]. lia.
Qed.

(** With a budget of twice the length of the input and one more, no parsing
    function runs out of budget, and each one consumes input. *)
Lemma parse_fuel : forall f,
  (forall s, 2 * List.length s + 1 <= f ->
     parse_value f s <> PFuel /\
     forall v r, parse_value f s = POk v r -> List.length r < List.length s) /\
  (forall s, 2 * List.length s + 1 <= f ->
     parse_members f s <> PFuel /\
     forall v r, parse_members f s = POk v r -> List.length r < List.length s) /\
  (forall s, 2 * List.length s + 2 <= f ->
     parse_elements f s <> PFuel /\
     forall v r, parse_elements f s = POk v r -> List.length r < List.length s).
Proof.
  induction f as [|f (IHv & IHm & IHe)].
  { repeat split; intros; lia. }
  split; [|split]; intros s Hf.
  - destruct s as [|c t]; [split; discriminate|].
    cbn [List.length] in Hf. cbn [parse_value].
    destruct (N.eqb c LBRACE).
    { pose proof (skip_ws_length t) as Hw.
      destruct (skip_ws t) as [|d t'] eqn:E; [split; discriminate|].
      cbn [List.length] in Hw.
      destruct (N.eqb d RBRACE).
      { split; [discriminate|]. intros v r H. injection H as _ <-.
        cbn [List.length]. lia. }
      destruct (IHm (d :: t')) as [Hm1 Hm2]; [cbn [List.length]; lia|].
      destruct (parse_members f (d :: t')) as [m r| |]; [|split; discriminate|now destruct Hm1].
      split; [discriminate|]. intros v r0 H. injection H as _ <-.
      specialize (Hm2 _ _ eq_refl). cbn [List.length] in *. lia. }
    destruct (N.eqb c 91).
    { pose proof (skip_ws_length t) as Hw.
      destruct (skip_ws t) as [|d t'] eqn:E; [split; discriminate|].
      cbn [List.length] in Hw.
      destruct (N.eqb d 93).
      { split; [discriminate|]. intros v r H. injection H as _ <-.
        cbn [List.length]. lia. }
      destruct (IHe (d :: t')) as [He1 He2]; [cbn [List.length]; lia|].
      destruct (parse_elements f (d :: t')) as [m r| |]; [|split; discriminate|now destruct He1].
      split; [discriminate|]. intros v r0 H. injection H as _ <-.
      specialize (He2 _ _ eq_refl). cbn [List.length] in *. lia. }
    destruct (N.eqb c DQ).
    { destruct (parse_chars t) as [[v r]|] eqn:E; [|split; discriminate].
      split; [discriminate|]. intros v0 r0 H. injection H as _ <-.
      apply parse_chars_length in E. cbn [List.length]. lia. }
    destruct (N.eqb c 116).
    { split; [unfold parse_literal; destruct (startsWith _ _); discriminate|].
      intros v r. apply parse_literal_length. discriminate. }
    destruct (N.eqb c 102).
    { split; [unfold parse_literal; destruct (startsWith _ _); discriminate|].
      intros v r. apply parse_literal_length. discriminate. }
    destruct (N.eqb c 110).
    { split; [unfold parse_literal; destruct (startsWith _ _); discriminate|].
      intros v r. apply parse_literal_length. discriminate. }
    destruct (lex_number (c :: t)) as [[n r]|] eqn:E; [|split; discriminate].
    split; [discriminate|]. intros v r0 H. injection H as _ <-.
    now apply lex_number_length in E.
  - cbn [parse_members].
    destruct s as [|c t]; [split; discriminate|].
    cbn [List.length] in Hf.
    destruct (negb (N.eqb c DQ)); [split; discriminate|].
    destruct (parse_chars t) as [[key t1]|] eqn:E1; [|split; discriminate].
    apply parse_chars_length in E1.
    pose proof (skip_ws_length t1) as Hw1.
    destruct (skip_ws t1) as [|colon t2]; [split; discriminate|].
    cbn [List.length] in Hw1.
    destruct (negb (N.eqb colon 58)); [split; discriminate|].
    pose proof (skip_ws_length t2) as Hw2.
    destruct (IHv (skip_ws t2)) as [Hv1 Hv2]; [lia|].
    destruct (parse_value f (skip_ws t2)) as [v t3| |];
      [|split; discriminate|now destruct Hv1].
    specialize (Hv2 _ _ eq_refl).
    pose proof (skip_ws_length t3) as Hw3.
    destruct (skip_ws t3) as [|d t4]; [split; discriminate|].
    cbn [List.length] in Hw3.
    destruct (N.eqb d RBRACE).
    { split; [discriminate|]. intros m r H. injection H as _ <-.
      cbn [List.length]. lia. }
    destruct (N.eqb d 44); [|split; discriminate].
    pose proof (skip_ws_length t4) as Hw4.
    destruct (IHm (skip_ws t4)) as [Hm1 Hm2]; [lia|].
    destruct (parse_members f (skip_ws t4)) as [m r| |];
      [|split; discriminate|now destruct Hm1].
    split; [discriminate|]. intros m0 r0 H. injection H as _ <-.
    specialize (Hm2 _ _ eq_refl). cbn [List.length]. lia.
  - cbn [parse_elements].
    destruct (IHv s) as [Hv1 Hv2]; [lia|].
    destruct (parse_value f s) as [v t1| |];
      [|split; discriminate|now destruct Hv1].
    specialize (Hv2 _ _ eq_refl).
    pose proof (skip_ws_length t1) as Hw1.
    destruct (skip_ws t1) as [|d t2]; [split; discriminate|].
    cbn [List.length] in Hw1.
    destruct (N.eqb d 93).
    { split; [discriminate|]. intros m r H. injection H as _ <-. lia. }
    destruct (N.eqb d 44); [|split; discriminate].
    pose proof (skip_ws_length t2) as Hw2.
    destruct (IHe (skip_ws t2)) as [He1 He2]; [lia|].
    destruct (parse_elements f (skip_ws t2)) as [m r| |];
      [|split; discriminate|now destruct He1].
    split; [discriminate|]. intros m0 r0 H. injection H as _ <-.
    specialize (He2 _ _ eq_refl). lia.
Qed.

(** JSON.parse never gives up for lack of budget: what it rejects is a
    syntax error. *)
Theorem JSON_parse_budget s :
  parse_value (2 * List.length (skip_ws s) + 1) (skip_ws s) <> PFuel.
Proof. apply parse_fuel. lia. Qed.

(** ** The matcher *)

Lemma advance_nil x : advance x [] = x.
Proof. destruct x; unfold advance; simpl. now rewrite Nat.add_0_r. Qed.

Lemma advance_cons x d a t :
  rest x = d :: t ->
  advance (MState (S (pos x)) t (cap x)) a = advance x (d :: a).
Proof.
  intros H. unfold advance. simpl. rewrite H. simpl.
  now rewrite Nat.add_succ_r.
Qed.

(** A literal matches exactly where the input starts with it. *)
Lemma rmatch_lit p : forall x k,
  rmatch (lit p) x k
  = if startsWith (rest x) p then k (advance x p) else None.
Proof.
  induction p as [|c p IH]; intros x k.
  - simpl. now rewrite advance_nil.
  - simpl. destruct (rest x) as [|d t] eqn:E; [reflexivity|].
    unfold ch. destruct (N.eqb c d) eqn:Hc; [|reflexivity].
    apply N.eqb_eq in Hc; subst d.
    rewrite IH. simpl.
    destruct (startsWith t p); [|reflexivity].
    f_equal. now apply advance_cons.
Qed.

Lemma match_at_lit p i s :
  match_at (lit p) i s
  = if startsWith s p then Some (List.length p, None) else None.
Proof.
  unfold match_at. rewrite rmatch_lit. simpl.
  destruct (startsWith s p); [|reflexivity].
  simpl. f_equal. f_equal. lia.
Qed.

Lemma star_loop_S m k f x :
  star_loop m k (S f) x
  = match m x (fun y => if pos y =? pos x then None
                        else star_loop m k f y) with
    | Some z => Some z
    | None => k x
    end.
Proof. reflexivity. Qed.

Lemma rmatch_Chr p x k :
  rmatch (Chr p) x k
  = match rest x with
    | c :: t => if p c then k (MState (S (pos x)) t (cap x)) else None
    | [] => None
    end.
Proof. reflexivity. Qed.

(** Greedy [c*] over a class, when the continuation fails before the end of
    the run of class members: the whole run is taken. *)
Lemma star_class p k : forall inner x t fuel,
  rest x = inner ++ t ->
  forallb p inner = true ->
  match t with [] => True | c :: _ => p c = false end ->
  List.length inner < fuel ->
  (forall a b d, inner = a ++ d :: b -> k (advance x a) = None) ->
  star_loop (rmatch (Chr p)) k fuel x = k (advance x inner).
Proof.
  induction inner as [|d inner IH]; intros x t fuel Hr Hp Ht Hf Hk.
  - rewrite advance_nil. destruct fuel as [|f]; [reflexivity|].
    rewrite star_loop_S, rmatch_Chr. simpl in Hr. rewrite Hr.
    destruct t as [|c t']; [reflexivity|]. now rewrite Ht.
  - destruct fuel as [|f]; [simpl in Hf; lia|].
    simpl in Hp. apply andb_true_iff in Hp as [Hd Hp].
    rewrite star_loop_S, rmatch_Chr, Hr. cbn [app]. rewrite Hd. cbn [pos].
    replace (S (pos x) =? pos x) with false
      by (symmetry; apply Nat.eqb_neq; lia).
    rewrite (IH (MState (S (pos x)) (inner ++ t) (cap x)) t f);
      trivial; [| simpl in Hf; lia |].
    + rewrite (advance_cons x d inner (inner ++ t)); trivial.
      destruct (k (advance x (d :: inner))) eqn:E; [reflexivity|].
      rewrite <- (advance_nil x). apply (Hk [] inner d). reflexivity.
    + intros a b e Hab.
      rewrite (advance_cons x d a (inner ++ t)); trivial.
      apply (Hk (d :: a) b e). now rewrite Hab.
Qed.

(** Greedy [c*] over a class when the continuation accepts the whole run. *)
Lemma star_class_all p k : forall inner x t fuel z,
  rest x = inner ++ t ->
  forallb p inner = true ->
  match t with [] => True | c :: _ => p c = false end ->
  List.length inner < fuel ->
  k (advance x inner) = Some z ->
  star_loop (rmatch (Chr p)) k fuel x = Some z.
Proof.
  induction inner as [|d inner IH]; intros x t fuel z Hr Hp Ht Hf Hk.
  - rewrite advance_nil in Hk. destruct fuel as [|f]; [exact Hk|].
    rewrite star_loop_S, rmatch_Chr. cbn [app] in Hr. rewrite Hr.
    destruct t as [|c t']; [exact Hk|]. now rewrite Ht.
  - destruct fuel as [|f]; [cbn in Hf; lia|].
    cbn [forallb] in Hp. apply andb_true_iff in Hp as [Hd Hp].
    rewrite star_loop_S, rmatch_Chr, Hr. cbn [app]. rewrite Hd. cbn [pos].
    replace (S (pos x) =? pos x) with false
      by (symmetry; apply Nat.eqb_neq; lia).
    rewrite (IH (MState (S (pos x)) (inner ++ t) (cap x)) t f z); trivial.
    + cbn [List.length] in Hf. lia.
    + now rewrite (advance_cons x d inner (inner ++ t)).
Qed.

Lemma match_at_lit_then_miss p r i s :
  startsWith s p = false -> match_at (Cat (lit p) r) i s = None.
Proof.
  intros H. unfold match_at. cbn [rmatch]. rewrite rmatch_lit. cbn [rest].
  now rewrite H.
Qed.

(** What a matcher returns, its continuation has returned. *)
Lemma star_loop_result m k :
  (forall x k' y, m x k' = Some y -> exists z, k' z = Some y) ->
  forall fuel x y, star_loop m k fuel x = Some y -> exists z, k z = Some y.
Proof.
  intros Hm. induction fuel as [|f IH]; intros x y H.
  - now exists x.
  - rewrite star_loop_S in H.
    destruct (m x _) as [w|] eqn:E.
    + injection H as ->. apply Hm in E as [z Hz].
      destruct (pos z =? pos x); [discriminate|]. now apply IH in Hz.
    + now exists x.
Qed.

Lemma rmatch_result r : forall x k y,
  rmatch r x k = Some y -> exists z, k z = Some y.
Proof.
  induction r as [|p|r1 IH1 r2 IH2|r1 IH1 r2 IH2|r1 IH1|r1 IH1| |];
    intros x k y H; cbn [rmatch] in H.
  - now exists x.
  - destruct (rest x) as [|c t]; [discriminate|].
    destruct (p c); [|discriminate]. eauto.
  - apply IH1 in H as [z Hz]. now apply IH2 in Hz.
  - destruct (rmatch r1 x k) as [w|] eqn:E.
    + injection H as ->. now apply IH1 in E.
    + now apply IH2 in H.
  - now apply (star_loop_result (rmatch r1) k IH1) in H.
  - apply IH1 in H as [z Hz]. eauto.
  - destruct (pos x =? 0); [|discriminate]. now exists x.
  - destruct (rest x); [|discriminate]. now exists x.
Qed.

(** The input up to its first code unit outside a class. *)
Lemma span_class (p : N -> bool) (s : jsstring) :
  exists inner t, s = inner ++ t /\ forallb p inner = true /\
                  match t with [] => True | c :: _ => p c = false end.
Proof.
  induction s as [|c s (inner & t & E & Hi & Ht)].
  - now exists [], [].
  - destruct (p c) eqn:Hc.
    + exists (c :: inner), t. rewrite E. repeat split; trivial.
      cbn [forallb]. now rewrite Hc.
    + now exists [], (c :: s).
Qed.

Lemma forallb_firstn (A : Type) (p : A -> bool) n l :
  forallb p l = true -> forallb p (firstn n l) = true.
Proof.
  revert n. induction l as [|x l IH]; intros [|n] H; trivial.
  cbn [forallb firstn] in *. apply andb_true_iff in H as [Hx H].
  now rewrite Hx, (IH n H).
Qed.

Lemma rmatch_Cat_result r1 r2 x k y :
  rmatch (Cat r1 r2) x k = Some y -> exists z, rmatch r2 z k = Some y.
Proof. cbn [rmatch]. apply rmatch_result. Qed.

(** *** Global replacement *)

Lemma replace_go_skip r repl : forall n s i,
  n <= List.length s ->
  replace_go r repl i n s = replace_go r repl (i + n) 0 (skipn n s).
Proof.
  induction n as [|n IH]; intros s i H.
  - now rewrite Nat.add_0_r.
  - destruct s as [|c s]; [simpl in H; lia|].
    simpl in H. cbn [replace_go skipn].
    rewrite IH by lia. now rewrite Nat.add_succ_r.
Qed.

(** One step of the scan at a position where nothing is being skipped. *)
Lemma replace_go_step r repl i s :
  replace_go r repl i 0 s
  = match match_at r i s with
    | Some (S n, _) =>
        repl ++ match s with
                | [] => []
                | _ :: s' => replace_go r repl (S i) n s'
                end
    | Some (0, _) =>
        repl ++ match s with
                | [] => []
                | c :: s' => c :: replace_go r repl (S i) 0 s'
                end
    | None =>
        match s with
        | [] => []
        | c :: s' => c :: replace_go r repl (S i) 0 s'
        end
    end.
Proof. destruct s; reflexivity. Qed.

Lemma replace_go_miss r repl i c s :
  match_at r i (c :: s) = None ->
  replace_go r repl i 0 (c :: s) = c :: replace_go r repl (S i) 0 s.
Proof. intros H. rewrite replace_go_step. now rewrite H. Qed.

(** A match of [a], [a] not empty, at the head of [a ++ s]. *)
Lemma replace_go_hit r repl i a s c :
  a <> [] ->
  match_at r i (a ++ s) = Some (List.length a, c) ->
  replace_go r repl i 0 (a ++ s)
  = repl ++ replace_go r repl (i + List.length a) 0 s.
Proof.
  intros Ha H. rewrite replace_go_step, H.
  destruct a as [|d a]; [now destruct Ha|].
  simpl. f_equal.
  rewrite replace_go_skip by (rewrite length_app; lia).
  rewrite skipn_app, skipn_all, Nat.sub_diag. simpl.
  now rewrite Nat.add_succ_r.
Qed.

(** Where the pattern matches at no position, nothing is replaced. *)
Lemma replace_go_nomatch r repl : forall s i,
  (forall a b j, s = a ++ b -> match_at r j b = None) ->
  replace_go r repl i 0 s = s.
Proof.
  induction s as [|c s IH]; intros i H.
  - rewrite replace_go_step. now rewrite (H [] [] i eq_refl).
  - rewrite replace_go_miss by apply (H [] (c :: s) i eq_refl).
    f_equal. apply IH. intros a b j E. apply (H (c :: a) b j).
    now rewrite E.
Qed.

(** The only match of a pattern that starts with a literal sits at the end of
    the text. *)
Lemma replace_go_tail p r repl c : forall pre tail i,
  tail <> [] ->
  (forall a b, pre = a ++ b -> b <> [] -> startsWith (b ++ tail) p = false) ->
  (forall j, match_at (Cat (lit p) r) j tail = Some (List.length tail, c)) ->
  (forall j, match_at (Cat (lit p) r) j [] = None) ->
  replace_go (Cat (lit p) r) repl i 0 (pre ++ tail) = pre ++ repl.
Proof.
  induction pre as [|x pre IH]; intros tail i Ht Hpre Hm He.
  - cbn [app]. rewrite <- (app_nil_r tail) at 1.
    rewrite replace_go_hit with (c := c); trivial.
    + rewrite replace_go_step, He. apply app_nil_r.
    + rewrite app_nil_r. apply Hm.
  - cbn [app]. rewrite replace_go_miss.
    + f_equal. apply IH; trivial. intros a b E Hb.
      apply (Hpre (x :: a) b); trivial. now rewrite E.
    + apply match_at_lit_then_miss.
      apply (Hpre [] (x :: pre)); [reflexivity|discriminate].
Qed.

(** The global replacement of a literal is the replacement of each of its
    occurrences from left to right. *)
Lemma replace_go_lit p repl :
  p <> [] ->
  forall n s i, List.length s <= n ->
    replaced p repl s (replace_go (lit p) repl i 0 s).
Proof.
  intros Hp. induction n as [|n IH]; intros s i Hn.
  - destruct s; [|simpl in Hn; lia].
    rewrite replace_go_step, match_at_lit.
    destruct p; [now destruct Hp|]. simpl. constructor.
  - destruct (startsWith s p) eqn:E.
    + destruct (startsWith_split _ _ E) as [b ->].
      rewrite replace_go_hit with (c := None); trivial.
      * constructor. apply IH. rewrite length_app in Hn.
        destruct p; [now destruct Hp|]. simpl in Hn. lia.
      * now rewrite match_at_lit, E.
    + destruct s as [|c s].
      * rewrite replace_go_step, match_at_lit, E. constructor.
      * rewrite replace_go_miss by now rewrite match_at_lit, E.
        constructor; trivial. apply IH. simpl in Hn. lia.
Qed.

Lemma replace_all_lit p repl s :
  p <> [] -> replaced p repl s (replace_all (lit p) repl s).
Proof. intros Hp. now apply (replace_go_lit p repl Hp (List.length s)). Qed.

(** [replaced] relates each input to one output. *)
Lemma replaced_fun p r : forall s out out',
  p <> [] ->
  replaced p r s out -> replaced p r s out' -> out = out'.
Proof.
  intros s out out' Hp H. revert out'.
  induction H as [|s out H IH|c s out Hc H IH]; intros out' H'.
  - inversion H'; subst; trivial.
    destruct p; [now destruct Hp|discriminate].
  - remember (p ++ s) as ps eqn:E.
    destruct H' as [|s' o' H'|c s' o' Hc' H'].
    + destruct p; [now destruct Hp|discriminate].
    + apply app_inv_head in E. subst s'. f_equal. now apply IH.
    + rewrite E, startsWith_app in Hc'. discriminate.
  - remember (c :: s) as cs eqn:E.
    destruct H' as [|s' o' H'|c' s' o' Hc' H'].
    + discriminate.
    + rewrite startsWith_app in Hc. discriminate.
    + injection E as -> ->. f_equal. now apply IH.
Qed.

(** ** sendEmail *)

Module OrchestratorFacts.
Import EmailService.

Section Send.

Variable number_is_zero : jsstring -> bool.
Variable T : Type.
Variable tr : Transport T.

Local Abbreviation sendEmail := (sendEmail number_is_zero).
Local Abbreviation send_loop := (send_loop number_is_zero).
Local Abbreviation mailOptions := (mailOptions number_is_zero).

(** The loop hands out one entry per address and counts what it hands out. *)
Lemma send_loop_report env req total todo :
  forall rs fs st report calls st',
    run tr (send_loop env req total todo rs fs) st
      = (Return report, calls, st') ->
    totalRecipients report = total /\
    successful report = List.length (results report) /\
    failed report = List.length (failures report) /\
    List.length (results report) + List.length (failures report)
      = List.length rs + List.length fs + List.length todo /\
    Permutation (List.map sent_email (results report)
                 ++ List.map failed_email (failures report))
                (List.map sent_email rs ++ List.map failed_email fs ++ todo).
Proof.
  induction todo as [|email todo IH]; intros rs fs st report calls st' H.
  - simpl in H. injection H as <- _ _. simpl.
    rewrite app_nil_r. repeat split; try lia. apply Permutation_refl.
  - simpl in H.
    destruct (sendMail tr (mailOptions env req email) st) as [r st1].
    destruct r as [emailError|info].
    + destruct (run tr (send_loop env req total todo rs
                          (fs ++ [mkFailure email (message emailError)])) st1)
        as [[a cs] st2] eqn:E.
      injection H as -> _ _.
      destruct (IH _ _ _ _ _ _ E) as (H1 & H2 & H3 & H4 & H5).
      repeat split; trivial.
      * rewrite H4, length_app. simpl. lia.
      * rewrite H5, map_app. simpl.
        rewrite <- !app_assoc. simpl.
        apply Permutation_refl.
    + destruct (run tr (send_loop env req total todo
                          (rs ++ [mkSent email (u "sent") (messageId info)])
                          fs) st1)
        as [[a cs] st2] eqn:E.
      injection H as -> _ _.
      destruct (IH _ _ _ _ _ _ E) as (H1 & H2 & H3 & H4 & H5).
      repeat split; trivial.
      * rewrite H4, length_app. simpl. lia.
      * rewrite H5, map_app. simpl.
        rewrite <- !app_assoc. simpl.
        apply Permutation_app_head, Permutation_middle.
Qed.

(** C10. Whenever sendEmail returns a report, totalRecipients is successful
    plus failed, successful is the number of entries of results, failed is the
    number of entries of failures, totalRecipients is the number of addresses
    that passed validation, and the addresses of the entries of results and
    failures together are the validated addresses, each one once. *)
Theorem sendEmail_report_counts env req st report calls st' :
  run tr (sendEmail env req) st = (Return report, calls, st') ->
  totalRecipients report = successful report + failed report /\
  successful report = List.length (results report) /\
  failed report = List.length (failures report) /\
  totalRecipients report
    = List.length (validEmails (validateEmailList (recipients req))) /\
  Permutation (List.map sent_email (results report)
               ++ List.map failed_email (failures report))
              (validEmails (validateEmailList (recipients req))).
Proof.
  unfold EmailService.sendEmail.
  destruct (createTransporter env); [|discriminate].
  set (v := validateEmailList (recipients req)).
  destruct (0 <? List.length (errors v)); [discriminate|].
  destruct (List.length (validEmails v) =? 0); [discriminate|].
  simpl. destruct (verify tr st) as [[e|] st1]; [discriminate|].
  destruct (run tr (send_loop env req (List.length (validEmails v))
                      (validEmails v) [] []) st1) as [[a cs] st2] eqn:E.
  intros H. injection H as -> _ _.
  apply send_loop_report in E as (H1 & H2 & H3 & H4 & H5).
  simpl in H4, H5. repeat split; trivial. lia.
Qed.

(** C3, as the code has it. With two valid recipients, a transport that
    passes the connectivity check, rejects the delivery to the first and
    accepts the delivery to the second, sendEmail returns a report with
    successful = 1 and failed = 1; the entry of the second recipient is the
    one entry of results, the entry of the first is the one entry of
    failures. *)
Theorem sendEmail_partial_failure env req r1 r2 st st1 st2 st3 e info :
  createTransporter env <> None ->
  recipients req = [r1; r2] ->
  rejected r1 = false ->
  rejected r2 = false ->
  verify tr st = (None, st1) ->
  sendMail tr (mailOptions env req (trim r1)) st1 = (inl e, st2) ->
  sendMail tr (mailOptions env req (trim r2)) st2 = (inr info, st3) ->
  exists report,
    run tr (sendEmail env req) st
      = (Return report,
         [CVerify; CSendMail (mailOptions env req (trim r1));
          CSendMail (mailOptions env req (trim r2))], st3) /\
    successful report = 1 /\ failed report = 1 /\
    totalRecipients report = 2 /\
    results report = [mkSent (trim r2) (u "sent") (messageId info)] /\
    failures report = [mkFailure (trim r1) (message e)].
Proof.
  intros Hc Hr V1 V2 Hv H1 H2.
  unfold EmailService.sendEmail.
  destruct (createTransporter env); [|now destruct Hc].
  unfold validateEmailList. rewrite Hr.
  cbn [validate_from]. unfold rejected in V1, V2. unfold check.
  destruct (trim r1) as [|c1 t1]; [discriminate|].
  destruct (trim r2) as [|c2 t2]; [discriminate|].
  rewrite V1, V2.
  cbn [validEmails errors app List.length Nat.ltb Nat.leb Nat.eqb run].
  rewrite Hv. cbn [send_loop run]. rewrite H1. cbn [send_loop run].
  rewrite H2. cbn [send_loop run app List.length].
  eexists. repeat split.
Qed.

(** The digits of a number denote it. *)
Lemma digits_value_units d : forall acc,
  digits_value (uint_units d) acc = Some (Nat.of_uint_acc d acc).
Proof.
  induction d as [|d IH|d IH|d IH|d IH|d IH|d IH|d IH|d IH|d IH|d IH];
    intros acc; [reflexivity| | | | | | | | | |];
    cbn [uint_units digits_value Nat.of_uint_acc];
    match goal with
    | |- context [is_digit ?c] =>
        change (is_digit c) with true; cbv iota;
        rewrite IH, Nat.tail_mul_spec; do 2 f_equal;
        let v := eval vm_compute in (N.to_nat (c - 48)) in
        change (N.to_nat (c - 48)) with v; lia
    end.
Qed.

Lemma index_text_decimal n : decimal (index_text (n + 1)) (n + 1).
Proof.
  split.
  - unfold index_text. rewrite digits_value_units.
    f_equal. apply DecimalNat.Unsigned.of_to.
  - unfold index_text.
    pose proof (DecimalNat.Unsigned.of_to (n + 1)) as Hof.
    pose proof (DecimalNat.Unsigned.to_of (Nat.to_uint (n + 1))) as Hto.
    rewrite Hof in Hto.
    destruct (Nat.to_uint (n + 1)) as [|d|d|d|d|d|d|d|d|d|d];
      cbn [uint_units]; try (left; discriminate).
    + cbn in Hof. lia.
    + exfalso. rewrite DecimalFacts.unorm_D0 in Hto.
      destruct d as [|d|d|d|d|d|d|d|d|d|d];
        try (cbn in Hof; lia);
        match type of Hto with
        | _ = Decimal.unorm ?u =>
            assert (Hn : u <> Decimal.Nil) by discriminate;
            pose proof (DecimalFacts.nb_digits_unorm u Hn) as Hl;
            rewrite <- Hto in Hl; cbn [Decimal.nb_digits] in Hl; lia
        end.
Qed.

(** Every rejected entry leaves its error in [errors]. *)
Lemma check_rejected index email :
  rejected email = true ->
  exists m, check index email = Invalid m /\ entry_error m index email.
Proof.
  unfold rejected, check, entry_error.
  destruct (trim email) as [|c t]; intros H.
  - eexists; split; [reflexivity|].
    exists (index_text (index + 1)). split; [apply index_text_decimal|].
    reflexivity.
  - rewrite H. eexists; split; reflexivity.
Qed.

Lemma validate_from_keeps emails :
  forall index acc m,
    In m (errors acc) -> In m (errors (validate_from index emails acc)).
Proof.
  induction emails as [|email emails IH]; intros index acc m H; [exact H|].
  simpl. apply IH. destruct (check index email); simpl; trivial.
  apply in_or_app. now left.
Qed.

Lemma validate_from_errors emails :
  forall index acc j r m,
    nth_error emails j = Some r ->
    check (index + j) r = Invalid m ->
    In m (errors (validate_from index emails acc)).
Proof.
  induction emails as [|email emails IH]; intros index acc j r m Hn Hc.
  - destruct j; discriminate.
  - destruct j as [|j]; simpl in Hn.
    + injection Hn as ->. rewrite Nat.add_0_r in Hc. simpl. rewrite Hc.
      apply validate_from_keeps. simpl. apply in_or_app. right. now left.
    + simpl. apply (IH (S index) _ j r m Hn).
      now rewrite Nat.add_succ_l, <- Nat.add_succ_r.
Qed.

(** C4, as the code has it. When the recipient list has no valid address or
    has a rejected entry, sendEmail throws an Error without awaiting the
    transport: the computation is a leaf, so no run of it makes a call.  On a
    service that is not configured the Error is that of the configuration
    check, whatever the recipients.  On a configured service it is the
    validation failure made of all the collected errors, or No valid
    recipients found when there is no error, and it names every rejected
    entry: a blank one by its position counted from one, another one by its
    trimmed text. *)
Theorem sendEmail_fails_fast env req :
  validEmails (validateEmailList (recipients req)) = [] \/
  (exists r, In r (recipients req) /\ rejected r = true) ->
  exists msg,
    sendEmail env req = Ret (Throw (Error msg)) /\
    (forall st, run tr (sendEmail env req) st = (Throw (Error msg), [], st)) /\
    (createTransporter env = None ->
     msg = u "Email service is not configured. Please check your environment variables.") /\
    (createTransporter env <> None ->
     msg = match errors (validateEmailList (recipients req)) with
           | [] => u "No valid recipients found"
           | _ :: _ =>
               u "Email validation failed: "
               ++ join (u ", ") (errors (validateEmailList (recipients req)))
           end /\
     (forall i r, nth_error (recipients req) i = Some r ->
                  rejected r = true ->
                  names_entry msg i r)).
Proof.
  intros Hv.
  assert (Hall : forall i r, nth_error (recipients req) i = Some r ->
                   rejected r = true ->
                   exists m, In m (errors (validateEmailList (recipients req)))
                             /\ entry_error m i r).
  { intros i r Hn Hr. destruct (check_rejected i r Hr) as (m & Hm & Hl).
    exists m. split; trivial.
    unfold validateEmailList.
    eapply validate_from_errors with (index := 0); eauto. }
  unfold EmailService.sendEmail.
  destruct (createTransporter env) as [transporter|].
  2: { eexists. split; [reflexivity|]. split; [reflexivity|].
       split; [reflexivity|]. intros H. now destruct H. }
  destruct (errors (validateEmailList (recipients req))) as [|e es] eqn:E.
  - assert (Hnone : forall i r, nth_error (recipients req) i = Some r ->
                      rejected r = true -> False).
    { intros i r Hn Hr. destruct (Hall i r Hn Hr) as (m & [] & _). }
    destruct Hv as [Hv|(r & Hin & Hr)].
    + rewrite Hv. cbn [List.length Nat.ltb Nat.leb Nat.eqb].
      eexists. split; [reflexivity|]. split; [reflexivity|].
      split; [discriminate|]. intros _. split; [reflexivity|].
      intros i r Hn Hr. destruct (Hnone i r Hn Hr).
    + destruct (In_nth_error _ _ Hin) as [i Hn]. destruct (Hnone i r Hn Hr).
  - cbn [List.length Nat.ltb Nat.leb].
    eexists. split; [reflexivity|]. split; [reflexivity|].
    split; [discriminate|]. intros _. split; [reflexivity|].
    intros i r Hn Hr. destruct (Hall i r Hn Hr) as (m & Hin & Hl).
    exists m. split; [exact Hl|].
    apply includes_trans with (m := join (u ", ") (e :: es)).
    + rewrite <- (app_nil_r (join (u ", ") (e :: es))) at 1.
      apply includes_app.
    + now apply includes_join.
Qed.

End Send.

(** The run of the example: the rejected first recipient is not in results. *)
Lemma example_run :
  run scripted
      (sendEmail zero_mantissa example_env
                 (example_request [u "a@x.com"; u "b@y.org"]))
      example_script
  = (Return example_report,
     [CVerify;
      CSendMail (mailOptions zero_mantissa example_env
                   (example_request [u "a@x.com"; u "b@y.org"]) (u "a@x.com"));
      CSendMail (mailOptions zero_mantissa example_env
                   (example_request [u "a@x.com"; u "b@y.org"]) (u "b@y.org"))],
     mkScript None []).
Proof. vm_compute. reflexivity. Qed.

Lemma sendEmail_report_counts_witness :
  totalRecipients example_report
    = successful example_report + failed example_report /\
  successful example_report = List.length (results example_report) /\
  failed example_report = List.length (failures example_report) /\
  totalRecipients example_report
    = List.length (validEmails (validateEmailList [u "a@x.com"; u "b@y.org"])) /\
  Permutation (List.map sent_email (results example_report)
               ++ List.map failed_email (failures example_report))
              (validEmails (validateEmailList [u "a@x.com"; u "b@y.org"])).
Proof.
  apply (@sendEmail_report_counts zero_mantissa Script scripted example_env
           (example_request [u "a@x.com"; u "b@y.org"]) example_script
           example_report
           [CVerify;
            CSendMail (mailOptions zero_mantissa example_env
                   (example_request [u "a@x.com"; u "b@y.org"]) (u "a@x.com"));
            CSendMail (mailOptions zero_mantissa example_env
                   (example_request [u "a@x.com"; u "b@y.org"]) (u "b@y.org"))]
           (mkScript None [])).
  vm_compute. reflexivity.
Defined.

(** C3 as stated fails: in the example run the report has successful = 1 and
    failed = 1, yet results holds no entry for the first recipient. *)
Lemma sendEmail_partial_failure_counterexample :
  ~ (exists report calls st',
       run scripted
           (sendEmail zero_mantissa example_env
                      (example_request [u "a@x.com"; u "b@y.org"]))
           example_script = (Return report, calls, st') /\
       successful report = 1 /\ failed report = 1 /\
       forall r, In r [u "a@x.com"; u "b@y.org"] ->
                 exists s, In s (results report) /\ sent_email s = r).
Proof.
  intros (report & calls & st' & Hrun & _ & _ & Hall).
  vm_compute in Hrun. injection Hrun as <- _ _.
  destruct (Hall (u "a@x.com") (or_introl eq_refl)) as (s & Hin & Hs).
  destruct Hin as [<-|[]]. vm_compute in Hs. discriminate.
Qed.

Lemma sendEmail_partial_failure_witness :
  exists report,
    run scripted
        (sendEmail zero_mantissa example_env
                   (example_request [u "a@x.com"; u "b@y.org"]))
        example_script
      = (Return report,
         [CVerify;
          CSendMail (mailOptions zero_mantissa example_env
                       (example_request [u "a@x.com"; u "b@y.org"])
                       (trim (u "a@x.com")));
          CSendMail (mailOptions zero_mantissa example_env
                       (example_request [u "a@x.com"; u "b@y.org"])
                       (trim (u "b@y.org")))],
         mkScript None []) /\
    successful report = 1 /\ failed report = 1 /\
    totalRecipients report = 2 /\
    results report
      = [mkSent (trim (u "b@y.org")) (u "sent") (messageId (mkInfo (u "<1@example.com>")))] /\
    failures report
      = [mkFailure (trim (u "a@x.com"))
           (message (mkTransportError (Some (u "EENVELOPE"))
                                      (u "Mailbox unavailable")))].
Proof.
  apply (@sendEmail_partial_failure zero_mantissa Script scripted example_env
           (example_request [u "a@x.com"; u "b@y.org"])
           (u "a@x.com") (u "b@y.org")
           example_script example_script
           (mkScript None [inr (mkInfo (u "<1@example.com>"))])
           (mkScript None [])).
  - vm_compute. discriminate.
  - reflexivity.
  - vm_compute. reflexivity.
  - vm_compute. reflexivity.
  - reflexivity.
  - reflexivity.
  - reflexivity.
Defined.

(** The request of the specification: one good and one malformed address. *)
Example sendEmail_rejects_malformed :
  sendEmail zero_mantissa example_env
            (example_request [u "good@x.com"; u "not-an-email"])
  = Ret (Throw (Error (u "Email validation failed: Invalid email format: not-an-email"))).
Proof. vm_compute. reflexivity. Qed.

(** Two rejected entries: both are named. *)
Example sendEmail_names_all :
  sendEmail zero_mantissa example_env
            (example_request [u "nobody"; u "good@x.com"; u "   "])
  = Ret (Throw (Error (u "Email validation failed: Invalid email format: nobody, Email at position 3 is empty"))).
Proof. vm_compute. reflexivity. Qed.

Lemma sendEmail_fails_fast_witness :
  exists msg,
    sendEmail zero_mantissa example_env
              (example_request [u "good@x.com"; u "not-an-email"; u "  "])
      = Ret (Throw (Error msg)) /\
    (forall st,
        run scripted
            (sendEmail zero_mantissa example_env
                       (example_request
                          [u "good@x.com"; u "not-an-email"; u "  "])) st
        = (Throw (Error msg), [], st)) /\
    msg = u "Email validation failed: Invalid email format: not-an-email, Email at position 3 is empty" /\
    names_entry msg 1 (u "not-an-email") /\
    names_entry msg 2 (u "  ").
Proof.
  destruct (@sendEmail_fails_fast zero_mantissa Script scripted example_env
              (example_request [u "good@x.com"; u "not-an-email"; u "  "]))
    as (msg & Hleaf & Hrun & _ & Hmsg).
  - right. exists (u "not-an-email"). split.
    + simpl. right. left. reflexivity.
    + vm_compute. reflexivity.
  - exists msg. split; [exact Hleaf|]. split; [exact Hrun|].
    destruct Hmsg as [Hm Hn]; [vm_compute; discriminate|].
    split; [exact Hm|]. split; apply Hn; reflexivity.
Defined.

(** C4 as stated fails on a service that is not configured: with one good
    and one malformed address the Error is that of the configuration check,
    and its message does not name the malformed entry. *)
Lemma sendEmail_fails_fast_counterexample :
  sendEmail zero_mantissa env_no_pass
            (example_request [u "good@x.com"; u "not-an-email"])
  = Ret (Throw (Error (u "Email service is not configured. Please check your environment variables."))) /\
  ~ (exists msg,
       sendEmail zero_mantissa env_no_pass
                 (example_request [u "good@x.com"; u "not-an-email"])
       = Ret (Throw (Error msg)) /\
       includes msg (u "not-an-email") = true).
Proof.
  split; [vm_compute; reflexivity|].
  intros (msg & H & Hi). vm_compute in H. injection H as <-.
  vm_compute in Hi. discriminate.
Qed.

End OrchestratorFacts.

(** ** Rendering *)

Module RenderFacts.
Import EmailService.

Lemma has_gt_forallb s : has_gt s = false -> forallb (nch GT) s = true.
Proof.
  induction s as [|c s IH]; [reflexivity|].
  unfold has_gt. cbn [existsb forallb].
  intros H. apply orb_false_iff in H as [Hc Hs].
  unfold nch. rewrite Hc. now apply IH.
Qed.

Lemma has_gt_app a b : has_gt (a ++ b) = has_gt a || has_gt b.
Proof. apply existsb_app. Qed.

(** The input up to its first [>]. *)
Lemma span_gt t :
  exists inner t', t = inner ++ t' /\ has_gt inner = false /\
                   (t' = [] \/ exists t'', t' = GT :: t'').
Proof.
  induction t as [|c t (inner & t' & E & Hi & Ht)].
  - exists [], []. repeat split. now left.
  - destruct (N.eqb GT c) eqn:Hc.
    + apply N.eqb_eq in Hc; subst c.
      exists [], (GT :: t). repeat split. right. now exists t.
    + exists (c :: inner), t'. rewrite E. repeat split; trivial.
      unfold has_gt. cbn [existsb]. now rewrite Hc.
Qed.

Lemma match_at_tag_hit i inner s :
  has_gt inner = false ->
  match_at re_tag i (LT :: inner ++ GT :: s)
  = Some (List.length (LT :: inner ++ [GT]), None).
Proof.
  intros Hi. unfold match_at, re_tag. cbn [rmatch rest pos cap].
  change (ch 60 LT) with true. cbv iota.
  set (x := MState (S i) (inner ++ GT :: s) None).
  change (inner ++ GT :: s) with (rest x) at 1.
  rewrite (star_class (nch 62) _ inner x (GT :: s)); trivial.
  - unfold advance. subst x. cbn [rest pos cap].
    rewrite skipn_app, skipn_all, Nat.sub_diag. cbn [skipn app].
    change (ch 62 GT) with true. cbv iota. cbn [pos cap].
    f_equal. f_equal. cbn [List.length]. rewrite length_app.
    cbn [List.length]. lia.
  - now apply has_gt_forallb.
  - subst x. cbn [rest]. rewrite length_app. simpl. lia.
  - intros a b d E. unfold advance. subst x. cbn [rest pos cap].
    rewrite E, <- app_assoc, skipn_app, skipn_all, Nat.sub_diag.
    cbn [skipn app]. rewrite E, has_gt_app in Hi.
    apply orb_false_iff in Hi as [_ Hi].
    unfold has_gt in Hi. cbn [existsb] in Hi.
    apply orb_false_iff in Hi as [Hd _]. unfold ch.
    change 62%N with GT. now rewrite Hd.
Qed.

Lemma match_at_tag_open i s :
  has_gt s = false -> match_at re_tag i (LT :: s) = None.
Proof.
  intros Hs. unfold match_at, re_tag. cbn [rmatch rest pos cap].
  change (ch 60 LT) with true. cbv iota.
  set (x := MState (S i) s None).
  change s with (rest x) at 1.
  rewrite (star_class (nch 62) _ s x []); trivial.
  - unfold advance. subst x. cbn [rest pos cap].
    now rewrite skipn_all.
  - subst x. cbn [rest]. now rewrite app_nil_r.
  - now apply has_gt_forallb.
  - subst x. cbn [rest]. lia.
  - intros a b d E. unfold advance. subst x. cbn [rest pos cap].
    rewrite E, skipn_app, skipn_all, Nat.sub_diag.
    cbn [skipn app]. rewrite E, has_gt_app in Hs.
    apply orb_false_iff in Hs as [_ Hs].
    unfold has_gt in Hs. cbn [existsb] in Hs.
    apply orb_false_iff in Hs as [Hd _]. unfold ch.
    change 62%N with GT. now rewrite Hd.
Qed.

Lemma match_at_tag_other i c s :
  N.eqb c LT = false -> match_at re_tag i (c :: s) = None.
Proof.
  intros Hc. unfold match_at, re_tag. cbn [rmatch rest]. unfold ch.
  change 60%N with LT. rewrite N.eqb_sym, Hc. reflexivity.
Qed.

Lemma match_at_tag_nil i : match_at re_tag i [] = None.
Proof. reflexivity. Qed.

(** The global replacement of the tag pattern by the empty text removes the
    tags. *)
Lemma replace_go_tag : forall n s i,
  List.length s <= n -> stripped s (replace_go re_tag [] i 0 s).
Proof.
  induction n as [|n IH]; intros s i Hn.
  - destruct s; [|simpl in Hn; lia]. constructor.
  - destruct s as [|c t]; [constructor|].
    destruct (N.eqb c LT) eqn:Hc.
    + apply N.eqb_eq in Hc; subst c.
      destruct (span_gt t) as (inner & t' & E & Hi & [->|[t'' ->]]).
      * rewrite app_nil_r in E; subst inner.
        rewrite replace_go_miss by now apply match_at_tag_open.
        apply stripped_open; trivial. apply IH. simpl in Hn. lia.
      * subst t.
        change (LT :: inner ++ GT :: t'')
          with ((LT :: inner) ++ [GT] ++ t'') at 2.
        rewrite app_assoc.
        rewrite replace_go_hit with (c := None).
        -- apply stripped_tag; trivial. apply IH. simpl in Hn.
           rewrite length_app in Hn. simpl in Hn. lia.
        -- discriminate.
        -- rewrite <- app_assoc. now apply match_at_tag_hit.
    + rewrite replace_go_miss by now apply match_at_tag_other.
      apply stripped_other; trivial. apply IH. simpl in Hn. lia.
Qed.

Lemma replace_all_tag s : stripped s (replace_all re_tag [] s).
Proof. now apply (replace_go_tag (List.length s)). Qed.

Lemma nbsp_nonempty : nbsp <> [].
Proof. discriminate. Qed.

(** C5, as the code has it. For every body, the plain-text component of the
    rendering is the body itself, not the HTML component, with its markup
    tags stripped and then every non-breaking-space entity replaced by a
    space. *)
Theorem render_text_from_body number_is_zero body :
  snd (render number_is_zero body) = stripHtml body /\
  exists t, stripped body t /\
            replaced nbsp [SP] t (snd (render number_is_zero body)).
Proof.
  split; [reflexivity|].
  exists (replace_all re_tag [] body). split.
  - apply replace_all_tag.
  - apply replace_all_lit, nbsp_nonempty.
Qed.

(** C5 as stated fails on a body with a single line break: the HTML component
    is <p>a<br>b</p>, which stripped of its tags is ab, while the text
    component keeps the line break. *)
Lemma render_text_counterexample :
  fst (render zero_mantissa (u "a" ++ [LF] ++ u "b")) = u "<p>a<br>b</p>" /\
  stripHtml (fst (render zero_mantissa (u "a" ++ [LF] ++ u "b"))) = u "ab" /\
  snd (render zero_mantissa (u "a" ++ [LF] ++ u "b")) = u "a" ++ [LF] ++ u "b" /\
  snd (render zero_mantissa (u "a" ++ [LF] ++ u "b"))
    <> stripHtml (fst (render zero_mantissa (u "a" ++ [LF] ++ u "b"))).
Proof. vm_compute. repeat split. discriminate. Qed.

(** *** The HTML component *)

Lemma replace_first_Bol repl s : replace_first Bol repl s = repl ++ s.
Proof. unfold replace_first, exec. destruct s; reflexivity. Qed.

Lemma exec_from_Eol : forall s i,
  exec_from Eol i s = Some (i + List.length s, 0, None).
Proof.
  induction s as [|c s IH]; intros i.
  - cbn. now rewrite Nat.sub_diag, Nat.add_0_r.
  - cbn [exec_from]. unfold match_at. cbn [rmatch rest].
    rewrite IH. cbn [List.length]. now rewrite Nat.add_succ_r.
Qed.

Lemma replace_first_Eol repl s : replace_first Eol repl s = s ++ repl.
Proof.
  unfold replace_first, exec. rewrite exec_from_Eol. cbn [Nat.add].
  now rewrite Nat.add_0_r, firstn_all, skipn_all, app_nil_r.
Qed.

(** Lines 182 to 187 against the words of the specification. *)
Lemma to_html_spec body :
  exists s1 s2,
    replaced [LF; LF] (p_close ++ p_open) body s1 /\
    replaced [LF] br s1 s2 /\
    replaced (p_open ++ p_close) [] (p_open ++ s2 ++ p_close) (to_html body).
Proof.
  exists (replace_all (lit [LF; LF]) (p_close ++ p_open) body).
  exists (replace_all (lit [LF]) br
            (replace_all (lit [LF; LF]) (p_close ++ p_open) body)).
  split; [|split].
  - apply replace_all_lit. discriminate.
  - apply replace_all_lit. discriminate.
  - unfold to_html. rewrite replace_first_Bol, replace_first_Eol.
    rewrite <- app_assoc. apply replace_all_lit. discriminate.
Qed.

Lemma formatEmailBody_normalized number_is_zero body :
  normalized body = true ->
  formatEmailBody number_is_zero body = to_html body.
Proof.
  unfold normalized, formatEmailBody, emergency. intros H.
  apply andb_true_iff in H as [H1 H2].
  apply negb_true_iff in H1. apply negb_true_iff in H2.
  now rewrite H1, H2.
Qed.

(** C6. For a body that needs no re-normalisation, the HTML component is
    obtained by replacing each double line break by </p><p>, then each line
    break that is left by <br>, putting <p> in front and </p> behind, and
    removing each empty paragraph <p></p>; the example body of two paragraphs
    renders to <p>Para one.</p><p>Para two.</p> with itself as text. *)
Theorem formatEmailBody_rendering number_is_zero body :
  normalized body = true ->
  (exists s1 s2,
      replaced [LF; LF] (u "</p><p>") body s1 /\
      replaced [LF] (u "<br>") s1 s2 /\
      replaced (u "<p></p>") [] (u "<p>" ++ s2 ++ u "</p>")
               (fst (render number_is_zero body))) /\
  render number_is_zero two_paragraphs
  = (u "<p>Para one.</p><p>Para two.</p>",
     u "Para one." ++ [LF; LF] ++ u "Para two.").
Proof.
  intros H. split.
  - unfold render. cbn [fst]. rewrite formatEmailBody_normalized by trivial.
    apply to_html_spec.
  - vm_compute. reflexivity.
Qed.

Lemma formatEmailBody_rendering_witness :
  (exists s1 s2,
      replaced [LF; LF] (u "</p><p>") two_paragraphs s1 /\
      replaced [LF] (u "<br>") s1 s2 /\
      replaced (u "<p></p>") [] (u "<p>" ++ s2 ++ u "</p>")
               (fst (render zero_mantissa two_paragraphs))) /\
  render zero_mantissa two_paragraphs
  = (u "<p>Para one.</p><p>Para two.</p>",
     u "Para one." ++ [LF; LF] ++ u "Para two.").
Proof.
  apply (formatEmailBody_rendering zero_mantissa two_paragraphs).
  vm_compute. reflexivity.
Defined.

(** *** Rendering again what was rendered *)

Lemma has_gt_cons c s : has_gt (c :: s) = N.eqb GT c || has_gt s.
Proof. reflexivity. Qed.

Lemma tagfree_cons c s :
  tagfree (c :: s) = (negb (N.eqb c LT) || negb (has_gt s)) && tagfree s.
Proof. reflexivity. Qed.

Lemma stripped_has_gt s out :
  stripped s out -> has_gt out = true -> has_gt s = true.
Proof.
  induction 1 as [|inner s out Hi H IH|s out Hs H IH|c s out Hc H IH];
    intros Hg; trivial.
  - rewrite has_gt_cons, has_gt_app, has_gt_cons, N.eqb_refl.
    now rewrite !orb_true_r.
  - rewrite has_gt_cons in Hg |- *.
    apply orb_true_iff in Hg as [Hg|Hg]; [discriminate|].
    now rewrite (IH Hg), orb_true_r.
  - rewrite has_gt_cons in Hg |- *.
    apply orb_true_iff in Hg as [Hg|Hg]; [now rewrite Hg|].
    now rewrite (IH Hg), orb_true_r.
Qed.

(** What tag stripping returns holds no tag. *)
Lemma stripped_tagfree s out : stripped s out -> tagfree out = true.
Proof.
  induction 1 as [|inner s out Hi H IH|s out Hs H IH|c s out Hc H IH];
    trivial.
  - rewrite tagfree_cons, IH, andb_true_r.
    destruct (has_gt out) eqn:Hg; [|now rewrite orb_true_r].
    apply (stripped_has_gt _ _ H) in Hg. congruence.
  - now rewrite tagfree_cons, Hc, IH.
Qed.

Lemma tagfree_suffix a b : tagfree (a ++ b) = true -> tagfree b = true.
Proof.
  induction a as [|c a IH]; trivial.
  cbn [app]. rewrite tagfree_cons. intros H.
  apply andb_true_iff in H as [_ H]. now apply IH.
Qed.

Lemma tagfree_fixed s : tagfree s = true -> replace_all re_tag [] s = s.
Proof.
  intros H. apply replace_go_nomatch. intros a b j E.
  rewrite E in H. apply tagfree_suffix in H.
  destruct b as [|c b]; [reflexivity|].
  rewrite tagfree_cons in H. apply andb_true_iff in H as [H _].
  destruct (N.eqb c LT) eqn:Hc.
  - apply N.eqb_eq in Hc; subst c. apply match_at_tag_open.
    now apply negb_true_iff in H.
  - now apply match_at_tag_other.
Qed.

Lemma replaced_nbsp_has_gt s out :
  replaced nbsp [SP] s out -> has_gt out = true -> has_gt s = true.
Proof.
  induction 1 as [|s out H IH|c s out Hc H IH]; intros Hg; trivial.
  - cbn [app] in Hg. rewrite has_gt_cons in Hg.
    apply orb_true_iff in Hg as [Hg|Hg]; [discriminate|].
    now rewrite has_gt_app, (IH Hg), orb_true_r.
  - rewrite has_gt_cons in Hg |- *.
    apply orb_true_iff in Hg as [Hg|Hg]; [now rewrite Hg|].
    now rewrite (IH Hg), orb_true_r.
Qed.

Lemma replaced_nbsp_tagfree s out :
  replaced nbsp [SP] s out -> tagfree s = true -> tagfree out = true.
Proof.
  induction 1 as [|s out H IH|c s out Hc H IH]; intros Ht; trivial.
  - apply tagfree_suffix in Ht. cbn [app]. rewrite tagfree_cons.
    now rewrite (IH Ht).
  - rewrite tagfree_cons in Ht |- *.
    apply andb_true_iff in Ht as [Hc' Ht]. rewrite (IH Ht), andb_true_r.
    destruct (N.eqb c LT); trivial. cbn [negb orb] in Hc' |- *.
    destruct (has_gt out) eqn:Hg; trivial.
    apply (replaced_nbsp_has_gt _ _ H) in Hg. now rewrite Hg in Hc'.
Qed.

(** A text without a space that starts the output started the input. *)
Lemma replaced_nbsp_prefix s out :
  replaced nbsp [SP] s out ->
  forall q, forallb (nch SP) q = true ->
            startsWith out q = true -> startsWith s q = true.
Proof.
  induction 1 as [|s out H IH|c s out Hc H IH]; intros q Hq Hs; trivial.
  - destruct q as [|x q]; trivial.
    cbn [app startsWith] in Hs. cbn [forallb] in Hq.
    apply andb_true_iff in Hq as [Hx _].
    apply andb_true_iff in Hs as [Hs _].
    apply N.eqb_eq in Hs; subst x. discriminate.
  - destruct q as [|x q]; trivial.
    cbn [startsWith] in Hs |- *. cbn [forallb] in Hq.
    apply andb_true_iff in Hq as [_ Hq].
    apply andb_true_iff in Hs as [Hx Hs].
    now rewrite Hx, (IH q Hq Hs).
Qed.

(** After the replacement no entity is left. *)
Lemma replaced_nbsp_clean s out :
  replaced nbsp [SP] s out -> includes out nbsp = false.
Proof.
  induction 1 as [|s out H IH|c s out Hc H IH]; [reflexivity| |].
  - change (includes (SP :: out) nbsp = false).
    rewrite includes_cons, IH. reflexivity.
  - rewrite includes_cons, IH, orb_false_r.
    destruct (startsWith (c :: out) nbsp) eqn:E; trivial.
    change nbsp with (38%N :: u "nbsp;") in E, Hc.
    cbn [startsWith] in E, Hc.
    apply andb_true_iff in E as [Ec E].
    apply (replaced_nbsp_prefix _ _ H) in E; [|reflexivity].
    now rewrite Ec, E in Hc.
Qed.

Lemma clean_fixed s :
  includes s nbsp = false -> replace_all (lit nbsp) [SP] s = s.
Proof.
  intros H. apply replace_go_nomatch. intros a b j E.
  rewrite E in H. apply includes_suffix in H.
  now rewrite match_at_lit, H.
Qed.

(** stripHtml changes nothing in what it has returned. *)
Lemma stripHtml_idempotent body : stripHtml (stripHtml body) = stripHtml body.
Proof.
  assert (Hr := replace_all_lit nbsp [SP] (replace_all re_tag [] body)
                  nbsp_nonempty).
  fold (stripHtml body) in Hr.
  unfold stripHtml at 1.
  rewrite tagfree_fixed.
  - apply clean_fixed. now apply replaced_nbsp_clean in Hr.
  - apply (replaced_nbsp_tagfree _ _ Hr).
    apply (stripped_tagfree body), replace_all_tag.
Qed.

Lemma stripHtml_plain body :
  tagfree body = true -> includes body nbsp = false -> stripHtml body = body.
Proof.
  intros Ht Hn. unfold stripHtml. rewrite tagfree_fixed by trivial.
  now apply clean_fixed.
Qed.

(** C9, as the code has it. Rendering the text of a rendering gives the same
    text again, for every body; the whole rendering is the same when the body
    holds no tag and no non-breaking-space entity. *)
Theorem render_again number_is_zero body :
  snd (render number_is_zero (snd (render number_is_zero body)))
    = snd (render number_is_zero body) /\
  (tagfree body = true -> includes body nbsp = false ->
   render number_is_zero (snd (render number_is_zero body))
     = render number_is_zero body).
Proof.
  split.
  - apply stripHtml_idempotent.
  - intros Ht Hn. cbn [render snd]. now rewrite stripHtml_plain.
Qed.

Lemma render_again_witness :
  snd (render zero_mantissa (snd (render zero_mantissa two_paragraphs)))
    = snd (render zero_mantissa two_paragraphs) /\
  render zero_mantissa (snd (render zero_mantissa two_paragraphs))
    = render zero_mantissa two_paragraphs.
Proof.
  destruct (render_again zero_mantissa two_paragraphs) as [Htext Hall].
  split; [exact Htext|]. now apply Hall.
Defined.

(** C9 as stated fails on a body that is one tag: its rendering is
    <p><i></p> with an empty text, and the empty text renders to the empty
    HTML, which differs from <p><i></p> by more than white space. *)
Lemma render_again_counterexample :
  ~ (eq_mod_ws
       (fst (render zero_mantissa (snd (render zero_mantissa (u "<i>")))))
       (fst (render zero_mantissa (u "<i>"))) /\
     eq_mod_ws
       (snd (render zero_mantissa (snd (render zero_mantissa (u "<i>")))))
       (snd (render zero_mantissa (u "<i>")))).
Proof. intros [H _]. vm_compute in H. discriminate. Qed.

End RenderFacts.

(** ** The completion post-processing *)

Module NormalizeFacts.
Import AIService.

Lemma findIndex_app (A : Type) (p : A -> bool) pre x post :
  forallb (fun l => negb (p l)) pre = true -> p x = true ->
  findIndex p (pre ++ x :: post) = Some (List.length pre).
Proof.
  intros Hpre Hx. induction pre as [|y pre IH]; cbn [app findIndex].
  - now rewrite Hx.
  - cbn [forallb] in Hpre. apply andb_true_iff in Hpre as [Hy Hpre].
    apply negb_true_iff in Hy. now rewrite Hy, (IH Hpre).
Qed.

Lemma splice1_app (A : Type) (pre : list A) x post :
  splice1 (List.length pre) (pre ++ x :: post) = pre ++ post.
Proof. induction pre as [|y pre IH]; cbn; [reflexivity|now rewrite IH]. Qed.

(** The value of [normalize] by the outcome of the try statement. *)
Lemma normalize_cases content :
  normalize content
  = match parse_branch (bounded content) with
    | Return email => Return email
    | Throw _ => Return (manual_extraction (bounded content))
    end.
Proof. reflexivity. Qed.





(** The value the key pattern captures holds no double quote. *)
Lemma re_key_capture key i s n c :
  match_at (re_key key) i s = Some (n, c) ->
  exists m1, c = Some m1 /\ forallb (nch DQ) m1 = true.
Proof.
  unfold match_at.
  destruct (rmatch (re_key key) (MState i s None) Some) as [y|] eqn:E;
    [|discriminate].
  intros H. injection H as _ <-.
  unfold re_key in E.
  do 5 apply rmatch_Cat_result in E as [? E].
  rename x3 into z.
  set (K := fun w1 : mstate =>
              rmatch escapes w1 (fun w =>
                rmatch (Chr (ch DQ))
                  (MState (pos w) (rest w)
                          (Some (firstn (pos w - pos z) (rest z)))) Some)).
  assert (E' : star_loop (rmatch (Chr (nch DQ))) K
                         (S (List.length (rest z))) z = Some y) by exact E.
  clear E.
  destruct (span_class (nch DQ) (rest z)) as (inner & t & Er & Hi & Ht).
  destruct t as [|d t].
  - rewrite app_nil_r in Er.
    apply (star_loop_result _ _ (rmatch_result (Chr (nch DQ)))) in E'
      as [w1 E].
    unfold K in E. apply rmatch_result in E as [w2 E].
    rewrite rmatch_Chr in E. cbn [rest pos cap] in E.
    destruct (rest w2) as [|e t]; [discriminate|].
    destruct (ch DQ e); [|discriminate]. injection E as <-. cbn [cap].
    eexists. split; [reflexivity|]. rewrite Er. now apply forallb_firstn.
  - assert (Hd : d = DQ).
    { unfold nch in Ht. apply negb_false_iff in Ht.
      now apply N.eqb_eq in Ht. }
    subst d.
    assert (Hk : K (advance z inner)
                 = Some (MState (S (pos z + List.length inner)) t
                                (Some inner))).
    { unfold K, escapes. cbn [rmatch]. rewrite star_loop_S.
      unfold advance. rewrite Er, skipn_app, skipn_all, Nat.sub_diag.
      cbn [skipn app]. cbn [rmatch rest pos cap].
      change (ch BSL DQ) with false. cbv iota.
      change (ch DQ DQ) with true. cbv iota.
      replace (pos z + List.length inner - pos z) with (List.length inner)
        by lia.
      rewrite firstn_app, firstn_all, Nat.sub_diag. cbn [firstn].
      rewrite app_nil_r. reflexivity. }
    assert (Hf : List.length inner < S (List.length (rest z)))
      by (rewrite Er, length_app; cbn [List.length]; lia).
    rewrite (star_class_all (nch DQ) K inner z (DQ :: t) _ _ Er Hi Ht Hf Hk)
      in E'.
    injection E' as <-. cbn [cap]. eauto.
Qed.

Lemma exec_from_capture key : forall s i j n c,
  exec_from (re_key key) i s = Some (j, n, c) ->
  exists m1, c = Some m1 /\ forallb (nch DQ) m1 = true.
Proof.
  induction s as [|x s IH]; intros i j n c; cbn [exec_from].
  - destruct (match_at (re_key key) i []) as [[n' c']|] eqn:E; [|discriminate].
    intros H. injection H as _ _ <-. now apply re_key_capture in E.
  - destruct (match_at (re_key key) i (x :: s)) as [[n' c']|] eqn:E.
    + intros H. injection H as _ _ <-. now apply re_key_capture in E.
    + apply IH.
Qed.

Lemma match1_capture key s m1 :
  match1 (re_key key) s = Some m1 -> forallb (nch DQ) m1 = true.
Proof.
  unfold match1, exec.
  destruct (exec_from (re_key key) 0 s) as [[[j n] c]|] eqn:E; [|discriminate].
  intros ->. apply exec_from_capture in E as (m & Em & Hm).
  now injection Em as <-.
Qed.

Lemma forallb_replaced (P : N -> bool) p r : forall s out,
  replaced p r s out ->
  forallb P r = true -> forallb P s = true -> forallb P out = true.
Proof.
  induction 1 as [|s out H IH|c s out Hc H IH]; intros Hr Hs; trivial.
  - rewrite forallb_app in Hs |- *. apply andb_true_iff in Hs as [_ Hs].
    now rewrite Hr, IH.
  - cbn [forallb] in Hs |- *. apply andb_true_iff in Hs as [Hx Hs].
    now rewrite Hx, IH.
Qed.

Lemma forallb_trimStart (P : N -> bool) s :
  forallb P s = true -> forallb P (trimStart s) = true.
Proof.
  induction s as [|c s IH]; trivial. cbn [trimStart].
  destruct (is_ws c); trivial. cbn [forallb]. intros H.
  apply andb_true_iff in H as [_ H]. now apply IH.
Qed.

Lemma forallb_rev (P : N -> bool) s :
  forallb P s = true -> forallb P (rev s) = true.
Proof.
  rewrite !forallb_forall. intros H x Hx. apply H. now apply in_rev.
Qed.

Lemma forallb_trim (P : N -> bool) s :
  forallb P s = true -> forallb P (trim s) = true.
Proof.
  intros H. unfold trim, trimEnd.
  now apply forallb_rev, forallb_trimStart, forallb_rev, forallb_trimStart.
Qed.

Lemma startsWith_forallb (P : N -> bool) s p :
  startsWith s p = true -> forallb P s = true -> forallb P p = true.
Proof.
  intros H Hs. destruct (startsWith_split _ _ H) as [b ->].
  rewrite forallb_app in Hs. now apply andb_true_iff in Hs as [Hs _].
Qed.

(** A text without double quote holds no quoted key. *)
Lemma no_quote_no_key b :
  forallb (nch DQ) b = true -> has_json_key b = false.
Proof.
  intros H. unfold has_json_key.
  assert (Hq : forall key, includes b (quoted key) = false).
  { intros key. destruct (includes b (quoted key)) eqn:E; trivial.
    destruct (includes_split _ _ E) as (a & c & ->).
    rewrite !forallb_app in H.
    apply andb_true_iff in H as [_ H]. apply andb_true_iff in H as [H _].
    unfold quoted in H. cbn [app forallb] in H.
    apply andb_true_iff in H as [H _]. discriminate. }
  now rewrite !Hq.
Qed.

(** The body the handler extracts from a quoted value holds no double
    quote. *)
Lemma extracted_body_no_quote response m1 :
  truthy_group (match1 (re_key (u "body")) response) = Some m1 ->
  body (manual_extraction response)
  = trim (replace_all re_esc_quote [DQ] (replace_all re_esc_n [LF] m1)) /\
  forallb (nch DQ) (body (manual_extraction response)) = true.
Proof.
  intros H. unfold manual_extraction. rewrite H. cbn [body].
  split; [reflexivity|].
  assert (Hm : forallb (nch DQ) m1 = true).
  { unfold truthy_group in H.
    destruct (match1 (re_key (u "body")) response) as [[|c m]|] eqn:E;
      try discriminate.
    injection H as <-. now apply match1_capture in E. }
  assert (Hn : forallb (nch DQ) (replace_all re_esc_n [LF] m1) = true).
  { apply (forallb_replaced (nch DQ) [BSL; 110%N] [LF] m1); trivial.
    apply replace_all_lit. discriminate. }
  apply forallb_trim.
  unfold replace_all at 1. unfold re_esc_quote.
  rewrite replace_go_nomatch; trivial.
  intros a b j E. rewrite match_at_lit.
  destruct (startsWith b [BSL; DQ]) eqn:Es; trivial.
  rewrite E, forallb_app in Hn. apply andb_true_iff in Hn as [_ Hn].
  apply (startsWith_forallb (nch DQ) _ _ Es) in Hn. discriminate.
Qed.





(** *** Envelopes *)

Lemma trimStart_head c s : is_ws c = false -> trimStart (c :: s) = c :: s.
Proof. intros H. cbn [trimStart]. now rewrite H. Qed.

Lemma trim_ends c mid d :
  is_ws c = false -> is_ws d = false ->
  trim (c :: mid ++ [d]) = c :: mid ++ [d].
Proof.
  intros Hc Hd.
  assert (E : rev (c :: mid ++ [d]) = d :: rev mid ++ [c]).
  { cbn [rev]. now rewrite rev_app_distr. }
  unfold trim, trimEnd. rewrite trimStart_head by trivial.
  rewrite E, trimStart_head by trivial.
  rewrite <- E. apply rev_involutive.
Qed.

Lemma startsWith_prefix s p q :
  startsWith s (p ++ q) = true -> startsWith s p = true.
Proof.
  revert s. induction p as [|c p IH]; intros s H; [reflexivity|].
  cbn [app startsWith] in H |- *. destruct s as [|d s]; [discriminate|].
  apply andb_true_iff in H as [Hc H]. now rewrite Hc, (IH s H).
Qed.

Lemma includes_prefix s p q :
  includes s (p ++ q) = true -> includes s p = true.
Proof.
  induction s as [|c s IH]; cbn [includes]; intros H.
  - rewrite orb_false_r in H |- *. now apply startsWith_prefix with (q := q).
  - apply orb_true_iff in H as [H|H].
    + now rewrite (startsWith_prefix _ _ _ H).
    + now rewrite (IH H), orb_true_r.
Qed.

Lemma strip_fences_none s : includes s fence = false -> strip_fences s = s.
Proof.
  intros H. unfold strip_fences.
  destruct (includes s fence_json) eqn:E.
  - change fence_json with (fence ++ u "json") in E.
    apply includes_prefix in E. congruence.
  - now rewrite H.
Qed.

Lemma lastIndexOf_last s c : lastIndexOf (s ++ [c]) c = Some (List.length s).
Proof.
  induction s as [|d s IH]; cbn [app lastIndexOf List.length].
  - now rewrite N.eqb_refl.
  - now rewrite IH.
Qed.

Lemma brace_bound_braced mid :
  brace_bound (LBRACE :: mid ++ [RBRACE]) = LBRACE :: mid ++ [RBRACE].
Proof.
  unfold brace_bound. cbn [indexOf]. rewrite N.eqb_refl.
  change (LBRACE :: mid ++ [RBRACE]) with ((LBRACE :: mid) ++ [RBRACE]) at 1.
  rewrite lastIndexOf_last. unfold substring.
  rewrite Nat.min_0_l, Nat.max_0_l, Nat.sub_0_r. cbn [skipn].
  apply firstn_all2. cbn [List.length]. rewrite length_app.
  cbn [List.length]. lia.
Qed.

(** The json fence and the white space after it, at the head of the text. *)
Lemma match_at_fence_json i ws1 c t :
  forallb is_ws ws1 = true -> is_ws c = false ->
  match_at re_fence_json i (fence_json ++ ws1 ++ c :: t)
  = Some (List.length (fence_json ++ ws1), None).
Proof.
  intros Hw Hc. unfold match_at, re_fence_json. cbn [rmatch].
  rewrite rmatch_lit. cbn [rest]. rewrite startsWith_app.
  unfold ws_star. cbn [rmatch].
  rewrite (star_class_all is_ws Some ws1 _ (c :: t) _
             (advance (advance (MState i (fence_json ++ ws1 ++ c :: t) None)
                               fence_json) ws1)); trivial.
  - unfold advance. cbn [pos rest cap]. f_equal. f_equal.
    rewrite length_app. lia.
  - unfold advance. cbn [rest]. rewrite skipn_app, skipn_all, Nat.sub_diag.
    cbn [skipn app]. rewrite length_app. lia.
Qed.

(** The fence at the very end of the text. *)
Lemma match_at_fence_end i :
  match_at re_fence_end i fence = Some (List.length fence, None).
Proof.
  unfold match_at, re_fence_end. cbn [rmatch]. rewrite rmatch_lit.
  cbn. f_equal. f_equal. lia.
Qed.

(** A text that does not hold [c] starts [a ++ c :: y] only if it starts
    [a ++ [c]]. *)
Lemma startsWith_stop c p : forallb (nch c) p = true ->
  forall a y, startsWith (a ++ c :: y) p = startsWith (a ++ [c]) p.
Proof.
  induction p as [|d p IH]; intros Hp a y; [reflexivity|].
  cbn [forallb] in Hp. apply andb_true_iff in Hp as [Hd Hp].
  destruct a as [|e a]; cbn [app startsWith].
  - unfold nch in Hd. apply negb_true_iff in Hd.
    now rewrite N.eqb_sym, Hd.
  - now rewrite (IH Hp a y).
Qed.

Lemma startsWith_head_false c s d p :
  N.eqb d c = false -> startsWith (c :: s) (d :: p) = false.
Proof. intros H. cbn [startsWith]. now rewrite H. Qed.

Lemma is_ws_not_fence w s : is_ws w = true -> startsWith (w :: s) fence = false.
Proof.
  intros H. apply startsWith_head_false.
  destruct (N.eqb 96 w) eqn:E; trivial.
  apply N.eqb_eq in E. subst w. discriminate.
Qed.

(** No fence starts inside [j ++ ws2] when none is in [j], [j] ends with a
    closing brace and [ws2] is white space: whatever follows. *)
Lemma no_fence_before mid ws2 tail :
  includes (LBRACE :: mid ++ [RBRACE]) fence = false ->
  forallb is_ws ws2 = true ->
  forall a b, (LBRACE :: mid ++ [RBRACE]) ++ ws2 = a ++ b -> b <> [] ->
              startsWith (b ++ tail) fence = false.
Proof.
  intros Hj Hw a b E Hb.
  apply app_eq_app in E as [l [[E1 E2]|[E1 E2]]].
  - (* b is l ++ ws2 with l a suffix of j *)
    subst b. destruct l as [|x l].
    + cbn [app] in *. destruct ws2 as [|w ws2]; [now destruct Hb|].
      cbn [app]. apply is_ws_not_fence.
      cbn [forallb] in Hw. now apply andb_true_iff in Hw as [Hw _].
    + assert (Hl : exists l', x :: l = l' ++ [RBRACE]).
      { destruct (exists_last (l := x :: l)) as (l' & z & El); [discriminate|].
        exists l'. rewrite El. f_equal. f_equal.
        change (LBRACE :: mid ++ [RBRACE]) with ((LBRACE :: mid) ++ [RBRACE]) in E1.
        rewrite El, app_assoc in E1.
        now apply app_inj_tail in E1 as [_ E1]. }
      destruct Hl as [l' El]. rewrite El, <- !app_assoc. cbn [app].
      rewrite startsWith_stop by reflexivity.
      rewrite <- El. apply includes_suffix with (a := a).
      now rewrite <- E1.
  - (* b is a suffix of ws2 *)
    destruct b as [|w b]; [now destruct Hb|].
    assert (Hin : In w ws2) by (rewrite E2; apply in_or_app; right; now left).
    rewrite forallb_forall in Hw. cbn [app]. apply is_ws_not_fence. auto.
Qed.

Lemma lastIndexOf_app_none s t c :
  forallb (nch c) t = true -> s <> [] ->
  lastIndexOf (s ++ t) c = lastIndexOf s c.
Proof.
  intros Ht. induction s as [|d s IH]; intros Hs; [now destruct Hs|].
  cbn [app lastIndexOf]. destruct s as [|e s].
  - cbn [app]. clear IH.
    assert (H : lastIndexOf t c = None).
    { induction t as [|y t IHt]; [reflexivity|].
      cbn [forallb] in Ht. apply andb_true_iff in Ht as [Hy Ht].
      cbn [lastIndexOf]. rewrite (IHt Ht).
      unfold nch in Hy. apply negb_true_iff in Hy.
      now rewrite N.eqb_sym, Hy. }
    now rewrite H.
  - now rewrite IH by discriminate.
Qed.

Lemma is_ws_not_brace ws2 :
  forallb is_ws ws2 = true -> forallb (nch RBRACE) ws2 = true.
Proof.
  intros H. rewrite forallb_forall in H |- *. intros x Hx.
  specialize (H x Hx). unfold nch.
  destruct (N.eqb RBRACE x) eqn:E; trivial.
  apply N.eqb_eq in E. subst x. discriminate.
Qed.

Lemma brace_bound_trailing mid ws2 :
  forallb is_ws ws2 = true ->
  brace_bound ((LBRACE :: mid ++ [RBRACE]) ++ ws2) = LBRACE :: mid ++ [RBRACE].
Proof.
  intros Hw. unfold brace_bound. cbn [app indexOf]. rewrite N.eqb_refl.
  change (LBRACE :: (mid ++ [RBRACE]) ++ ws2)
    with ((LBRACE :: mid ++ [RBRACE]) ++ ws2).
  rewrite lastIndexOf_app_none by (try apply is_ws_not_brace; trivial; discriminate).
  change (LBRACE :: mid ++ [RBRACE]) with ((LBRACE :: mid) ++ [RBRACE]) at 1.
  rewrite lastIndexOf_last. unfold substring.
  rewrite Nat.min_0_l, Nat.max_0_l, Nat.sub_0_r. cbn [skipn].
  replace (List.length (LBRACE :: mid) + 1)
    with (List.length (LBRACE :: mid ++ [RBRACE]) + 0)
    by (cbn [List.length]; rewrite length_app; cbn [List.length]; lia).
  rewrite firstn_app_2. cbn [firstn]. apply app_nil_r.
Qed.

(** What the fence stripping leaves of an envelope inside json fences. *)
Lemma strip_fences_fenced mid ws1 ws2 :
  includes (LBRACE :: mid ++ [RBRACE]) fence = false ->
  forallb is_ws ws1 = true -> forallb is_ws ws2 = true ->
  strip_fences (fence_json ++ ws1 ++ (LBRACE :: mid ++ [RBRACE]) ++ ws2 ++ fence)
  = (LBRACE :: mid ++ [RBRACE]) ++ ws2.
Proof.
  intros Hj H1 H2. set (j := LBRACE :: mid ++ [RBRACE]) in *.
  assert (Hpre : forall tail a b, j ++ ws2 = a ++ b -> b <> [] ->
                   startsWith (b ++ tail) fence = false).
  { intros tail a b. now apply no_fence_before. }
  unfold strip_fences.
  rewrite (includes_startsWith _ _ (startsWith_app fence_json _)).
  assert (E1 : replace_all re_fence_json []
                 (fence_json ++ ws1 ++ j ++ ws2 ++ fence)
               = (j ++ ws2) ++ fence).
  { unfold replace_all. rewrite (app_assoc fence_json).
    rewrite replace_go_hit with (c := None).
    - cbn [app]. rewrite app_assoc. apply replace_go_nomatch.
      intros a b i E. apply match_at_lit_then_miss.
      destruct (startsWith b fence_json) eqn:Eb; trivial.
      change fence_json with (fence ++ u "json") in Eb.
      pose proof (startsWith_prefix _ _ _ Eb) as Ef.
      apply app_eq_app in E as [l [[Ea El]|[Ea El]]].
      + destruct l as [|x l].
        * cbn [app] in El. subst b. discriminate.
        * rewrite El in Ef. rewrite (Hpre fence a (x :: l)) in Ef;
            [discriminate|exact Ea|discriminate].
      + assert (Hlen : List.length b <= List.length fence).
        { rewrite El, length_app. lia. }
        destruct (startsWith_split _ _ Eb) as [b' Eb'].
        rewrite Eb', !length_app in Hlen. cbn in Hlen. lia.
    - destruct fence_json eqn:Ej; discriminate.
    - rewrite <- app_assoc. subst j. cbn [app].
      now apply match_at_fence_json. }
  rewrite E1.
  assert (E2 : replace_all re_fence_end [] ((j ++ ws2) ++ fence) = j ++ ws2).
  { unfold replace_all, re_fence_end.
    rewrite replace_go_tail with (c := None).
    - apply app_nil_r.
    - discriminate.
    - intros a b. apply Hpre.
    - intros i. apply match_at_fence_end.
    - reflexivity. }
  rewrite E2.
  assert (E3 : includes (j ++ ws2) fence = false).
  { destruct (includes (j ++ ws2) fence) eqn:E; trivial.
    destruct (includes_split _ _ E) as (a & b & Eab).
    assert (H : startsWith ((fence ++ b) ++ []) fence = false).
    { apply (Hpre [] a (fence ++ b) Eab). discriminate. }
    rewrite app_nil_r, startsWith_app in H. discriminate. }
  now rewrite E3.
Qed.

Lemma trim_fenced ws1 j ws2 :
  trim (fence_json ++ ws1 ++ j ++ ws2 ++ fence)
  = fence_json ++ ws1 ++ j ++ ws2 ++ fence.
Proof.
  assert (E : fence_json ++ ws1 ++ j ++ ws2 ++ fence
              = 96%N :: (u "``json" ++ ws1 ++ j ++ ws2 ++ u "``") ++ [96%N]).
  { change fence_json with (96%N :: u "``json").
    change fence with (u "``" ++ [96%N]).
    cbn [app]. now rewrite <- !app_assoc. }
  rewrite E. now apply trim_ends.
Qed.

(** C8, as the code has it. For a text from an opening to a closing brace
    without code fence in it, which JSON.parse accepts and whose subject and
    body fields are strings, alone or between a json fence and a closing
    fence with optional white space around it, normalize returns the subject
    field without one leading and one trailing quote character and trimmed,
    and the body field treated likewise with each backslash followed by n
    turned into a line feed, provided that body shows no quoted subject or
    body key.  The two envelopes of the specification, one of them inside
    json fences, give (Hi, Line1 and Line2 on two lines) and (S, B). *)
Theorem envelope_fields mid ws1 ws2 parsed s b :
  let j := LBRACE :: mid ++ [RBRACE] in
  includes j fence = false ->
  JSON_parse j = Some parsed ->
  get_prop parsed (u "subject") = Return (Some (JStr s)) ->
  get_prop parsed (u "body") = Return (Some (JStr b)) ->
  has_json_key (clean_body b) = false ->
  forallb is_ws ws1 = true ->
  forallb is_ws ws2 = true ->
  normalize j = Return (mkEmail (clean_subject s) (clean_body b)) /\
  normalize (fence_json ++ ws1 ++ j ++ ws2 ++ fence)
    = Return (mkEmail (clean_subject s) (clean_body b)) /\
  normalize envelope_hi
    = Return (mkEmail (u "Hi") (u "Line1" ++ [LF] ++ u "Line2")) /\
  normalize envelope_fenced = Return (mkEmail (u "S") (u "B")).
Proof.
  intros j Hf Hp Hs Hb Hk H1 H2.
  assert (Hj : parse_branch j
               = Return (mkEmail (clean_subject s) (clean_body b))).
  { unfold parse_branch, parse_json. rewrite Hp. cbn [bind].
    rewrite Hs, Hb. cbn [bind string_or]. now rewrite Hk. }
  split; [|split; [|split; vm_compute; reflexivity]].
  - rewrite normalize_cases. unfold bounded. subst j.
    rewrite trim_ends, strip_fences_none, brace_bound_braced by trivial.
    now rewrite Hj.
  - rewrite normalize_cases. unfold bounded.
    rewrite trim_fenced. subst j.
    rewrite strip_fences_fenced, brace_bound_trailing by trivial.
    now rewrite Hj.
Qed.

Lemma envelope_fields_witness :
  normalize envelope_plan
    = Return (mkEmail (clean_subject (u "Re: 'Plan'")) (clean_body (u "B"))) /\
  normalize (fence_json ++ [LF] ++ envelope_plan ++ [LF] ++ fence)
    = Return (mkEmail (clean_subject (u "Re: 'Plan'")) (clean_body (u "B"))) /\
  normalize envelope_hi
    = Return (mkEmail (u "Hi") (u "Line1" ++ [LF] ++ u "Line2")) /\
  normalize envelope_fenced = Return (mkEmail (u "S") (u "B")).
Proof.
  apply (envelope_fields
           (removelast (tl envelope_plan)) [LF] [LF]
           (JObj [(u "subject", JStr (u "Re: 'Plan'")); (u "body", JStr (u "B"))])
           (u "Re: 'Plan'") (u "B")).
  - vm_compute. reflexivity.
  - vm_compute. reflexivity.
  - vm_compute. reflexivity.
  - vm_compute. reflexivity.
  - vm_compute. reflexivity.
  - reflexivity.
  - reflexivity.
Defined.

(** C8 as stated fails on an envelope whose subject ends with an apostrophe:
    the subject that comes back has lost it. *)
Lemma envelope_fields_counterexample :
  JSON_parse envelope_plan
    = Some (JObj [(u "subject", JStr (u "Re: 'Plan'"));
                  (u "body", JStr (u "B"))]) /\
  normalize envelope_plan = Return (mkEmail (u "Re: 'Plan") (u "B")) /\
  normalize envelope_plan <> Return (mkEmail (u "Re: 'Plan'") (u "B")).
Proof. vm_compute. repeat split. discriminate. Qed.

End NormalizeFacts.

(** ** More on strings *)

(** *** Quote stripping *)

Lemma strip_end_cons c d t : strip_end (c :: d :: t) = c :: strip_end (d :: t).
Proof. reflexivity. Qed.

Lemma match_at_quotes_start c t :
  is_quote c = true -> match_at re_quotes 0 (c :: t) = Some (1, None).
Proof.
  intros H. unfold match_at, re_quotes. cbn [rmatch pos rest cap Nat.eqb].
  now rewrite H.
Qed.

Lemma match_at_quotes_plain i c t :
  is_quote c = false -> match_at re_quotes i (c :: t) = None.
Proof.
  intros H. unfold match_at, re_quotes. cbn [rmatch pos rest cap].
  rewrite H. now destruct (i =? 0).
Qed.

Lemma match_at_quotes_inner i c d t :
  match_at re_quotes (S i) (c :: d :: t) = None.
Proof.
  unfold match_at, re_quotes. cbn [rmatch pos rest cap Nat.eqb].
  now destruct (is_quote c).
Qed.

Lemma match_at_quotes_last i c :
  is_quote c = true -> match_at re_quotes (S i) [c] = Some (1, None).
Proof.
  intros H. unfold match_at, re_quotes. cbn [rmatch pos rest cap Nat.eqb].
  rewrite H. cbn [pos cap]. f_equal. f_equal. lia.
Qed.

Lemma match_at_quotes_nil i : match_at re_quotes i [] = None.
Proof.
  unfold match_at, re_quotes. cbn [rmatch pos rest cap].
  now destruct (i =? 0).
Qed.

(** Past the first index only a final quote character is removed. *)
Lemma replace_go_quotes_tail : forall t i,
  replace_go re_quotes [] (S i) 0 t = strip_end t.
Proof.
  induction t as [|c t IH]; intros i.
  - now rewrite replace_go_step, match_at_quotes_nil.
  - destruct t as [|d t].
    + rewrite replace_go_step.
      destruct (is_quote c) eqn:E.
      * rewrite match_at_quotes_last by trivial. cbn [app strip_end].
        rewrite E. now rewrite replace_go_step, match_at_quotes_nil.
      * rewrite match_at_quotes_plain by trivial. cbn [strip_end].
        rewrite E. now rewrite replace_go_step, match_at_quotes_nil.
    + rewrite replace_go_miss by apply match_at_quotes_inner.
      now rewrite IH, strip_end_cons.
Qed.

(** The quote pattern removes one leading and one trailing quote
    character. *)
Lemma replace_all_quotes s :
  replace_all re_quotes [] s = strip_end (strip_start s).
Proof.
  unfold replace_all. destruct s as [|c t].
  - now rewrite replace_go_step, match_at_quotes_nil.
  - cbn [strip_start]. destruct (is_quote c) eqn:E.
    + rewrite replace_go_step, match_at_quotes_start by trivial.
      cbn [app]. apply replace_go_quotes_tail.
    + rewrite replace_go_miss by now apply match_at_quotes_plain.
      rewrite replace_go_quotes_tail.
      destruct t as [|d t]; [cbn [strip_end]; now rewrite E|].
      now rewrite strip_end_cons.
Qed.

(** *** trim *)

Lemma trimStart_split s :
  exists w, s = w ++ trimStart s /\ forallb is_ws w = true.
Proof.
  induction s as [|c s (w & E & Hw)].
  - now exists [].
  - cbn [trimStart]. destruct (is_ws c) eqn:Hc.
    + exists (c :: w). cbn [app forallb]. now rewrite Hc, <- E.
    + now exists [].
Qed.

Lemma trimStart_head_ok s :
  match trimStart s with [] => True | c :: _ => is_ws c = false end.
Proof.
  induction s as [|c s IH]; cbn [trimStart]; trivial.
  destruct (is_ws c) eqn:Hc; trivial.
Qed.

Lemma trimStart_fixed s :
  match s with [] => True | c :: _ => is_ws c = false end ->
  trimStart s = s.
Proof. destruct s as [|c s]; trivial. cbn [trimStart]. now intros ->. Qed.

Lemma trimStart_idem s : trimStart (trimStart s) = trimStart s.
Proof. apply trimStart_fixed, trimStart_head_ok. Qed.

(** What [trim] returns starts and ends with a code unit that is no white
    space. *)
Lemma trim_head_ok s :
  match trim s with [] => True | c :: _ => is_ws c = false end.
Proof.
  unfold trim, trimEnd.
  pose proof (trimStart_head_ok s) as Hs.
  destruct (trimStart_split (rev (trimStart s))) as (w & E & Hw).
  set (t' := trimStart (rev (trimStart s))) in *.
  apply (f_equal (@rev N)) in E. rewrite rev_involutive, rev_app_distr in E.
  destruct (rev t') as [|c r] eqn:Er; trivial.
  rewrite E in Hs. exact Hs.
Qed.

Lemma trim_last_ok s :
  match rev (trim s) with [] => True | c :: _ => is_ws c = false end.
Proof.
  unfold trim, trimEnd. rewrite rev_involutive. apply trimStart_head_ok.
Qed.

Lemma trim_fixed s :
  match s with [] => True | c :: _ => is_ws c = false end ->
  match rev s with [] => True | c :: _ => is_ws c = false end ->
  trim s = s.
Proof.
  intros H1 H2. unfold trim, trimEnd.
  rewrite (trimStart_fixed s H1), (trimStart_fixed (rev s) H2).
  apply rev_involutive.
Qed.

Lemma trim_idem s : trim (trim s) = trim s.
Proof. apply trim_fixed; [apply trim_head_ok|apply trim_last_ok]. Qed.

Lemma no_ws_app a b : no_ws (a ++ b) = no_ws a && no_ws b.
Proof. apply forallb_app. Qed.

(** Trimming changes nothing in a text without white space. *)
Lemma no_ws_trim s : no_ws s = true -> trim s = s.
Proof.
  unfold no_ws. rewrite forallb_forall. intros H. apply trim_fixed.
  - destruct s as [|c s]; trivial. apply negb_true_iff, H. now left.
  - destruct (rev s) as [|c r] eqn:E; trivial.
    apply negb_true_iff, H, in_rev. rewrite E. now left.
Qed.

(** *** indexOf, lastIndexOf and the brace bounds *)

Lemma has_cons c d s : has c (d :: s) = N.eqb c d || has c s.
Proof. reflexivity. Qed.

Lemma has_app c a b : has c (a ++ b) = has c a || has c b.
Proof. apply existsb_app. Qed.

Lemma indexOf_none s c : indexOf s c = None <-> has c s = false.
Proof.
  induction s as [|d s IH]; [now split|].
  cbn [indexOf]. rewrite has_cons, (N.eqb_sym c d).
  destruct (N.eqb d c); [now split|].
  destruct (indexOf s c); [|now rewrite <- IH].
  split; [discriminate|]. intros H. cbn [orb] in H.
  apply IH in H. discriminate.
Qed.

Lemma indexOf_some s c i :
  indexOf s c = Some i ->
  exists a b, s = a ++ c :: b /\ List.length a = i /\ has c a = false.
Proof.
  revert i. induction s as [|d s IH]; intros i; [discriminate|].
  cbn [indexOf]. destruct (N.eqb d c) eqn:E.
  - intros H. injection H as <-. apply N.eqb_eq in E. subst d.
    now exists [], s.
  - destruct (indexOf s c) as [k|]; [|discriminate].
    intros H. injection H as <-.
    destruct (IH k eq_refl) as (a & b & -> & Hl & Ha).
    exists (d :: a), b. repeat split; [cbn; now rewrite Hl|].
    now rewrite has_cons, N.eqb_sym, E, Ha.
Qed.

Lemma lastIndexOf_none s c : lastIndexOf s c = None <-> has c s = false.
Proof.
  induction s as [|d s IH]; [now split|].
  cbn [lastIndexOf]. rewrite has_cons, (N.eqb_sym c d).
  destruct (lastIndexOf s c).
  - split; [discriminate|]. intros H.
    apply orb_false_iff in H as [_ H]. apply IH in H. discriminate.
  - destruct (N.eqb d c); [now split|]. now rewrite <- IH.
Qed.

Lemma lastIndexOf_some s c j :
  lastIndexOf s c = Some j ->
  exists a b, s = a ++ c :: b /\ List.length a = j /\ has c b = false.
Proof.
  revert j. induction s as [|d s IH]; intros j; [discriminate|].
  cbn [lastIndexOf]. destruct (lastIndexOf s c) as [k|] eqn:E.
  - intros H. injection H as <-.
    destruct (IH k eq_refl) as (a & b & -> & Hl & Hb).
    exists (d :: a), b. repeat split; trivial. cbn; now rewrite Hl.
  - destruct (N.eqb d c) eqn:Ed; [|discriminate].
    intros H. injection H as <-. apply N.eqb_eq in Ed. subst d.
    exists [], s. repeat split. now apply lastIndexOf_none.
Qed.

(** Two ways to cut a text at different lengths. *)
Lemma app_cut (a b a' b' : jsstring) x y :
  a ++ x :: b = a' ++ y :: b' -> List.length a < List.length a' ->
  exists m, a' = a ++ x :: m /\ b = m ++ y :: b'.
Proof.
  revert a'. induction a as [|c a IH]; intros a' E Hl.
  - destruct a' as [|c' a']; [cbn in Hl; lia|].
    cbn [app] in E. injection E as -> ->. now exists a'.
  - destruct a' as [|c' a']; [cbn in Hl; lia|].
    cbn [app] in E. injection E as -> E.
    destruct (IH a' E) as (m & -> & ->); [cbn in Hl; lia|]. now exists m.
Qed.

Lemma app_same_cut (a b a' b' : jsstring) x y :
  a ++ x :: b = a' ++ y :: b' -> List.length a = List.length a' -> x = y.
Proof.
  revert a'. induction a as [|c a IH]; intros [|c' a'] E Hl;
    try (cbn in Hl; lia).
  - now injection E.
  - cbn [app] in E. injection E as _ E. apply (IH a' E). cbn in Hl. lia.
Qed.

Lemma has_forallb c s : has c s = false <-> forallb (nch c) s = true.
Proof.
  induction s as [|d s IH]; [now split|].
  rewrite has_cons. cbn [forallb]. unfold nch at 1.
  destruct (N.eqb c d); cbn [negb orb andb]; [now split|exact IH].
Qed.

Lemma includes_none c s p :
  forallb (nch c) s = true -> has c p = true -> includes s p = false.
Proof.
  intros Hs Hp. destruct (includes s p) eqn:E; trivial.
  destruct (includes_split _ _ E) as (a & b & ->).
  rewrite !forallb_app in Hs.
  apply andb_true_iff in Hs as [_ Hs]. apply andb_true_iff in Hs as [Hs _].
  apply has_forallb in Hs. congruence.
Qed.

Lemma includes_sub a l b p :
  includes (a ++ l ++ b) p = false -> includes l p = false.
Proof.
  intros H. destruct (includes l p) eqn:E; trivial.
  destruct (includes_split _ _ E) as (a' & b' & ->).
  replace (a ++ (a' ++ p ++ b') ++ b) with ((a ++ a') ++ p ++ (b' ++ b)) in H
    by now rewrite <- !app_assoc.
  now rewrite includes_app in H.
Qed.

Lemma trim_sub s : exists a b, s = a ++ trim s ++ b.
Proof.
  destruct (trimStart_split s) as (w & E & _).
  destruct (trimStart_split (rev (trimStart s))) as (w' & E' & _).
  exists w, (rev w'). rewrite E at 1. f_equal.
  apply (f_equal (@rev N)) in E'. rewrite rev_involutive, rev_app_distr in E'.
  exact E'.
Qed.

Lemma findIndex_none (A : Type) (p : A -> bool) l :
  (forall x, In x l -> p x = false) -> findIndex p l = None.
Proof.
  induction l as [|x l IH]; intros H; trivial. cbn [findIndex].
  rewrite (H x (or_introl eq_refl)), IH; trivial.
  intros y Hy. apply H. now right.
Qed.

Lemma split_lf_sub : forall s,
  match split_lf s with
  | [] => False
  | x :: ls =>
      (exists b, s = x ++ b) /\
      forall l, In l ls -> exists a b, s = a ++ l ++ b
  end.
Proof.
  induction s as [|c s IH]; cbn [split_lf].
  - split; [now exists []|intros l []].
  - destruct (split_lf s) as [|x ls]; [destruct IH|].
    destruct IH as [[b Eb] IH].
    destruct (N.eqb c LF).
    + split; [now exists (c :: s)|]. intros l [<-|H].
      * exists [c], b. cbn [app]. now rewrite <- Eb.
      * destruct (IH l H) as (a & b' & E). exists (c :: a), b'.
        cbn [app]. now rewrite <- E.
    + split; [exists b; cbn [app]; now rewrite <- Eb|]. intros l H.
      destruct (IH l H) as (a & b' & E). exists (c :: a), b'.
      cbn [app]. now rewrite <- E.
Qed.

Lemma split_lf_in s l :
  In l (split_lf s) -> exists a b, s = a ++ l ++ b.
Proof.
  intros H. pose proof (split_lf_sub s) as S.
  destruct (split_lf s) as [|x ls]; [destruct S|].
  destruct S as [[b Eb] S]. destruct H as [<-|H]; [now exists [], b|].
  now apply S.
Qed.

Lemma strip_end_fixed : forall s,
  match rev s with
  | [] => True
  | c :: _ => is_quote c = false
  end -> strip_end s = s.
Proof.
  induction s as [|c s IH]; trivial. destruct s as [|d s].
  - cbn. intros ->. reflexivity.
  - intros H. rewrite strip_end_cons. f_equal. apply IH.
    change (rev (c :: d :: s)) with (rev (d :: s) ++ [c]) in H.
    destruct (rev (d :: s)) as [|x r] eqn:E; [|exact H].
    apply (f_equal (@List.length N)) in E. rewrite length_rev in E.
    discriminate.
Qed.

Lemma trimStart_first s c :
  startsWith (trimStart s) [c] = true ->
  match s with
  | [] => True
  | d :: _ => is_ws d = true \/ d = c
  end.
Proof.
  destruct s as [|d s]; trivial. cbn [trimStart].
  destruct (is_ws d); [now left|]. cbn [startsWith].
  rewrite andb_true_r. intros H. right. symmetry. now apply N.eqb_eq.
Qed.

Lemma startsWith_trim_head s c :
  startsWith (trim s) [c] = true -> startsWith (trimStart s) [c] = true.
Proof.
  destruct (trimStart_split (rev (trimStart s))) as (w & E & Hw).
  unfold trim, trimEnd.
  apply (f_equal (@rev N)) in E. rewrite rev_involutive, rev_app_distr in E.
  intros H. rewrite E. apply startsWith_split in H as [b ->].
  cbn [app startsWith]. now rewrite N.eqb_refl.
Qed.

Lemma quote_not_ws c : is_quote c = true -> is_ws c = false.
Proof.
  unfold is_quote. intros H. apply orb_true_iff in H as [H|H];
    apply N.eqb_eq in H; subst c; reflexivity.
Qed.

Lemma app_longer (A : Type) : forall (l p d q : list A) x,
  l ++ x :: d = p ++ q -> List.length l < List.length p ->
  exists m, d = m ++ q.
Proof.
  induction l as [|c l IH]; intros p d q x E Hl.
  - destruct p as [|y p]; [cbn in Hl; lia|]. cbn [app] in E.
    injection E as _ ->. now exists p.
  - destruct p as [|y p]; [cbn in Hl; lia|]. cbn [app] in E.
    injection E as _ E. apply (IH _ _ _ _ E). cbn in Hl. lia.
Qed.

Lemma skipn_past (A : Type) (l : list A) x d :
  skipn (S (List.length l)) (l ++ x :: d) = d.
Proof. induction l as [|y l IH]; [reflexivity|exact IH]. Qed.

(** ** More on the matcher *)

(** *** Repetition of a class with backtracking *)

Lemma star_class_some p k : forall a x b fuel,
  rest x = a ++ b ->
  forallb p a = true ->
  List.length a < fuel ->
  k (advance x a) <> None ->
  star_loop (rmatch (Chr p)) k fuel x <> None.
Proof.
  induction a as [|d a IH]; intros x b fuel Hr Hp Hf Hk.
  - rewrite advance_nil in Hk. destruct fuel as [|f]; [exact Hk|].
    rewrite star_loop_S. now destruct (rmatch (Chr p) x _).
  - destruct fuel as [|f]; [cbn in Hf; lia|].
    cbn [forallb] in Hp. apply andb_true_iff in Hp as [Hd Hp].
    rewrite star_loop_S, rmatch_Chr, Hr. cbn [app]. rewrite Hd. cbn [pos].
    replace (S (pos x) =? pos x) with false
      by (symmetry; apply Nat.eqb_neq; lia).
    assert (H : star_loop (rmatch (Chr p)) k f
                  (MState (S (pos x)) (a ++ b) (cap x)) <> None).
    { apply (IH _ b); trivial; [cbn in Hf; lia|].
      now rewrite (advance_cons x d a (a ++ b)). }
    now destruct (star_loop _ _ _ _).
Qed.

Lemma star_class_found p k : forall fuel x z,
  star_loop (rmatch (Chr p)) k fuel x = Some z ->
  exists a b, rest x = a ++ b /\ forallb p a = true /\
              k (advance x a) = Some z.
Proof.
  induction fuel as [|f IH]; intros x z H.
  - exists [], (rest x). now rewrite advance_nil.
  - rewrite star_loop_S, rmatch_Chr in H.
    destruct (rest x) as [|c t] eqn:Er.
    + exists [], []. now rewrite advance_nil.
    + destruct (p c) eqn:Hc.
      * cbn [pos] in H.
        replace (S (pos x) =? pos x) with false in H
          by (symmetry; apply Nat.eqb_neq; lia).
        destruct (star_loop (rmatch (Chr p)) k f
                    (MState (S (pos x)) t (cap x))) as [w|] eqn:E.
        -- injection H as ->.
           apply IH in E as (a & b & Ea & Ha & Hk). cbn [rest] in Ea.
           exists (c :: a), b. rewrite Ea. repeat split.
           ++ cbn [forallb]. now rewrite Hc.
           ++ now rewrite <- (advance_cons x c a t).
        -- exists [], (c :: t). now rewrite advance_nil.
      * exists [], (c :: t). now rewrite advance_nil.
Qed.

(** One member of a class or more, then the continuation. *)
Lemma plus_class_iff p k x :
  rmatch (EmailService.Plus (Chr p)) x k <> None <->
  exists c a b, rest x = c :: a ++ b /\ p c = true /\ forallb p a = true /\
                k (MState (pos x + S (List.length a)) b (cap x)) <> None.
Proof.
  unfold EmailService.Plus. cbn [rmatch]. split.
  - destruct (rest x) as [|c t] eqn:Er; [now intros []|].
    destruct (p c) eqn:Hc; [|now intros []].
    cbn [rest pos cap].
    destruct (star_loop _ _ _ _) as [z|] eqn:E; [|now intros []].
    intros _. apply star_class_found in E as (a & b & Ea & Ha & Hk).
    cbn [rest] in Ea. exists c, a, b. rewrite Ea. repeat split; trivial.
    unfold advance in Hk. cbn [pos rest cap] in Hk.
    rewrite Ea, skipn_app, skipn_all, Nat.sub_diag in Hk. cbn [skipn app] in Hk.
    replace (pos x + S (List.length a)) with (S (pos x) + List.length a) by lia.
    now rewrite Hk.
  - intros (c & a & b & Er & Hc & Ha & Hk). rewrite Er, Hc. cbn [rest].
    apply (star_class_some p k a _ b); trivial.
    + rewrite length_app. lia.
    + unfold advance. cbn [pos rest cap].
      rewrite skipn_app, skipn_all, Nat.sub_diag. cbn [skipn app].
      now replace (S (pos x) + List.length a)
        with (pos x + S (List.length a)) by lia.
Qed.

Lemma exec_from_Bol r : forall s i,
  exec_from (Cat Bol r) (S i) s = None.
Proof.
  induction s as [|c s IH]; intros i; cbn [exec_from];
    unfold match_at; cbn [rmatch pos Nat.eqb]; trivial.
Qed.

Lemma chr_iff c k x :
  rmatch (Chr (ch c)) x k <> None <->
  exists t, rest x = c :: t /\ k (MState (S (pos x)) t (cap x)) <> None.
Proof.
  rewrite rmatch_Chr. split.
  - destruct (rest x) as [|d t]; [now intros []|].
    unfold ch. destruct (N.eqb c d) eqn:E; [|now intros []].
    apply N.eqb_eq in E. subst d. intros H. now exists t.
  - intros (t & -> & H). unfold ch. now rewrite N.eqb_refl.
Qed.

Lemma rmatch_Cat r1 r2 x k :
  rmatch (Cat r1 r2) x k = rmatch r1 x (fun y => rmatch r2 y k).
Proof. reflexivity. Qed.

Lemma eol_iff x : rmatch Eol x Some <> None <-> rest x = [].
Proof.
  cbn [rmatch]. destruct (rest x); split; congruence.
Qed.

(** Greedy repetition of a class gives back down to the last position where
    the continuation succeeds. *)
Lemma star_class_last p k : forall a x b fuel z,
  rest x = a ++ b ->
  forallb p a = true ->
  List.length a < fuel ->
  k (advance x a) = Some z ->
  (forall c e, b = c ++ e -> c <> [] -> k (advance x (a ++ c)) = None) ->
  star_loop (rmatch (Chr p)) k fuel x = Some z.
Proof.
  induction a as [|d a IH]; intros x b fuel z Hr Hp Hf Hk Hl.
  - rewrite advance_nil in Hk. destruct fuel as [|f]; [exact Hk|].
    rewrite star_loop_S, rmatch_Chr. cbn [app] in Hr, Hl. rewrite Hr.
    destruct b as [|c t]; [exact Hk|].
    destruct (p c); [|exact Hk]. cbn [pos].
    replace (S (pos x) =? pos x) with false
      by (symmetry; apply Nat.eqb_neq; lia).
    destruct (star_loop (rmatch (Chr p)) k f (MState (S (pos x)) t (cap x)))
      as [w|] eqn:E; [|exact Hk].
    apply star_class_found in E as (a' & b' & Ea & _ & Hw).
    cbn [rest] in Ea. rewrite (advance_cons x c a' t Hr) in Hw.
    rewrite (Hl (c :: a') b') in Hw; [discriminate|now rewrite Ea|discriminate].
  - destruct fuel as [|f]; [cbn in Hf; lia|].
    cbn [forallb] in Hp. apply andb_true_iff in Hp as [Hd Hp].
    rewrite star_loop_S, rmatch_Chr, Hr. cbn [app]. rewrite Hd. cbn [pos].
    replace (S (pos x) =? pos x) with false
      by (symmetry; apply Nat.eqb_neq; lia).
    rewrite (IH (MState (S (pos x)) (a ++ b) (cap x)) b f z); trivial.
    + cbn in Hf. lia.
    + now rewrite (advance_cons x d a (a ++ b)).
    + intros c e Eb Hc. rewrite (advance_cons x d (a ++ c) (a ++ b)) by trivial.
      exact (Hl c e Eb Hc).
Qed.

Lemma exec_from_hit r i s n c :
  match_at r i s = Some (n, c) -> exec_from r i s = Some (i, n, c).
Proof. intros H. destruct s; cbn [exec_from]; now rewrite H. Qed.

Lemma exec_from_none r : forall s i,
  (forall a b j, s = a ++ b -> match_at r j b = None) ->
  exec_from r i s = None.
Proof.
  induction s as [|c s IH]; intros i H.
  - cbn [exec_from]. now rewrite (H [] [] i eq_refl).
  - cbn [exec_from]. rewrite (H [] (c :: s) i eq_refl).
    apply IH. intros a b j E. apply (H (c :: a) b j). now rewrite E.
Qed.

Lemma match1_key_none key s :
  forallb (nch DQ) s = true -> match1 (re_key key) s = None.
Proof.
  intros H. unfold match1, exec. rewrite exec_from_none; trivial.
  intros a b j E. apply match_at_lit_then_miss.
  destruct (startsWith b ([DQ] ++ key ++ [DQ])) eqn:S; trivial.
  apply startsWith_split in S as [t ->]. rewrite E, !forallb_app in H.
  apply andb_true_iff in H as [_ H]. apply andb_true_iff in H as [H _].
  cbn [app forallb] in H. apply andb_true_iff in H as [H _]. discriminate.
Qed.

Lemma replace_all_none r repl s :
  (forall a b j, s = a ++ b -> match_at r j b = None) ->
  replace_all r repl s = s.
Proof. apply replace_go_nomatch. Qed.

Lemma replace_all_esc_n_none s :
  forallb (nch BSL) s = true -> replace_all re_esc_n [LF] s = s.
Proof.
  intros H. apply replace_all_none. intros a b j E.
  unfold re_esc_n. rewrite match_at_lit.
  destruct (startsWith b [BSL; 110%N]) eqn:S; trivial.
  apply startsWith_split in S as [t ->]. rewrite E, forallb_app in H.
  apply andb_true_iff in H as [_ H]. cbn [app forallb] in H.
  apply andb_true_iff in H as [H _]. discriminate.
Qed.

(** Global removal of the members of a class. *)
Lemma replace_go_class p : forall s i,
  replace_go (Chr p) [] i 0 s = filter (fun c => negb (p c)) s.
Proof.
  induction s as [|c s IH]; intros i.
  - rewrite replace_go_step. unfold match_at. now rewrite rmatch_Chr.
  - rewrite replace_go_step. unfold match_at. rewrite rmatch_Chr.
    cbn [rest pos cap filter]. destruct (p c); cbn [negb pos cap].
    + replace (S i - i) with 1 by lia. cbn [app]. apply IH.
    + f_equal. apply IH.
Qed.

Lemma has_filter c p s :
  p c = true -> has c (filter (fun d => negb (p d)) s) = false.
Proof.
  intros H. induction s as [|d s IH]; trivial. cbn [filter].
  destruct (p d) eqn:E; cbn [negb]; trivial.
  rewrite has_cons, IH, orb_false_r.
  destruct (N.eqb c d) eqn:Ec; trivial.
  apply N.eqb_eq in Ec. subst d. congruence.
Qed.

(** ** JSON.parse: where an object comes from *)

Lemma skip_ws_suffix s : exists w, s = w ++ skip_ws s.
Proof.
  induction s as [|c s [w E]]; [now exists []|]. cbn [skip_ws].
  destruct (json_ws c); [|now exists []].
  exists (c :: w). cbn [app]. now rewrite <- E.
Qed.

(** An object comes from a text that holds an opening brace. *)
Lemma JSON_parse_object s m :
  JSON_parse s = Some (JObj m) -> has LBRACE s = true.
Proof.
  unfold JSON_parse. destruct (skip_ws_suffix s) as [w E].
  remember (skip_ws s) as s0 eqn:E0. clear E0. subst s.
  set (f := 2 * List.length s0 + 1).
  replace f with (S (f - 1)) by (unfold f; lia).
  rewrite has_app. destruct s0 as [|c t]; [discriminate|].
  cbn [parse_value]. rewrite has_cons, (N.eqb_sym LBRACE c).
  destruct (N.eqb c LBRACE); [now rewrite orb_true_r|].
  destruct (N.eqb c 91).
  { destruct (skip_ws t) as [|d t']; [discriminate|].
    destruct (N.eqb d 93).
    - destruct (skip_ws t'); discriminate.
    - destruct (parse_elements _ _) as [l r| |]; try discriminate.
      destruct (skip_ws r); discriminate. }
  destruct (N.eqb c DQ).
  { destruct (parse_chars t) as [[v r]|]; [|discriminate].
    destruct (skip_ws r); discriminate. }
  unfold parse_literal.
  destruct (N.eqb c 116).
  { destruct (startsWith _ _); [|discriminate].
    destruct (skip_ws _); discriminate. }
  destruct (N.eqb c 102).
  { destruct (startsWith _ _); [|discriminate].
    destruct (skip_ws _); discriminate. }
  destruct (N.eqb c 110).
  { destruct (startsWith _ _); [|discriminate].
    destruct (skip_ws _); discriminate. }
  destruct (lex_number _) as [[n r]|]; [|discriminate].
  destruct (skip_ws r); discriminate.
Qed.

(** ** Validation of addresses *)

Module ValidationFacts.
Import EmailService.

(** *** validateEmail *)

Lemma validateEmail_rmatch email :
  validateEmail email = true
  <-> rmatch emailRegex (MState 0 email None) Some <> None.
Proof.
  unfold validateEmail, test, exec.
  destruct email as [|c s]; cbn [exec_from]; unfold match_at.
  - destruct (rmatch _ _ Some); split; congruence.
  - destruct (rmatch _ _ Some); [split; congruence|].
    unfold emailRegex. rewrite exec_from_Bol. split; congruence.
Qed.

(** The parts of an accepted address. *)
Lemma validateEmail_parts email :
  validateEmail email = true ->
  exists l d t,
    email = l ++ 64%N :: d ++ 46%N :: t /\
    l <> [] /\ d <> [] /\ t <> [] /\
    forallb addr_char l = true /\ forallb addr_char d = true /\
    forallb addr_char t = true.
Proof.
  rewrite validateEmail_rmatch. unfold emailRegex. rewrite rmatch_Cat.
  change (rmatch Bol (MState 0 email None) ?k) with (k (MState 0 email None)).
  cbv beta. rewrite rmatch_Cat.
  intros H. apply plus_class_iff in H as (c1 & a1 & b1 & E1 & Hc1 & Ha1 & H).
  rewrite rmatch_Cat in H.
  apply chr_iff in H as (t1 & Et1 & H). rewrite rmatch_Cat in H.
  apply plus_class_iff in H as (c2 & a2 & b2 & E2 & Hc2 & Ha2 & H).
  rewrite rmatch_Cat in H.
  apply chr_iff in H as (t2 & Et2 & H). rewrite rmatch_Cat in H.
  apply plus_class_iff in H as (c3 & a3 & b3 & E3 & Hc3 & Ha3 & H).
  apply eol_iff in H. cbn [rest] in *. subst.
  exists (c1 :: a1), (c2 :: a2), (c3 :: a3).
  rewrite app_nil_r. cbn [forallb].
  rewrite Hc1, Hc2, Hc3, Ha1, Ha2, Ha3.
  repeat split; discriminate.
Qed.

(** X1. The addresses validateEmail accepts are the texts made of a local
    part, an at sign, a domain part, a point and a last part, each part not
    empty and made of code units that are neither white space nor an at
    sign. *)
Theorem validateEmail_iff email :
  validateEmail email = true <->
  exists l d t,
    email = l ++ 64%N :: d ++ 46%N :: t /\
    l <> [] /\ d <> [] /\ t <> [] /\
    forallb addr_char l = true /\ forallb addr_char d = true /\
    forallb addr_char t = true.
Proof.
  split; [apply validateEmail_parts|].
  rewrite validateEmail_rmatch. unfold emailRegex. rewrite rmatch_Cat.
  change (rmatch Bol (MState 0 email None) ?k) with (k (MState 0 email None)).
  cbv beta. rewrite rmatch_Cat.
  intros (l & d & t & E & Hl & Hd & Hn & Fl & Fd & Ft).
  destruct l as [|c1 a1]; [now destruct Hl|].
  destruct d as [|c2 a2]; [now destruct Hd|].
  destruct t as [|c3 a3]; [now destruct Hn|].
  cbn [forallb] in Fl, Fd, Ft.
  apply andb_true_iff in Fl as [Hc1 Ha1].
  apply andb_true_iff in Fd as [Hc2 Ha2].
  apply andb_true_iff in Ft as [Hc3 Ha3].
  apply plus_class_iff.
  exists c1, a1, (64%N :: (c2 :: a2) ++ 46%N :: c3 :: a3).
  cbn [rest pos cap]. split; [now rewrite E|].
  split; [trivial|]. split; [trivial|].
  rewrite rmatch_Cat. apply chr_iff. eexists. cbn [rest pos cap].
  split; [reflexivity|]. rewrite rmatch_Cat. apply plus_class_iff.
  exists c2, a2, (46%N :: c3 :: a3).
  cbn [rest pos cap]. split; [reflexivity|].
  split; [trivial|]. split; [trivial|].
  rewrite rmatch_Cat. apply chr_iff. eexists. cbn [rest pos cap].
  split; [reflexivity|]. rewrite rmatch_Cat. apply plus_class_iff.
  exists c3, a3, []. cbn [rest pos cap].
  split; [now rewrite app_nil_r|].
  split; [trivial|]. split; [trivial|].
  now apply eol_iff.
Qed.

Lemma addr_char_no_ws l : forallb addr_char l = true -> no_ws l = true.
Proof.
  unfold no_ws. rewrite !forallb_forall. intros H c Hc.
  specialize (H c Hc). unfold addr_char in H.
  now apply andb_true_iff in H as [H _].
Qed.

Lemma addr_char_no_at l :
  forallb addr_char l = true -> count_occ N.eq_dec l 64%N = 0.
Proof.
  induction l as [|c l IH]; trivial. cbn [forallb]. intros H.
  apply andb_true_iff in H as [Hc Hl]. unfold addr_char in Hc.
  apply andb_true_iff in Hc as [_ Hc]. apply negb_true_iff in Hc.
  apply N.eqb_neq in Hc. rewrite count_occ_cons_neq by exact Hc. now apply IH.
Qed.

Lemma validateEmail_no_ws email :
  validateEmail email = true -> no_ws email = true.
Proof.
  intros H. apply validateEmail_parts in H
    as (l & d & t & -> & _ & _ & _ & Fl & Fd & Ft).
  change (64%N :: d ++ 46%N :: t) with ([64%N] ++ d ++ [46%N] ++ t).
  rewrite !no_ws_app, (addr_char_no_ws l), (addr_char_no_ws d),
    (addr_char_no_ws t); trivial.
Qed.

(** X2. An address validateEmail accepts holds no white space and exactly
    one at sign, and trimming leaves it as it is. *)
Theorem validateEmail_shape email :
  validateEmail email = true ->
  no_ws email = true /\ count_occ N.eq_dec email 64%N = 1 /\
  trim email = email.
Proof.
  intros H. pose proof (validateEmail_no_ws email H) as Hw.
  split; [exact Hw|]. split; [|now apply no_ws_trim].
  apply validateEmail_parts in H
    as (l & d & t & -> & _ & _ & _ & Fl & Fd & Ft).
  change (64%N :: d ++ 46%N :: t) with ([64%N] ++ d ++ [46%N] ++ t).
  rewrite !count_occ_app, (addr_char_no_at l), (addr_char_no_at d),
    (addr_char_no_at t); trivial.
Qed.

Lemma validateEmail_shape_witness :
  no_ws (u "a@x.com") = true /\
  count_occ N.eq_dec (u "a@x.com") 64%N = 1 /\
  trim (u "a@x.com") = u "a@x.com".
Proof.
  apply (validateEmail_shape (u "a@x.com")). vm_compute. reflexivity.
Defined.

(** *** validateEmailList *)

Lemma check_accepted index email :
  rejected email = false -> check index email = Valid (trim email).
Proof.
  unfold rejected, check. destruct (trim email) as [|c t]; [discriminate|].
  intros H. now rewrite H.
Qed.

Lemma check_not_accepted index email :
  rejected email = true -> exists m, check index email = Invalid m.
Proof.
  unfold rejected, check. destruct (trim email) as [|c t]; [eauto|].
  intros H. rewrite H. eauto.
Qed.

Lemma validate_from_spec emails : forall index acc,
  validEmails (validate_from index emails acc)
    = validEmails acc ++ List.map trim (filter accepted emails) /\
  List.length (errors (validate_from index emails acc))
    = List.length (errors acc) + List.length (filter rejected emails).
Proof.
  induction emails as [|email emails IH]; intros index acc.
  - cbn. now rewrite app_nil_r, Nat.add_0_r.
  - cbn [validate_from filter]. unfold accepted at 1.
    destruct (rejected email) eqn:E.
    + destruct (check_not_accepted index email E) as [m ->].
      destruct (IH (S index) (mkValidation (validEmails acc)
                                           (errors acc ++ [m]))) as [H1 H2].
      rewrite H1, H2. cbn [validEmails errors negb List.length].
      rewrite length_app. cbn [List.length]. split; [reflexivity|lia].
    + rewrite (check_accepted index email E).
      destruct (IH (S index) (mkValidation (validEmails acc ++ [trim email])
                                           (errors acc))) as [H1 H2].
      rewrite H1, H2. cbn [validEmails errors negb List.map].
      now rewrite <- app_assoc.
Qed.

Lemma filter_split (A : Type) (p : A -> bool) l :
  List.length (filter (fun x => negb (p x)) l) + List.length (filter p l)
  = List.length l.
Proof.
  induction l as [|x l IH]; trivial. cbn [filter].
  destruct (p x); cbn [negb List.length]; lia.
Qed.

(** X3. validateEmailList keeps, in their order and trimmed, the entries that
    pass, and reports one error for each other entry: the two lists together
    have as many entries as the input. *)
Theorem validateEmailList_spec emails :
  validEmails (validateEmailList emails)
    = List.map trim (filter accepted emails) /\
  List.length (errors (validateEmailList emails))
    = List.length (filter rejected emails) /\
  List.length (validEmails (validateEmailList emails))
  + List.length (errors (validateEmailList emails)) = List.length emails.
Proof.
  unfold validateEmailList.
  destruct (validate_from_spec emails 0 (mkValidation [] [])) as [H1 H2].
  cbn [validEmails errors app List.length Nat.add] in H1, H2.
  rewrite H1, H2, length_map. repeat split.
  apply filter_split with (p := rejected).
Qed.

Lemma accepted_valid email :
  accepted email = true ->
  validateEmail (trim email) = true.
Proof.
  unfold accepted, rejected. destruct (trim email) as [|c t]; [discriminate|].
  intros H. apply negb_true_iff in H. now apply negb_false_iff in H.
Qed.

Lemma validate_from_valid l : forall index acc,
  (forall e, In e l -> validateEmail e = true) ->
  validate_from index l acc
  = mkValidation (validEmails acc ++ l) (errors acc).
Proof.
  induction l as [|e l IH]; intros index acc H.
  - cbn. rewrite app_nil_r. now destruct acc.
  - cbn [validate_from].
    assert (He : validateEmail e = true) by (apply H; now left).
    assert (Hc : check index e = Valid e).
    { unfold check. rewrite (no_ws_trim e (validateEmail_no_ws e He)).
      destruct e as [|c t]; [discriminate|]. now rewrite He. }
    rewrite Hc, IH by (intros x Hx; apply H; now right).
    cbn [validEmails errors]. now rewrite <- app_assoc.
Qed.

(** X4. Every address of validEmails passes validateEmail, and validating
    validEmails again returns the same list with no error. *)
Theorem validateEmailList_again emails :
  (forall e, In e (validEmails (validateEmailList emails)) ->
             validateEmail e = true) /\
  validateEmailList (validEmails (validateEmailList emails))
  = mkValidation (validEmails (validateEmailList emails)) [].
Proof.
  assert (H : forall e, In e (validEmails (validateEmailList emails)) ->
                        validateEmail e = true).
  { unfold validateEmailList.
    destruct (validate_from_spec emails 0 (mkValidation [] [])) as [-> _].
    cbn [validEmails app]. intros e He. apply in_map_iff in He as (x & <- & Hx).
    apply filter_In in Hx as [_ Hx]. now apply accepted_valid. }
  split; [exact H|].
  unfold validateEmailList at 1. now rewrite validate_from_valid.
Qed.

Lemma validateEmailList_again_witness :
  validateEmail (u "a@x.com") = true /\
  validateEmailList (validEmails (validateEmailList [u " a@x.com "; u "nobody"]))
  = mkValidation (validEmails (validateEmailList [u " a@x.com "; u "nobody"]))
                 [].
Proof.
  destruct (validateEmailList_again [u " a@x.com "; u "nobody"]) as [H E].
  split; [|exact E]. apply H. vm_compute. now left.
Defined.

End ValidationFacts.

(** ** The calls on the transport *)

Module TransportFacts.
Import EmailService EmailServiceMore.

Section Calls.

Variable number_is_zero : jsstring -> bool.
Variable T : Type.
Variable tr : Transport T.

Local Abbreviation sendEmail := (sendEmail number_is_zero).
Local Abbreviation send_loop := (send_loop number_is_zero).
Local Abbreviation mailOptions := (mailOptions number_is_zero).

(** The loop always ends in a report, after one sendMail call per address
    left, in the order of the list. *)
Lemma send_loop_calls env req total todo :
  forall rs fs st,
    exists report st',
      run tr (send_loop env req total todo rs fs) st
      = (Return report,
         List.map (fun email => CSendMail (mailOptions env req email)) todo,
         st') /\
      totalRecipients report = total.
Proof.
  induction todo as [|email todo IH]; intros rs fs st.
  - cbn. eauto.
  - cbn [EmailService.send_loop run List.map].
    destruct (sendMail tr (mailOptions env req email) st) as [[e|info] st1].
    + destruct (IH rs (fs ++ [mkFailure email (message e)]) st1)
        as (report & st' & -> & Ht). eauto.
    + destruct (IH (rs ++ [mkSent email (u "sent") (messageId info)]) fs st1)
        as (report & st' & -> & Ht). eauto.
Qed.

(** X5. The calls sendEmail makes on the transport: none when it throws before
    the connection check; verify alone when verify is rejected, and then it
    throws the error of the catch handler; otherwise verify and then one
    sendMail per validated address, in their order and whatever the earlier
    ones answered, and it returns a report. *)
Theorem sendEmail_calls env req st :
  let v := validateEmailList (recipients req) in
  let '(out, calls, st') := run tr (sendEmail env req) st in
  (calls = [] /\ st' = st /\ (exists m, out = Throw (Error m)) /\
   (createTransporter env = None \/ errors v <> [] \/ validEmails v = []))
  \/
  (exists e, verify tr st = (Some e, st') /\ calls = [CVerify] /\
             out = Throw (service_error e))
  \/
  (exists report st1, verify tr st = (None, st1) /\
     calls = CVerify
             :: List.map (fun email => CSendMail (mailOptions env req email))
                         (validEmails v) /\
     out = Return report).
Proof.
  intros v. unfold EmailService.sendEmail. fold v.
  destruct (createTransporter env) as [t|].
  2:{ cbn. left. repeat split; eauto. }
  destruct (errors v) as [|m ms] eqn:Ee.
  2:{ cbn. left. repeat split; eauto. right. left. discriminate. }
  cbn [List.length Nat.ltb Nat.leb].
  destruct (validEmails v) as [|a l] eqn:Ev.
  { cbn. left. repeat split; eauto. }
  cbn [List.length Nat.eqb run].
  destruct (verify tr st) as [[e|] st1] eqn:V.
  - cbn. right. left. exists e. repeat split.
  - destruct (send_loop_calls env req (S (List.length l)) (a :: l) [] [] st1)
      as (report & st' & -> & _).
    right. right. exists report, st1. repeat split.
Qed.

(** X6. When testConnection succeeds from a state of the transport, sendEmail
    from the same state, with recipients that all pass validation, returns a
    report. *)
Theorem testConnection_then_sendEmail env req st status calls st1 :
  run tr (testConnection env) st = (Return status, calls, st1) ->
  errors (validateEmailList (recipients req)) = [] ->
  validEmails (validateEmailList (recipients req)) <> [] ->
  exists report calls' st',
    run tr (sendEmail env req) st = (Return report, calls', st') /\
    totalRecipients report
    = List.length (validEmails (validateEmailList (recipients req))).
Proof.
  unfold testConnection, EmailService.sendEmail.
  destruct (createTransporter env) as [t|]; [|discriminate].
  intros H He Hv. rewrite He. cbn [List.length Nat.ltb Nat.leb].
  destruct (validEmails (validateEmailList (recipients req))) as [|a l] eqn:Ev;
    [now destruct Hv|].
  cbn [List.length Nat.eqb run] in *.
  destruct (verify tr st) as [[e|] st2]; [discriminate|].
  destruct (send_loop_calls env req (S (List.length l)) (a :: l) [] [] st2)
    as (report & st' & E & Ht).
  rewrite E. eauto.
Qed.

End Calls.

Lemma testConnection_then_sendEmail_witness :
  exists report calls' st',
    run scripted
        (sendEmail zero_mantissa example_env
                   (example_request [u "a@x.com"; u "b@y.org"]))
        example_script
      = (Return report, calls', st') /\
    totalRecipients report
    = List.length (validEmails (validateEmailList
                     (recipients (example_request
                                    [u "a@x.com"; u "b@y.org"])))).
Proof.
  apply (@testConnection_then_sendEmail zero_mantissa Script scripted
           example_env (example_request [u "a@x.com"; u "b@y.org"])
           example_script
           (mkStatus true (u "Email service connection successful"))
           [CVerify] example_script).
  - vm_compute. reflexivity.
  - vm_compute. reflexivity.
  - vm_compute. discriminate.
Defined.

End TransportFacts.

(** ** More on rendering *)

Module RenderMore.
Import EmailService RenderFacts.

(** *** What stripHtml returns *)

Lemma stripped_length s out :
  stripped s out -> List.length out <= List.length s.
Proof.
  induction 1 as [|inner s out Hi H IH|s out Hs H IH|c s out Hc H IH];
    cbn [List.length]; try lia.
  rewrite length_app. cbn [List.length]. lia.
Qed.

Lemma replaced_nbsp_length s out :
  replaced nbsp [SP] s out -> List.length out <= List.length s.
Proof.
  induction 1 as [|s out H IH|c s out Hc H IH]; [lia| |cbn [List.length]; lia].
  rewrite !length_app. change (List.length nbsp) with 6.
  cbn [List.length]. lia.
Qed.

(** X7. What stripHtml returns holds no tag and no non-breaking-space entity,
    and is not longer than its argument. *)
Theorem stripHtml_output html :
  tagfree (stripHtml html) = true /\
  includes (stripHtml html) nbsp = false /\
  List.length (stripHtml html) <= List.length html.
Proof.
  assert (Ht := replace_all_tag html).
  assert (Hr := replace_all_lit nbsp [SP] (replace_all re_tag [] html)
                  nbsp_nonempty).
  fold (stripHtml html) in Hr. split; [|split].
  - apply (replaced_nbsp_tagfree _ _ Hr), (stripped_tagfree html), Ht.
  - now apply replaced_nbsp_clean in Hr.
  - apply replaced_nbsp_length in Hr. apply stripped_length in Ht. lia.
Qed.

(** *** What formatEmailBody returns *)

Lemma replaced_lf_none s out :
  replaced [LF] br s out -> forallb (nch LF) out = true.
Proof.
  induction 1 as [|s out H IH|c s out Hc H IH]; [reflexivity| |].
  - rewrite forallb_app, IH. reflexivity.
  - cbn [forallb]. rewrite IH, andb_true_r.
    cbn [startsWith] in Hc. rewrite andb_true_r in Hc.
    unfold nch. now rewrite Hc.
Qed.

Lemma to_html_no_lf body : forallb (nch LF) (to_html body) = true.
Proof.
  destruct (to_html_spec body) as (s1 & s2 & _ & H2 & H3).
  apply (NormalizeFacts.forallb_replaced (nch LF) _ _ _ _ H3); trivial.
  rewrite !forallb_app, (replaced_lf_none _ _ H2). reflexivity.
Qed.

(** X8. The HTML formatEmailBody returns holds no line feed, whatever the
    body. *)
Theorem formatEmailBody_no_line_feed number_is_zero body :
  forallb (nch LF) (formatEmailBody number_is_zero body) = true /\
  has LF (formatEmailBody number_is_zero body) = false.
Proof.
  assert (H : forallb (nch LF) (formatEmailBody number_is_zero body) = true)
    by apply to_html_no_lf.
  split; [exact H|]. revert H.
  generalize (formatEmailBody number_is_zero body) as s.
  induction s as [|c s IH]; trivial. cbn [forallb has existsb].
  intros H. apply andb_true_iff in H as [Hc Hs]. unfold nch in Hc.
  apply negb_true_iff in Hc. rewrite Hc. now apply IH.
Qed.

(** *** The body that looks like JSON *)

(** *** The body that looks like JSON *)

(** A body wrapped in braces, white space apart, has no quote character at
    either end. *)
Lemma looks_like_json_ends body :
  looks_like_json body = true ->
  strip_end (strip_start body) = body.
Proof.
  unfold looks_like_json. intros H. apply andb_true_iff in H as [Hs He].
  assert (E1 : strip_start body = body).
  { apply startsWith_trim_head, trimStart_first in Hs.
    destruct body as [|d s]; trivial. cbn [strip_start].
    destruct (is_quote d) eqn:Q; trivial.
    destruct Hs as [Hs| ->]; [|discriminate].
    now rewrite (quote_not_ws _ Q) in Hs. }
  rewrite E1. apply strip_end_fixed.
  unfold endsWith in He. unfold trim, trimEnd in He.
  rewrite rev_involutive in He. cbn [rev app] in He.
  destruct (rev body) as [|c r] eqn:R; trivial.
  destruct (is_quote c) eqn:Q; trivial.
  assert (Hc := quote_not_ws _ Q).
  destruct (trimStart_split body) as (w & E & Hw).
  assert (Hr : rev (trimStart body) = c :: firstn (List.length (trimStart body) - 1) r).
  { apply (f_equal (@rev N)) in E. rewrite rev_app_distr, R in E.
    destruct (rev (trimStart body)) as [|x t] eqn:T.
    - cbn [app] in E. 
      assert (In c (rev w)) by (rewrite <- E; now left).
      apply in_rev in H. rewrite forallb_forall in Hw.
      rewrite (Hw c H) in Hc. discriminate.
    - cbn [app] in E. injection E as -> E. f_equal.
      apply (f_equal (@List.length N)) in T. rewrite length_rev in T.
      rewrite T. cbn [List.length]. rewrite Nat.sub_succ, Nat.sub_0_r.
      rewrite E. now rewrite firstn_app, firstn_all, Nat.sub_diag, app_nil_r. }
  rewrite Hr in He. cbn [trimStart] in He. rewrite Hc in He.
  cbn [startsWith] in He. rewrite andb_true_r in He.
  apply N.eqb_eq in He. subst c. discriminate.
Qed.

(** X9. For a body wrapped in braces that JSON.parse rejects, the catch clause
    strips no quote: the HTML is that of the body with each escaped line
    break turned into a line break, and the text extracted from the envelope
    before is dropped. *)
Theorem formatEmailBody_unparsable number_is_zero body :
  looks_like_json body = true ->
  JSON_parse body = None ->
  formatEmailBody number_is_zero body
  = to_html (replace_all re_esc_n [LF] body).
Proof.
  intros Hl Hp. unfold formatEmailBody. rewrite Hl.
  unfold parsed_body, parse_json. rewrite Hp. cbn [bind].
  now rewrite replace_all_quotes, looks_like_json_ends.
Qed.

Lemma formatEmailBody_unparsable_witness :
  formatEmailBody zero_mantissa (u "{a\nb}")
  = to_html (replace_all re_esc_n [LF] (u "{a\nb}")).
Proof.
  apply formatEmailBody_unparsable; vm_compute; reflexivity.
Defined.

End RenderMore.

(** ** More on the completion post-processing *)

Module NormalizeMore.
Import AIService NormalizeFacts.

(** *** The clean-up of the parsed fields *)

(** X10. The clean-up of lines 187 and 188 removes one leading and one
    trailing quote character and no other: the subject is trimmed after
    that, the body has each backslash followed by n replaced by a line feed
    and is trimmed. *)
Theorem clean_fields_unquote subject body :
  clean_subject subject = trim (strip_end (strip_start subject)) /\
  exists t, replaced [BSL; 110%N] [LF] (strip_end (strip_start body)) t /\
            clean_body body = trim t.
Proof.
  unfold clean_subject, clean_body. rewrite !replace_all_quotes.
  split; [reflexivity|].
  exists (replace_all re_esc_n [LF] (strip_end (strip_start body))).
  split; [|reflexivity]. apply replace_all_lit. discriminate.
Qed.

(** *** The returned subject *)

(** X11. The subject normalize returns is trimmed: it neither starts nor
    ends with white space. *)
Theorem normalize_subject_trimmed content email :
  normalize content = Return email -> trim (subject email) = subject email.
Proof.
  rewrite normalize_cases.
  destruct (parse_branch (bounded content)) as [e|err] eqn:E.
  - intros H. injection H as <-. revert E. unfold parse_branch.
    destruct (parse_json (bounded content)) as [parsed|]; [|discriminate].
    cbn [bind].
    destruct (get_prop parsed (u "subject")) as [ps|]; [|discriminate].
    destruct (get_prop parsed (u "body")) as [pb|]; [|discriminate].
    cbn [bind]. destruct (has_json_key _); [discriminate|].
    intros H. injection H as <-. cbn [subject]. apply trim_idem.
  - intros H. injection H as <-. unfold manual_extraction.
    destruct (truthy_group (match1 (re_key (u "body")) (bounded content))).
    + cbn [subject].
      destruct (truthy_group (match1 (re_key (u "subject")) (bounded content)));
        [apply trim_idem|reflexivity].
    + destruct (findIndex is_subject_line _); cbn [subject].
      * apply trim_idem.
      * destruct (truthy_group (match1 (re_key (u "subject")) (bounded content)));
          [apply trim_idem|reflexivity].
Qed.

Lemma normalize_subject_trimmed_witness :
  trim (subject (mkEmail (u "Hi") (u "x"))) = subject (mkEmail (u "Hi") (u "x")).
Proof.
  apply (normalize_subject_trimmed (envelope (u " Hi ") (u "x"))).
  vm_compute. reflexivity.
Defined.

(** *** brace_bound *)

(** The three cases of the brace bounds. *)
Lemma brace_bound_split s :
  ((has LBRACE s = false \/ has RBRACE s = false) /\ brace_bound s = s) \/
  (exists a m b,
      s = a ++ LBRACE :: m ++ RBRACE :: b /\
      has LBRACE a = false /\ has RBRACE b = false /\
      brace_bound s = LBRACE :: m ++ [RBRACE]) \/
  (exists a m b,
      s = a ++ RBRACE :: m ++ LBRACE :: b /\
      has LBRACE a = false /\ has LBRACE m = false /\
      has RBRACE m = false /\ has RBRACE b = false /\
      brace_bound s = m).
Proof.
  unfold brace_bound.
  destruct (indexOf s LBRACE) as [i|] eqn:Ei.
  2: { left. split; [left; now apply indexOf_none|reflexivity]. }
  destruct (lastIndexOf s RBRACE) as [j|] eqn:Ej.
  2: { left. split; [right; now apply lastIndexOf_none|reflexivity]. }
  right.
  destruct (indexOf_some _ _ _ Ei) as (a & b & Ea & La & Ha).
  destruct (lastIndexOf_some _ _ _ Ej) as (a' & b' & Ea' & La' & Hb').
  unfold substring.
  destruct (Nat.lt_total i j) as [Hij|[Hij|Hij]].
  - left. destruct (app_cut a b a' b' LBRACE RBRACE) as (m & Em & Eb);
      [congruence|lia|].
    exists a, m, b'. repeat split; trivial; [now rewrite Ea, Eb|].
    rewrite Nat.min_l, Nat.max_r by lia.
    rewrite Ea, Eb, <- La, skipn_app, skipn_all, Nat.sub_diag.
    cbn [app skipn].
    replace (j + 1 - List.length a) with (S (List.length m + 1))
      by (rewrite <- La', Em, length_app; cbn [List.length]; lia).
    cbn [firstn]. f_equal.
    change (RBRACE :: b') with ([RBRACE] ++ b'). rewrite app_assoc.
    rewrite firstn_app, firstn_all2 by (rewrite length_app; cbn; lia).
    rewrite length_app. cbn [List.length].
    replace (List.length m + 1 - (List.length m + 1)) with 0 by lia.
    cbn [firstn]. now rewrite app_nil_r.
  - exfalso.
    assert (E : a ++ LBRACE :: b = a' ++ RBRACE :: b') by congruence.
    apply app_same_cut in E; [discriminate E|lia].
  - right. destruct (app_cut a' b' a b RBRACE LBRACE) as (m & Em & Eb);
      [congruence|lia|].
    exists a', m, b.
    rewrite Em, has_app, has_cons in Ha.
    apply orb_false_iff in Ha as [Ha1 Ha2].
    apply orb_false_iff in Ha2 as [_ Ha2].
    rewrite Eb, has_app, has_cons in Hb'.
    apply orb_false_iff in Hb' as [Hb1 Hb2].
    apply orb_false_iff in Hb2 as [_ Hb2].
    repeat split; trivial; [now rewrite Ea', Eb|].
    rewrite Nat.min_r, Nat.max_l by lia.
    rewrite Ea', Eb, <- La'.
    replace (List.length a' + 1) with (List.length (a' ++ [RBRACE]))
      by (rewrite length_app; cbn; lia).
    change (a' ++ RBRACE :: m ++ LBRACE :: b)
      with (a' ++ [RBRACE] ++ m ++ LBRACE :: b).
    rewrite app_assoc, skipn_app, skipn_all, Nat.sub_diag. cbn [skipn app].
    replace (i - List.length (a' ++ [RBRACE])) with (List.length m + 0)
      by (rewrite <- La, Em, !length_app; cbn [List.length]; lia).
    rewrite firstn_app_2. cbn [firstn]. apply app_nil_r.
Qed.

Lemma brace_bound_none s :
  has LBRACE s = false \/ has RBRACE s = false -> brace_bound s = s.
Proof.
  unfold brace_bound. intros [H|H].
  - apply indexOf_none in H. now rewrite H.
  - apply lastIndexOf_none in H. rewrite H. now destruct (indexOf s LBRACE).
Qed.

(** X13. The brace bounds: the text itself when a brace is missing, the span
    from the first opening to the last closing brace when they come in this
    order, and the brace-free text between them when the last closing brace
    comes first; in each case bounding a second time changes nothing. *)
Theorem brace_bound_cases s :
  (((has LBRACE s = false \/ has RBRACE s = false) /\ brace_bound s = s) \/
  (exists a m b,
      s = a ++ LBRACE :: m ++ RBRACE :: b /\
      has LBRACE a = false /\ has RBRACE b = false /\
      brace_bound s = LBRACE :: m ++ [RBRACE]) \/
  (exists a m b,
      s = a ++ RBRACE :: m ++ LBRACE :: b /\
      has LBRACE a = false /\ has LBRACE m = false /\
      has RBRACE m = false /\ has RBRACE b = false /\
      brace_bound s = m)) /\
  brace_bound (brace_bound s) = brace_bound s.
Proof.
  split; [apply brace_bound_split|].
  destruct (brace_bound_split s)
    as [[_ E]|[(a & m & b & _ & _ & _ & E)|(a & m & b & _ & _ & Hm & _ & _ & E)]];
    rewrite E.
  - exact E.
  - apply brace_bound_braced.
  - apply brace_bound_none. now left.
Qed.

(** *** The body outside the plain-text fallback *)

(** X12. When the try statement returns, or the handler finds a quoted body,
    the body normalize returns shows no JSON key and is trimmed. *)
Theorem normalize_body_clean content email :
  normalize content = Return email ->
  (exists e, parse_branch (bounded content) = Return e) \/
  truthy_group (match1 (re_key (u "body")) (bounded content)) <> None ->
  has_json_key (body email) = false /\ trim (body email) = body email.
Proof.
  rewrite normalize_cases.
  destruct (parse_branch (bounded content)) as [e|err] eqn:E.
  - intros H _. injection H as <-. revert E. unfold parse_branch.
    destruct (parse_json (bounded content)) as [parsed|]; [|discriminate].
    cbn [bind].
    destruct (get_prop parsed (u "subject")) as [ps|]; [|discriminate].
    destruct (get_prop parsed (u "body")) as [pb|]; [|discriminate].
    cbn [bind]. destruct (has_json_key _) eqn:G; [discriminate|].
    intros H. injection H as <-. cbn [body]. split; [exact G|].
    apply trim_idem.
  - intros H [[e He]|Hm]; [discriminate|]. injection H as <-.
    destruct (truthy_group (match1 (re_key (u "body")) (bounded content)))
      as [m1|] eqn:M; [|now destruct Hm].
    destruct (extracted_body_no_quote _ _ M) as [Eb Hq].
    split; [now apply no_quote_no_key|].
    rewrite Eb. apply trim_idem.
Qed.

(** *** Prose *)

Lemma normalize_body_clean_witness :
  has_json_key (body (mkEmail (u "Hi") (u "Line1" ++ [LF] ++ u "Line2")))
  = false /\
  trim (body (mkEmail (u "Hi") (u "Line1" ++ [LF] ++ u "Line2")))
  = body (mkEmail (u "Hi") (u "Line1" ++ [LF] ++ u "Line2")).
Proof.
  apply (normalize_body_clean envelope_hi).
  - vm_compute. reflexivity.
  - left. eexists. vm_compute. reflexivity.
Defined.

(** *** Prose *)

Lemma prose_unit_spec c :
  prose_unit c = true ->
  nch LBRACE c = true /\ nch RBRACE c = true /\ nch 96%N c = true /\
  nch DQ c = true /\ nch BSL c = true.
Proof.
  unfold prose_unit, nch. rewrite !(N.eqb_sym c).
  destruct (N.eqb LBRACE c), (N.eqb RBRACE c), (N.eqb 96 c), (N.eqb DQ c),
    (N.eqb BSL c); cbn; intros H; try discriminate; repeat split.
Qed.

Lemma prose_forallb s :
  forallb prose_unit s = true ->
  forallb (nch LBRACE) s = true /\ forallb (nch RBRACE) s = true /\
  forallb (nch 96%N) s = true /\ forallb (nch DQ) s = true /\
  forallb (nch BSL) s = true.
Proof.
  induction s as [|c s IH]; [now repeat split|]. cbn [forallb]. intros H.
  apply andb_true_iff in H as [Hc Hs].
  destruct (prose_unit_spec c Hc) as (H1 & H2 & H3 & H4 & H5).
  destruct (IH Hs) as (I1 & I2 & I3 & I4 & I5).
  now rewrite H1, H2, H3, H4, H5, I1, I2, I3, I4, I5.
Qed.

Lemma replace_all_braces_none s :
  forallb (nch LBRACE) s = true -> forallb (nch RBRACE) s = true ->
  replace_all re_braces [] s = s.
Proof.
  intros H1 H2. apply replace_all_none. intros a b j E.
  unfold match_at, re_braces. rewrite rmatch_Chr. cbn [rest].
  destruct b as [|c b]; trivial.
  rewrite E, forallb_app in H1, H2.
  apply andb_true_iff in H1 as [_ H1]. apply andb_true_iff in H2 as [_ H2].
  cbn [forallb] in H1, H2.
  apply andb_true_iff in H1 as [H1 _]. apply andb_true_iff in H2 as [H2 _].
  unfold nch in H1, H2. apply negb_true_iff in H1, H2.
  rewrite (N.eqb_sym c LBRACE), (N.eqb_sym c RBRACE), H1, H2. reflexivity.
Qed.

Lemma no_subject_line s :
  includes (toLowerCase s) (u "subject:") = false ->
  findIndex is_subject_line (filter nonblank (split_lf s)) = None.
Proof.
  intros H. apply findIndex_none. intros l Hl.
  apply filter_In in Hl as [Hl _].
  destruct (split_lf_in _ _ Hl) as (a & b & ->).
  unfold toLowerCase in H. rewrite !map_app in H.
  now apply includes_sub in H.
Qed.

(** X14. A completion that is prose passes through: when it holds no brace,
    backtick, double quote or backslash, has no quote character at either end
    of its trimmed text and nowhere the word subject followed by a colon,
    normalize returns the placeholder subject and the trimmed text. *)
Theorem normalize_prose content :
  forallb prose_unit content = true ->
  strip_end (strip_start (trim content)) = trim content ->
  includes (toLowerCase content) (u "subject:") = false ->
  normalize content = Return (mkEmail placeholder (trim content)).
Proof.
  intros Hp Hq Hs.
  assert (Hr := forallb_trim _ _ Hp).
  destruct (prose_forallb _ Hr) as (H1 & H2 & H3 & H4 & H5).
  assert (Eb : bounded content = trim content).
  { unfold bounded. rewrite strip_fences_none.
    - apply brace_bound_none. left. now apply has_forallb.
    - now apply (includes_none 96%N). }
  assert (Hl : includes (toLowerCase (trim content)) (u "subject:") = false).
  { destruct (trim_sub content) as (a & b & E). rewrite E in Hs.
    unfold toLowerCase in Hs. rewrite !map_app in Hs.
    now apply includes_sub in Hs. }
  assert (Ec : clean_body (trim content) = trim content).
  { unfold clean_body.
    now rewrite replace_all_quotes, Hq, replace_all_esc_n_none, trim_idem. }
  assert (Em : manual_extraction (trim content)
               = mkEmail placeholder (trim content)).
  { unfold manual_extraction. rewrite !match1_key_none by trivial.
    cbn [truthy_group]. rewrite no_subject_line by trivial.
    now rewrite trim_idem, replace_all_quotes, Hq, replace_all_braces_none. }
  rewrite normalize_cases, Eb, Em. unfold parse_branch, parse_json.
  destruct (JSON_parse (trim content)) as [v|] eqn:P; [|reflexivity].
  cbn [bind].
  assert (Hv : forall m, v <> JObj m).
  { intros m ->. apply JSON_parse_object in P.
    apply has_forallb in H1. congruence. }
  destruct v as [| | | | |m]; try reflexivity;
    try (cbn [get_prop bind string_or]; rewrite Ec, no_quote_no_key by trivial;
         reflexivity).
  now destruct (Hv m).
Qed.

Lemma normalize_prose_witness :
  normalize (u " Thanks, see you on Monday. ")
  = Return (mkEmail placeholder (trim (u " Thanks, see you on Monday. "))).
Proof.
  apply normalize_prose; vm_compute; reflexivity.
Defined.

(** *** The body of the plain-text fallback *)

(** X20. When the try statement throws and the handler finds no quoted body,
    the body normalize returns is a text without one leading and one trailing
    quote character and with every brace removed: it holds no brace. *)
Theorem normalize_fallback_body content email e :
  parse_branch (bounded content) = Throw e ->
  truthy_group (match1 (re_key (u "body")) (bounded content)) = None ->
  normalize content = Return email ->
  (exists b, body email = filter (fun c => negb (is_brace c))
                                 (strip_end (strip_start b))) /\
  has LBRACE (body email) = false /\ has RBRACE (body email) = false.
Proof.
  intros Hp Hm. rewrite normalize_cases, Hp. intros H. injection H as <-.
  unfold manual_extraction. rewrite Hm.
  assert (Hb : forall s b0,
             body (mkEmail s (replace_all re_braces []
                                (replace_all re_quotes [] b0)))
             = filter (fun c => negb (is_brace c))
                      (strip_end (strip_start b0))).
  { intros s b0. cbn [body]. rewrite replace_all_quotes.
    apply replace_go_class. }
  destruct (findIndex is_subject_line _) as [i|]; rewrite Hb;
    (split; [eauto|]); split; now apply has_filter.
Qed.

Lemma normalize_fallback_body_witness :
  (exists b, body (mkEmail placeholder (u "this"))
             = filter (fun c => negb (is_brace c))
                      (strip_end (strip_start b))) /\
  has LBRACE (body (mkEmail placeholder (u "this"))) = false /\
  has RBRACE (body (mkEmail placeholder (u "this"))) = false.
Proof.
  apply (normalize_fallback_body (u "see {this} now") (mkEmail placeholder (u "this"))
           SyntaxError); vm_compute; reflexivity.
Defined.

End NormalizeMore.

(** ** Lines *)

Lemma split_lf_line l :
  has LF l = false -> split_lf l = [l].
Proof.
  induction l as [|c l IH]; trivial. rewrite has_cons. intros H.
  apply orb_false_iff in H as [Hc Hl]. cbn [split_lf].
  rewrite N.eqb_sym, Hc. now rewrite (IH Hl).
Qed.

Lemma split_lf_app l r :
  has LF l = false -> split_lf (l ++ LF :: r) = l :: split_lf r.
Proof.
  induction l as [|c l IH]; intros H.
  - cbn [app split_lf]. now rewrite N.eqb_refl.
  - rewrite has_cons in H. apply orb_false_iff in H as [Hc Hl].
    cbn [app split_lf]. rewrite N.eqb_sym, Hc. now rewrite (IH Hl).
Qed.

Lemma split_lf_join : forall ls l,
  Forall (fun x => has LF x = false) (l :: ls) ->
  split_lf (join [LF] (l :: ls)) = l :: ls.
Proof.
  induction ls as [|l' ls IH]; intros l H.
  - apply split_lf_line. now inversion H.
  - change (join [LF] (l :: l' :: ls)) with (l ++ LF :: join [LF] (l' :: ls)).
    inversion H as [|? ? Hl Hr]; subst.
    now rewrite split_lf_app, IH.
Qed.

Lemma filter_all (A : Type) (p : A -> bool) l :
  Forall (fun x => p x = true) l -> filter p l = l.
Proof.
  induction 1 as [|x l Hx _ IH]; trivial. cbn [filter]. now rewrite Hx, IH.
Qed.

Lemma filter_forallb (A : Type) (p : A -> bool) l :
  forallb p l = true -> filter p l = l.
Proof.
  induction l as [|x l IH]; trivial. cbn [forallb filter]. intros H.
  apply andb_true_iff in H as [Hx Hl]. now rewrite Hx, IH.
Qed.

Lemma JSON_parse_capital_s t : JSON_parse (83%N :: t) = None.
Proof.
  unfold JSON_parse. change (skip_ws (83%N :: t)) with (83%N :: t).
  set (f := 2 * List.length (83%N :: t) + 1).
  replace f with (S (f - 1)) by (unfold f; lia).
  reflexivity.
Qed.

(** ** The plain-text fallback *)

Module FallbackFacts.
Import AIService NormalizeFacts NormalizeMore.

(** What normalize returns through the subject line of the plain-text
    fallback. *)
Lemma fallback_value content pre line post :
  (exists e, parse_branch (bounded content) = Throw e) ->
  truthy_group (match1 (re_key (u "body")) (bounded content)) = None ->
  filter nonblank (split_lf (bounded content)) = pre ++ line :: post ->
  forallb (fun l => negb (is_subject_line l)) pre = true ->
  is_subject_line line = true ->
  normalize content
  = Return (mkEmail
              (trim (replace_first re_subject_prefix [] line))
              (replace_all re_braces []
                 (replace_all re_quotes []
                    (trim (join [LF] (pre ++ post)))))).
Proof.
  intros [e He] Hb Hl Hpre Hline.
  rewrite normalize_cases, He. unfold manual_extraction.
  rewrite Hb, Hl, (findIndex_app _ _ _ _ _ Hpre Hline).
  now rewrite nth_middle, splice1_app.
Qed.

Lemma prose_bounded text :
  forallb prose_unit text = true -> bounded text = trim text.
Proof.
  intros Hp. assert (Hr := forallb_trim _ _ Hp).
  destruct (prose_forallb _ Hr) as (H1 & H2 & H3 & H4 & H5).
  unfold bounded. rewrite strip_fences_none.
  - apply brace_bound_none. left. now apply has_forallb.
  - now apply (includes_none 96%N).
Qed.

(** C7, as the code has it. When the try statement gives no result and no
    body key with a non-empty value is found, and some line of the bounded
    text (the completion trimmed, without fences, cut to its braces) includes
    subject: in any case, normalize takes the first such line among the
    lines that are not blank, removes from it the first occurrence of subject
    with an optional colon and the white space after it, and trims it: that
    is the subject.  The body is the other lines that are not blank, joined
    by line feeds, trimmed, then without one leading and one trailing quote
    character and without any brace.  For the line Subject: Hello followed
    by lines that are not blank and hold no brace, backtick, double quote or
    backslash, whose joined text is trimmed and has no quote character at
    either end, the subject is Hello and the body is these lines joined. *)
Theorem plain_text_fallback content pre line post ls :
  ((exists e, parse_branch (bounded content) = Throw e) ->
   truthy_group (match1 (re_key (u "body")) (bounded content)) = None ->
   filter nonblank (split_lf (bounded content)) = pre ++ line :: post ->
   forallb (fun l => negb (is_subject_line l)) pre = true ->
   is_subject_line line = true ->
   normalize content
   = Return (mkEmail
               (trim (replace_first re_subject_prefix [] line))
               (filter (fun c => negb (is_brace c))
                  (strip_end (strip_start
                     (trim (join [LF] (pre ++ post)))))))) /\
  (Forall (fun l => nonblank l = true /\ has LF l = false) ls ->
   forallb prose_unit (join [LF] ls) = true ->
   trim (join [LF] ls) = join [LF] ls ->
   strip_end (strip_start (join [LF] ls)) = join [LF] ls ->
   normalize (subject_hello_then ls)
   = Return (mkEmail (u "Hello") (join [LF] ls))).
Proof.
  split.
  - intros He Hb Hl Hpre Hline.
    rewrite (fallback_value content pre line post He Hb Hl Hpre Hline).
    rewrite replace_all_quotes. unfold replace_all, re_braces.
    now rewrite replace_go_class.
  - intros Hls Hp Ht Hq.
    set (text := subject_hello_then ls).
    assert (Ex : exists r, text = 83%N :: r).
    { unfold text, subject_hello_then. destruct ls; eexists; reflexivity. }
    assert (Hpt : forallb prose_unit text = true).
    { unfold text, subject_hello_then. destruct ls as [|l ls']; [reflexivity|].
      change (join [LF] (u "Subject: Hello" :: l :: ls'))
        with ((u "Subject: Hello" ++ [LF]) ++ join [LF] (l :: ls')).
      now rewrite forallb_app, Hp. }
    assert (Htt : trim text = text).
    { apply trim_fixed.
      - destruct Ex as [r ->]. reflexivity.
      - unfold text, subject_hello_then. destruct ls as [|l ls']; [reflexivity|].
        change (join [LF] (u "Subject: Hello" :: l :: ls'))
          with ((u "Subject: Hello" ++ [LF]) ++ join [LF] (l :: ls')).
        rewrite rev_app_distr.
        pose proof (trim_last_ok (join [LF] (l :: ls'))) as Hlast.
        rewrite Ht in Hlast.
        destruct (rev (join [LF] (l :: ls'))) as [|c r] eqn:R; [|exact Hlast].
        exfalso. apply (f_equal (@rev N)) in R. rewrite rev_involutive in R.
        cbn [rev] in R. inversion Hls as [|? ? [Hn _] _]; subst.
        unfold nonblank in Hn. destruct ls' as [|l2 ls2].
        + cbn [join] in R. subst l. discriminate.
        + cbn [join] in R. destruct l; discriminate. }
    assert (Eb : bounded text = text) by now rewrite prose_bounded.
    destruct (prose_forallb _ Hpt) as (H1 & H2 & H3 & H4 & H5).
    assert (Hlines : filter nonblank (split_lf text)
                     = [] ++ u "Subject: Hello" :: ls).
    { unfold text, subject_hello_then. rewrite split_lf_join.
      - cbn [filter app]. change (nonblank (u "Subject: Hello")) with true.
        cbv iota. f_equal. apply filter_all.
        eapply Forall_impl; [|exact Hls]. now intros l [Hn _].
      - constructor; [reflexivity|].
        eapply Forall_impl; [|exact Hls]. now intros l [_ Hl]. }
    rewrite (fallback_value text [] (u "Subject: Hello") ls).
    + cbn [app]. rewrite Ht, replace_all_quotes, Hq.
      destruct (prose_forallb _ Hp) as (B1 & B2 & _).
      rewrite replace_all_braces_none by trivial.
      f_equal.
    + rewrite Eb. unfold parse_branch, parse_json.
      destruct Ex as [r ->]. rewrite JSON_parse_capital_s. cbn [bind]. eauto.
    + rewrite Eb. now rewrite match1_key_none.
    + now rewrite Eb.
    + reflexivity.
    + reflexivity.
Qed.

Lemma plain_text_fallback_witness :
  normalize subject_then_apostrophe
  = Return (mkEmail
              (trim (replace_first re_subject_prefix [] (u "Subject: Hello")))
              (filter (fun c => negb (is_brace c))
                 (strip_end (strip_start
                    (trim (join [LF] ([] ++ [[SQ] ++ u "Tis the season"])))))))
  /\
  normalize (subject_hello_then [u "Line one"; u "Line two"])
  = Return (mkEmail (u "Hello") (join [LF] [u "Line one"; u "Line two"])).
Proof.
  destruct (plain_text_fallback subject_then_apostrophe []
              (u "Subject: Hello") [[SQ] ++ u "Tis the season"]
              [u "Line one"; u "Line two"]) as [H1 H2].
  split.
  - apply H1.
    + eexists. vm_compute. reflexivity.
    + vm_compute. reflexivity.
    + vm_compute. reflexivity.
    + reflexivity.
    + vm_compute. reflexivity.
  - apply H2.
    + repeat constructor.
    + vm_compute. reflexivity.
    + vm_compute. reflexivity.
    + vm_compute. reflexivity.
Defined.

(** C7 as stated fails when the line after the subject line starts with an
    apostrophe: the apostrophe is missing from the body. *)
Lemma plain_text_fallback_counterexample :
  normalize subject_then_apostrophe
    = Return (mkEmail (u "Hello") (u "Tis the season")) /\
  ~ (exists email,
       normalize subject_then_apostrophe = Return email /\
       subject email = u "Hello" /\
       body email = join [LF] [[SQ] ++ u "Tis the season"]).
Proof.
  assert (H : normalize subject_then_apostrophe
              = Return (mkEmail (u "Hello") (u "Tis the season")))
    by (vm_compute; reflexivity).
  split; [exact H|]. intros (email & He & _ & Hb).
  rewrite H in He. injection He as <-. vm_compute in Hb. discriminate.
Qed.

(** The lines are those of the bounded text, not of the completion: braces
    in a later line cut the subject line off, and the placeholder is
    returned. *)
Example braces_cut_the_subject_line :
  bounded subject_then_braces = u "{name}" /\
  normalize subject_then_braces = Return (mkEmail placeholder (u "name")).
Proof. vm_compute. split; reflexivity. Qed.

End FallbackFacts.

(** ** generateEmail and improveEmail *)

Module ProviderFacts.
Import AIService AIServiceMore NormalizeFacts.

Section Provider.

Variable engine_message : exn -> jsstring.
Variable number_is_zero : jsstring -> bool.

Variable read_error : Completion -> jsstring.

Local Abbreviation generateEmail :=
  (generateEmail engine_message read_error).
Local Abbreviation improveEmail := (improveEmail number_is_zero).
Local Abbreviation truthy := (EmailService.truthy number_is_zero).

(** X15. generateEmail after the request has settled, for a client built
    from the key: with a completion text it returns what the post-processing
    returns; with a fulfilled request that holds no text, the TypeError of
    line 161 reaches the catch clause of lines 256 to 268 and comes out as
    Failed to generate email: followed by its message; with a rejected
    request the Error is chosen by the code of the rejection, and it names
    Groq for a key that starts with gsk_ and OpenAI for another key. *)
Theorem generateEmail_outcomes key client completion :
  construct key = Return client ->
  match completion with
  | inr (Content content) =>
      exists email, generateEmail client completion = Return email /\
                    normalize content = Return email
  | inr missing =>
      generateEmail client completion
      = Throw (Error (u "Failed to generate email: " ++ read_error missing))
  | inl e =>
      let name :=
        match key with
        | Some k => if startsWith k (u "gsk_") then u "Groq" else u "OpenAI"
        | None => u "OpenAI"
        end in
      generateEmail client completion
      = Throw (Error
          (if code_is (code e) (u "insufficient_quota")
           then name ++ u " API quota exceeded. Please check your billing."
           else if code_is (code e) (u "invalid_api_key")
           then u "Invalid " ++ name
                ++ u " API key. Please check your configuration."
           else u "Failed to generate email: " ++ message e))
  end.
Proof.
  intros Hc.
  assert (Hn : provider client
               = match key with
                 | Some k =>
                     if startsWith k (u "gsk_") then u "Groq" else u "OpenAI"
                 | None => u "OpenAI"
                 end).
  { unfold construct in Hc. destruct key as [[|c k]|]; try discriminate.
    injection Hc as <-. reflexivity. }
  destruct completion as [e|[| | |content]]; try reflexivity.
  - cbv zeta. rewrite <- Hn.
    unfold AIServiceMore.generateEmail, generate_error.
    destruct (code_is (code e) (u "insufficient_quota")); [reflexivity|].
    destruct (code_is (code e) (u "invalid_api_key")); reflexivity.
  - unfold AIServiceMore.generateEmail. rewrite normalize_cases.
    destruct (parse_branch (bounded content)) as [email|err];
      eexists; split; reflexivity.
Qed.

Lemma or_else_truthy v d :
  truthy (Some d) = true -> truthy (Some (or_else number_is_zero v d)) = true.
Proof.
  intros H. unfold or_else. destruct v as [w|]; trivial.
  destruct (truthy (Some w)) eqn:E; trivial.
Qed.

(** X16. improveEmail with a completion text never throws, and a field it
    returns is falsy only when its fallback is the empty string: the body is
    truthy for a completion text that is not empty, the subject for an
    original subject that is not empty. *)
Theorem improveEmail_fields originalSubject response :
  exists r, improveEmail originalSubject (inr response) = Return r /\
            (response <> [] -> truthy (Some (improved_body r)) = true) /\
            (originalSubject <> [] ->
             truthy (Some (improved_subject r)) = true).
Proof.
  eexists. split; [reflexivity|]. unfold improved_of.
  destruct (parse_json response) as [parsed|]; cbn [bind].
  2:{ cbn. split.
      - now destruct response.
      - now destruct originalSubject. }
  destruct (get_prop parsed (u "subject")) as [ps|]; cbn [bind].
  2:{ cbn. split.
      - now destruct response.
      - now destruct originalSubject. }
  destruct (get_prop parsed (u "body")) as [pb|]; cbn [bind].
  2:{ cbn. split.
      - now destruct response.
      - now destruct originalSubject. }
  cbn [improved_body improved_subject]. split; intros H; apply or_else_truthy.
  - now destruct response.
  - now destruct originalSubject.
Qed.

Lemma JSON_parse_fence t : JSON_parse (fence ++ t) = None.
Proof.
  unfold JSON_parse. cbn [fence u app skip_ws json_ws].
  change (skip_ws (fence ++ t)) with (fence ++ t).
  set (f := 2 * List.length (fence ++ t) + 1).
  replace f with (S (f - 1)) by (unfold f; lia).
  reflexivity.
Qed.

(** X17. improveEmail strips no code fence: a completion text that starts with
    a fence is returned whole as the body, beside the original subject. *)
Theorem improveEmail_fenced originalSubject t :
  improveEmail originalSubject (inr (fence ++ t))
  = Return (mkImproved (JStr originalSubject) (JStr (fence ++ t))).
Proof.
  unfold AIServiceMore.improveEmail, improved_of, parse_json.
  now rewrite JSON_parse_fence.
Qed.

End Provider.

Lemma generateEmail_outcomes_witness :
  generateEmail (fun _ => []) (fun _ => u "no text")
    (mkClient (Some (u "https://api.groq.com/openai/v1")) true
              (u "llama3-8b-8192"))
    (inl (mkProviderError (Some (u "insufficient_quota")) (u "quota")))
  = Throw (Error (u "Groq API quota exceeded. Please check your billing.")).
Proof.
  apply (generateEmail_outcomes (fun _ => []) (fun _ => u "no text")
           (Some (u "gsk_abc"))
           (mkClient (Some (u "https://api.groq.com/openai/v1")) true
                     (u "llama3-8b-8192"))
           (inl (mkProviderError (Some (u "insufficient_quota"))
                                 (u "quota")))).
  reflexivity.
Defined.

Lemma improveEmail_fields_witness :
  exists r,
    improveEmail EmailService.zero_mantissa (u "Hi") (inr (u "text")) = Return r /\
    EmailService.truthy EmailService.zero_mantissa (Some (improved_body r)) = true /\
    EmailService.truthy EmailService.zero_mantissa (Some (improved_subject r)) = true.
Proof.
  destruct (improveEmail_fields EmailService.zero_mantissa (u "Hi") (u "text"))
    as (r & E & Hb & Hs).
  exists r. split; [exact E|]. split; [apply Hb|apply Hs]; discriminate.
Defined.

End ProviderFacts.

(** ** The status route *)

Module RouteFacts.
Import Routes.

Lemma match_at_mask a b c l domain :
  forallb dot (a :: b :: c :: l) = true ->
  has 64%N domain = false ->
  match_at re_mask 0 ((a :: b :: c :: l) ++ 64%N :: domain)
  = Some (4 + List.length l, Some [a; b; c]).
Proof.
  intros Hd Hn. cbn [forallb] in Hd.
  apply andb_true_iff in Hd as [Ha Hd]. apply andb_true_iff in Hd as [Hb Hd].
  apply andb_true_iff in Hd as [Hc Hl].
  unfold match_at, re_mask. cbn [app rmatch rest pos cap].
  rewrite Ha, Hb, Hc. cbn [Nat.sub firstn].
  set (cap1 := Some [a; b; c]).
  rewrite (star_class_last dot _ l _ (64%N :: domain) _
             (MState (S (3 + List.length l)) domain cap1)); trivial.
  - rewrite length_app. lia.
  - unfold advance. cbn [pos rest cap].
    rewrite skipn_app, skipn_all, Nat.sub_diag. cbn [skipn app]. unfold ch.
    now rewrite N.eqb_refl.
  - intros x e E Hx. unfold advance. cbn [pos rest cap].
    destruct x as [|y x]; [now destruct Hx|]. cbn [app] in E.
    injection E as <- E.
    replace (skipn (List.length (l ++ 64%N :: x)) (l ++ 64%N :: domain))
      with e.
    + rewrite E, has_app in Hn. apply orb_false_iff in Hn as [_ Hn].
      destruct e as [|y e]; trivial. rewrite has_cons in Hn.
      apply orb_false_iff in Hn as [Hn _]. unfold ch. now rewrite Hn.
    + rewrite E. change (64%N :: x ++ e) with ((64%N :: x) ++ e).
      rewrite app_assoc. now rewrite skipn_app, skipn_all, Nat.sub_diag.
Qed.

(** X18. The status route masks a user name with three code units or more
    before its last at sign, none of them a line terminator: the first three
    stay, what follows up to that at sign becomes three asterisks, the at
    sign and the domain stay. *)
Theorem shown_user_masked a b c l domain :
  forallb dot (a :: b :: c :: l) = true ->
  has 64%N domain = false ->
  shown_user (Some ((a :: b :: c :: l) ++ 64%N :: domain))
  = [a; b; c] ++ u "***@" ++ domain.
Proof.
  intros Hd Hn. pose proof (match_at_mask a b c l domain Hd Hn) as M.
  cbn [app shown_user] in M |- *. unfold replace_first_group, exec.
  rewrite (exec_from_hit _ _ _ _ _ M).
  replace (skipn (0 + (4 + List.length l))
                 (a :: b :: c :: l ++ 64%N :: domain)) with domain
    by (symmetry; apply (skipn_past N (a :: b :: c :: l) 64%N domain)).
  reflexivity.
Qed.

Lemma shown_user_masked_witness :
  shown_user (Some (u "alice@example.com")) = u "ali***@example.com".
Proof.
  apply (shown_user_masked 97%N 108%N 105%N (u "ce") (u "example.com"));
    reflexivity.
Defined.

Lemma mask_none b j :
  has 64%N (skipn 3 b) = false -> match_at re_mask j b = None.
Proof.
  intros H. unfold match_at, re_mask. cbn [rmatch rest pos cap].
  destruct b as [|c1 [|c2 [|c3 t]]]; trivial;
    try (destruct (dot c1); trivial; destruct (dot c2); trivial).
  destruct (dot c3); trivial. cbn [skipn] in H.
  destruct (star_loop _ _ _ _) as [z|] eqn:E; trivial.
  apply star_class_found in E as (a' & b' & Ea & _ & Hk).
  cbn [rest] in Ea.
  unfold advance in Hk. cbn [pos rest cap] in Hk.
  rewrite Ea, skipn_app, skipn_all, Nat.sub_diag in Hk. cbn [skipn app] in Hk.
  rewrite Ea, has_app in H. apply orb_false_iff in H as [_ H].
  destruct b' as [|y e]; [discriminate|]. rewrite has_cons in H.
  apply orb_false_iff in H as [H _]. unfold ch in Hk. now rewrite H in Hk.
Qed.

(** X19. A user name with fewer than three code units before its last at sign
    is shown as it is: nothing of it is masked. *)
Theorem shown_user_short local domain :
  List.length local < 3 ->
  has 64%N domain = false ->
  shown_user (Some (local ++ 64%N :: domain)) = local ++ 64%N :: domain.
Proof.
  intros Hl Hn.
  assert (E : replace_first_group re_mask (u "***@") (local ++ 64%N :: domain)
              = local ++ 64%N :: domain).
  { unfold replace_first_group, exec. rewrite exec_from_none; trivial.
    intros a b j E. apply mask_none.
    destruct (Nat.lt_ge_cases (List.length b) 3) as [Hb|Hb].
    - now rewrite skipn_all2 by lia.
    - rewrite <- (firstn_skipn 3 b), app_assoc in E.
      apply app_longer in E as [m Em].
      + rewrite Em, has_app in Hn. now apply orb_false_iff in Hn as [_ Hn].
      + rewrite length_app, length_firstn. lia. }
  unfold shown_user. destruct (local ++ 64%N :: domain) as [|c s] eqn:S;
    [now destruct local|exact E].
Qed.

Lemma shown_user_short_witness :
  shown_user (Some (u "al@example.com")) = u "al@example.com".
Proof.
  apply (shown_user_short (u "al") (u "example.com")).
  - cbn. lia.
  - reflexivity.
Defined.

(** *** The status route and the services *)

(** X21. The status route agrees with the two services, for the environment
    they were built from: it reports the email service as configured exactly
    when EmailService.createTransporter returns a transporter, the AI service as
    configured exactly when the constructor does not throw, and then names
    the provider the constructed client has; with no key it still names
    OpenAI. *)
Theorem status_consistent env key :
  (isConfigured env = true <-> EmailService.createTransporter env <> None) /\
  (isAIConfigured key = true <-> exists client, AIServiceMore.construct key = Return client)
  /\
  (forall client, AIServiceMore.construct key = Return client ->
                  status_provider key = AIServiceMore.provider client) /\
  (isAIConfigured key = false -> status_provider key = u "OpenAI").
Proof.
  split; [|split; [|split]].
  - unfold isConfigured, EmailService.createTransporter, set_env.
    destruct env as [[[|c1 h]|] [[|c2 us]|] [[|c3 p]|]]; cbn;
      split; congruence.
  - unfold isAIConfigured, set_env, AIServiceMore.construct.
    destruct key as [[|c k]|]; cbn [EmailService.unset negb]; split; intros H;
      try discriminate; eauto; destruct H as [client H]; discriminate.
  - intros client. unfold AIServiceMore.construct, status_provider, AIServiceMore.provider.
    destruct key as [[|c k]|]; try discriminate.
    intros H. injection H as <-. cbn [AIServiceMore.isGroq]. reflexivity.
  - unfold isAIConfigured, set_env, status_provider.
    destruct key as [[|c k]|]; cbn [EmailService.unset negb]; trivial. discriminate.
Qed.

Lemma status_consistent_witness :
  EmailService.createTransporter EmailService.example_env <> None /\
  status_provider (Some (u "gsk_abc")) = u "Groq".
Proof.
  destruct (status_consistent EmailService.example_env (Some (u "gsk_abc")))
    as (Hc & Ha & Hp & _).
  split.
  - apply Hc. reflexivity.
  - destruct Ha as [Ha _]. destruct (Ha eq_refl) as [client Hcl].
    rewrite (Hp client Hcl). vm_compute in Hcl. injection Hcl as <-.
    reflexivity.
Defined.

End RouteFacts.
